(** * JSONMan: the repair engine ([JSONMan.fix]) and the diagnostic reporter
    ([Parser.diagnose]), embedded from the TypeScript sources.

    JavaScript strings are sequences of UTF-16 code units: a character is a
    code unit, held as an [N], and a text is a list of them.  Regular
    expression literals of the source are transcribed as abstract syntax and
    run by a backtracking matcher that follows the ECMAScript pattern
    semantics (continuation matchers, RepeatMatcher).  Where a comment
    quotes a pattern of the source, a backquote stands for the double quote
    and a blank separates a star from a closing parenthesis.

    Besides the repair engine, the file embeds the position helpers of
    core/types.ts, the entry points [safe], [typed], [multiple] and
    [partial] of the parser module, and the functions [compare], [merge]
    and [search] of [JSONMan] on parsed values. *)

From Stdlib Require Import String Ascii NArith ZArith Bool Lia Arith List.
From Stdlib Require Import Sorted Permutation.
Import ListNotations.

Set Warnings "-register-all".

(* ================================================================== *)
(** ** Characters and texts *)

Definition char := N.
Definition text := list char.

(** Character and string literals of the development: the backquote stands
    for the double quote (code unit 34), every other character for itself.
    No pattern or literal of the embedded sources holds a backquote. *)
Definition code (a : ascii) : char :=
  if Ascii.eqb a "`" then 34%N else N_of_ascii a.

(** [isc c a]: the code unit [c] is the character [a]. *)
Definition isc (c : char) (a : ascii) : bool := N.eqb c (code a).

Fixpoint js (s : string) : text :=
  match s with
  | EmptyString => []
  | String a s' => code a :: js s'
  end.

Definition DQ : char := 34%N.
Definition NL : char := 10%N.
Definition BOM : char := 65279%N.

Definition text_eqb (a b : text) : bool :=
  if list_eq_dec N.eq_dec a b then true else false.

Definition in_range (lo hi c : N) : bool := (N.leb lo c && N.leb c hi)%bool.

Definition is_digit (c : char) : bool := in_range 48 57 c.
Definition is_upper (c : char) : bool := in_range 65 90 c.
Definition is_lower (c : char) : bool := in_range 97 122 c.

(** [\w] *)
Definition is_word (c : char) : bool :=
  (is_digit c || is_upper c || is_lower c || isc c "_")%bool.

(** ECMAScript WhiteSpace and LineTerminator: the set of [\s] and of
    [String.prototype.trim]. *)
Definition is_space (c : char) : bool :=
  (in_range 9 13 c || N.eqb c 32 || N.eqb c 160 || N.eqb c 5760
   || in_range 8192 8202 c || N.eqb c 8232 || N.eqb c 8233 || N.eqb c 8239
   || N.eqb c 8287 || N.eqb c 12288 || N.eqb c 65279)%bool.

(** LineTerminator, which [.] does not match. *)
Definition is_line_terminator (c : char) : bool :=
  (N.eqb c 10 || N.eqb c 13 || N.eqb c 8232 || N.eqb c 8233)%bool.

(* ------------------------------------------------------------------ *)
(** *** String methods *)

Fixpoint starts_with (p s : text) : bool :=
  match p, s with
  | [], _ => true
  | a :: p', b :: s' => (N.eqb a b && starts_with p' s')%bool
  | _ :: _, [] => false
  end.

Definition ends_with (p s : text) : bool := starts_with (rev p) (rev s).

Fixpoint includes (p s : text) : bool :=
  (starts_with p s
   || match s with [] => false | _ :: s' => includes p s' end)%bool.

Fixpoint drop_while (p : char -> bool) (s : text) : text :=
  match s with
  | [] => []
  | c :: s' => if p c then drop_while p s' else s
  end.

Definition trim_start (s : text) : text := drop_while is_space s.
Definition trim_end (s : text) : text := rev (drop_while is_space (rev s)).
Definition trim (s : text) : text := trim_end (trim_start s).

(** [s.split(sep)] for a one-character separator. *)
Fixpoint split_on (sep : char) (s : text) : list text :=
  match s with
  | [] => [[]]
  | c :: s' =>
      if N.eqb c sep then [] :: split_on sep s'
      else match split_on sep s' with
           | [] => [[c]]
           | l :: ls => (c :: l) :: ls
           end
  end.

Fixpoint join (sep : text) (ls : list text) : text :=
  match ls with
  | [] => []
  | [l] => l
  | l :: ls' => l ++ sep ++ join sep ls'
  end.

(** [s.slice(a, b)] and [s.substring(a, b)] for [0 <= a <= b]. *)
Definition slice (s : text) (a b : nat) : text := firstn (b - a) (skipn a s).

(* ================================================================== *)
(** ** Regular expressions *)

Inductive citem : Type :=
| CI (a : ascii)            (* a character *)
| CR (lo hi : ascii)        (* a range lo-hi *)
| Cd                        (* \d *)
| Cw                        (* \w *)
| Cs                        (* \s *)
| CS.                       (* \S *)

Inductive re : Type :=
| Eps
| Chr (a : ascii)
| Any                                    (* .           *)
| Class (neg : bool) (items : list citem) (* [..] [^..]  *)
| Seq (r1 r2 : re)
| Alt (r1 r2 : re)
| Rep (min : nat) (max : option nat) (greedy : bool) (r : re)
| Group (n : nat) (r : re)               (* n-th capturing group *)
| Look (r : re)                          (* (?=r)       *)
| WordB                                  (* \b          *)
| Eol.                                   (* $ (no m flag) *)

Definition citem_match (i : citem) (c : char) : bool :=
  match i with
  | CI a => isc c a
  | CR lo hi => in_range (code lo) (code hi) c
  | Cd => is_digit c
  | Cw => is_word c
  | Cs => is_space c
  | CS => negb (is_space c)
  end.

Definition class_match (neg : bool) (items : list citem) (c : char) : bool :=
  xorb neg (existsb (fun i => citem_match i c) items).

(** Capturing groups that occur in a pattern. *)
Fixpoint groups (r : re) : list nat :=
  match r with
  | Seq r1 r2 | Alt r1 r2 => groups r1 ++ groups r2
  | Rep _ _ _ r1 | Look r1 => groups r1
  | Group n r1 => n :: groups r1
  | _ => []
  end.

(** The matcher state: the code unit before the current position (for
    [\b]), the text from the current position on, and the captures. *)
Record mstate : Type := MState {
  prev : option char;
  rest : text;
  caps : list (nat * text)
}.

Definition consumed (x y : mstate) : text :=
  firstn (length (rest x) - length (rest y)) (rest x).

Definition set_cap (n : nat) (v : text) (y : mstate) : mstate :=
  MState (prev y) (rest y)
         ((n, v) :: filter (fun p => negb (Nat.eqb (fst p) n)) (caps y)).

Definition clear_caps (gs : list nat) (x : mstate) : mstate :=
  MState (prev x) (rest x)
         (filter (fun p => negb (existsb (Nat.eqb (fst p)) gs)) (caps x)).

Definition is_word_opt (o : option char) : bool :=
  match o with Some c => is_word c | None => false end.

Definition atom (p : char -> bool) (x : mstate)
    (k : mstate -> option mstate) : option mstate :=
  match rest x with
  | c :: t => if p c then k (MState (Some c) t (caps x)) else None
  | [] => None
  end.

Definition or_else {A} (a b : option A) : option A :=
  match a with Some _ => a | None => b end.

Definition pred_max (o : option nat) : option nat :=
  match o with Some n => Some (pred n) | None => None end.

Definition max_is_zero (o : option nat) : bool :=
  match o with Some 0 => true | _ => false end.

Definition matcher : Type := mstate -> (mstate -> option mstate) -> option mstate.

(** RepeatMatcher for an atom matched by [mr] that holds the groups [gs]:
    when [max] is 0 continue; otherwise run the atom on the state with the
    captures of [gs] cleared, and on from there with [min] and [max]
    lowered, an iteration with [min = 0] that consumed nothing failing;
    greedy tries the atom before the continuation, lazy after it.  Each
    iteration lowers [min] or shortens the rest, so [min + length (rest x)
    + 1] rounds of [fuel] are never used up (lemma [m_rep_fuel]). *)
Fixpoint rep (mr : matcher) (gs : list nat) (greedy : bool)
    (k : mstate -> option mstate) (fuel min : nat) (max : option nat)
    (x : mstate) {struct fuel} : option mstate :=
  match fuel with
  | O => None
  | S fuel' =>
      if max_is_zero max then k x
      else
        let d := fun y : mstate =>
          if (Nat.eqb min 0
              && Nat.eqb (length (rest y)) (length (rest x)))%bool
          then None
          else rep mr gs greedy k fuel' (pred min) (pred_max max) y in
        let xr := clear_caps gs x in
        if negb (Nat.eqb min 0) then mr xr d
        else if greedy then or_else (mr xr d) (k x)
        else or_else (k x) (mr xr d)
  end.

(** [m r x k]: match [r] at state [x], then continue with [k]; backtracking
    is the order in which the alternatives are tried. *)
Fixpoint m (r : re) (x : mstate) (k : mstate -> option mstate)
    {struct r} : option mstate :=
  match r with
  | Eps => k x
  | Chr a => atom (fun c => isc c a) x k
  | Any => atom (fun c => negb (is_line_terminator c)) x k
  | Class neg items => atom (class_match neg items) x k
  | Seq r1 r2 => m r1 x (fun y => m r2 y k)
  | Alt r1 r2 => or_else (m r1 x k) (m r2 x k)
  | Group n r1 => m r1 x (fun y => k (set_cap n (consumed x y) y))
  | Look r1 =>
      match m r1 x (fun y => Some y) with
      | Some y => k (MState (prev x) (rest x) (caps y))
      | None => None
      end
  | WordB =>
      if xorb (is_word_opt (prev x)) (is_word_opt (hd_error (rest x)))
      then k x else None
  | Eol => match rest x with [] => k x | _ :: _ => None end
  | Rep min max greedy r1 =>
      rep (m r1) (groups r1) greedy k (min + length (rest x) + 1) min max x
  end.

(** A match: where it starts, the text before it, the matched text, the
    captures, and the text after it. *)
Record rmatch : Type := RMatch {
  m_index : nat;
  m_before : text;
  m_text : text;
  m_caps : list (nat * text);
  m_after : text
}.

Definition match_at (r : re) (p : option char) (s : text) : option mstate :=
  m r (MState p s []) (fun y => Some y).

Definition mk_match (before_rev : text) (s : text) (y : mstate) : rmatch :=
  RMatch (length before_rev) (rev before_rev)
         (firstn (length s - length (rest y)) s) (caps y) (rest y).

Definition last_of (before_rev : text) : option char := hd_error before_rev.

(** RegExpBuiltinExec without the sticky flag: the first position, from the
    current one on, at which the pattern matches. *)
Fixpoint search_from (r : re) (before_rev : text) (s : text) : option rmatch :=
  match match_at r (last_of before_rev) s with
  | Some y => Some (mk_match before_rev s y)
  | None =>
      match s with
      | [] => None
      | c :: t => search_from r (c :: before_rev) t
      end
  end.

Definition search (r : re) (s : text) : option rmatch := search_from r [] s.

(** [re.test(s)] and [s.match(re)] used as a condition. *)
Definition test (r : re) (s : text) : bool :=
  match search r s with Some _ => true | None => false end.

(** All matches of a global pattern, as [matchAll] and the global [replace]
    enumerate them: after a match the search resumes at its end, one code
    unit further when the match is empty.  [skip] counts the code units of
    the last match still to pass over. *)
Fixpoint match_all_from (r : re) (before_rev : text) (skip : nat) (s : text)
    : list rmatch :=
  match skip with
  | S n =>
      match s with
      | [] => []
      | c :: t => match_all_from r (c :: before_rev) n t
      end
  | O =>
      match match_at r (last_of before_rev) s with
      | Some y =>
          let mt := mk_match before_rev s y in
          mt :: match s with
                | [] => []
                | c :: t =>
                    match_all_from r (c :: before_rev) (pred (length (m_text mt))) t
                end
      | None =>
          match s with
          | [] => []
          | c :: t => match_all_from r (c :: before_rev) 0 t
          end
      end
  end.

Definition match_all (r : re) (s : text) : list rmatch := match_all_from r [] 0 s.

(** [s.replace(re, f)] for a global pattern and a replacer function. *)
Fixpoint replace_from (r : re) (f : rmatch -> text) (before_rev : text)
    (skip : nat) (s : text) : text :=
  match skip with
  | S n =>
      match s with
      | [] => []
      | c :: t => replace_from r f (c :: before_rev) n t
      end
  | O =>
      match match_at r (last_of before_rev) s with
      | Some y =>
          let mt := mk_match before_rev s y in
          f mt ++
          match s with
          | [] => []
          | c :: t =>
              match length (m_text mt) with
              | O => c :: replace_from r f (c :: before_rev) 0 t
              | S n => replace_from r f (c :: before_rev) n t
              end
          end
      | None =>
          match s with
          | [] => []
          | c :: t => c :: replace_from r f (c :: before_rev) 0 t
          end
      end
  end.

Definition replace_fn (r : re) (f : rmatch -> text) (s : text) : text :=
  replace_from r f [] 0 s.

Definition cap (mt : rmatch) (n : nat) : text :=
  match find (fun p => Nat.eqb (fst p) n) (m_caps mt) with
  | Some p => snd p
  | None => []
  end.

Definition digit_val (c : char) : nat := N.to_nat (c - 48).

(** GetSubstitution: [$$], [$&], [$`], [$'], [$n] and [$nn] in a replacement
    template, for a pattern with [ng] capturing groups. *)
Fixpoint subst (ng : nat) (skip : nat) (tpl : text) (mt : rmatch) : text :=
  match tpl with
  | [] => []
  | c :: t =>
      match skip with
      | S n => subst ng n t mt
      | O =>
          if isc c "$" then
            match t with
            | d :: t1 =>
                if isc d "$" then d :: subst ng 1 t mt
                else if isc d "&" then m_text mt ++ subst ng 1 t mt
                else if N.eqb d 96 then m_before mt ++ subst ng 1 t mt
                else if isc d "'" then m_after mt ++ subst ng 1 t mt
                else if is_digit d then
                  let one := digit_val d in
                  let two :=
                    match t1 with
                    | e :: _ =>
                        if is_digit e then 10 * digit_val d + digit_val e else 0
                    | [] => 0
                    end in
                  if (Nat.leb 1 two && Nat.leb two ng)%bool
                  then cap mt two ++ subst ng 2 t mt
                  else if (Nat.leb 1 one && Nat.leb one ng)%bool
                  then cap mt one ++ subst ng 1 t mt
                  else c :: subst ng 0 t mt
                else c :: subst ng 0 t mt
            | [] => [c]
            end
          else c :: subst ng 0 t mt
      end
  end.

(** [s.replace(re, template)] for a global pattern. *)
Definition replace_all (r : re) (tpl : text) (s : text) : text :=
  replace_fn r (subst (length (groups r)) 0 tpl) s.

(** [s.replace(re, template)] for a pattern without the g flag: the first
    match only. *)
Definition replace_first (r : re) (tpl : text) (s : text) : text :=
  match search r s with
  | Some mt => m_before mt ++ subst (length (groups r)) 0 tpl mt ++ m_after mt
  | None => s
  end.

(** Pattern shorthands. *)
Definition star (r : re) : re := Rep 0 None true r.
Definition plus (r : re) : re := Rep 1 None true r.
Definition opt (r : re) : re := Rep 0 (Some 1) true r.
Definition lazy_star (r : re) : re := Rep 0 None false r.
Definition times (n : nat) (r : re) : re := Rep n (Some n) true r.

Fixpoint seqs (rs : list re) : re :=
  match rs with
  | [] => Eps
  | [r] => r
  | r :: rs' => Seq r (seqs rs')
  end.

Fixpoint lit (s : string) : re :=
  match s with
  | EmptyString => Eps
  | String a EmptyString => Chr a
  | String a s' => Seq (Chr a) (lit s')
  end.

Definition ws : re := Class false [Cs].          (* \s *)
Definition word : re := Class false [Cw].        (* \w *)
Definition hexdigit : re := Class false [CR "0" "9"; CR "A" "F"; CR "a" "f"].

(* ================================================================== *)
(** ** The strict parser: [JSON.parse]

    [JSON.parse] belongs to the language, not to the repository.  It is
    modelled by the JSON grammar: a tokenizer and a pushdown recognizer that
    builds the value.  A number is held as the exact decimal its literal
    denotes (the double that [JSON.parse] returns is a function of it), an
    object as its members in source order. *)

Record jnum : Type := JNum { neg : bool; mant : N; exp10 : Z }.

Inductive value : Type :=
| JNull
| JBool (b : bool)
| JNumber (n : jnum)
| JString (s : text)
| JArray (l : list value)
| JObject (l : list (text * value)).

Inductive token : Type :=
| TLBrace | TRBrace | TLBrack | TRBrack | TColon | TComma
| TString (s : text) | TNumber (n : jnum) | TTrue | TFalse | TNull.

(** JSON whitespace: space, tab, line feed, carriage return. *)
Definition json_ws (c : char) : bool :=
  (N.eqb c 32 || N.eqb c 9 || N.eqb c 10 || N.eqb c 13)%bool.

Definition hex_val (c : char) : option N :=
  if is_digit c then Some (c - 48)%N
  else if in_range 65 70 c then Some (c - 55)%N
  else if in_range 97 102 c then Some (c - 87)%N
  else None.

Definition hex4 (a b c d : char) : option N :=
  match hex_val a, hex_val b, hex_val c, hex_val d with
  | Some x, Some y, Some z, Some w => Some (((x * 16 + y) * 16 + z) * 16 + w)%N
  | _, _, _, _ => None
  end.

Definition simple_escape (e : char) : option char :=
  if isc e "`" then Some 34%N
  else if isc e "\" then Some 92%N
  else if isc e "/" then Some 47%N
  else if isc e "b" then Some 8%N
  else if isc e "f" then Some 12%N
  else if isc e "n" then Some 10%N
  else if isc e "r" then Some 13%N
  else if isc e "t" then Some 9%N
  else None.

Definition consr (c : char) (n : nat) (r : option (text * nat))
    : option (text * nat) :=
  match r with Some (s, k) => Some (c :: s, n + k) | None => None end.

(** The string literal whose opening quote has been read: its value and the
    number of code units up to and including the closing quote. *)
Fixpoint lex_string (s : text) : option (text * nat) :=
  match s with
  | [] => None
  | c :: t =>
      if isc c "`" then Some ([], 1)
      else if isc c "\" then
        match t with
        | e :: t' =>
            if isc e "u" then
              match t' with
              | h1 :: h2 :: h3 :: h4 :: t'' =>
                  match hex4 h1 h2 h3 h4 with
                  | Some u => consr u 6 (lex_string t'')
                  | None => None
                  end
              | _ => None
              end
            else
              match simple_escape e with
              | Some u => consr u 2 (lex_string t')
              | None => None
              end
        | [] => None
        end
      else if N.ltb c 32 then None
      else consr c 1 (lex_string t)
  end.

Fixpoint span_digits (s : text) : text * text :=
  match s with
  | c :: t =>
      if is_digit c then let (d, r) := span_digits t in (c :: d, r)
      else ([], s)
  | [] => ([], [])
  end.

Definition digits_val (ds : text) : N :=
  fold_left (fun acc d => (acc * 10 + (d - 48))%N) ds 0%N.

Fixpoint strip_zeros (fuel : nat) (mn : N) (e : Z) : N * Z :=
  match fuel with
  | O => (mn, e)
  | S f =>
      if N.eqb mn 0 then (0%N, 0%Z)
      else if N.eqb (mn mod 10) 0 then strip_zeros f (mn / 10)%N (e + 1)%Z
      else (mn, e)
  end.

Definition mk_num (ng : bool) (ip fp : text) (e : Z) : jnum :=
  let (mn, e') := strip_zeros (S (length ip + length fp))
                    (digits_val (ip ++ fp)) (e - Z.of_nat (length fp))%Z in
  JNum ng mn e'.

(** A number literal at the head of [s]: an optional minus sign, an integer
    part (a single 0, or a nonzero digit and further digits), an optional
    fraction (a dot and one or more digits), an optional exponent (e or E, an
    optional sign, one or more digits); the longest such prefix, with its
    length.  Each stage returns what it read and the text after it. *)
Definition lex_sign (s : text) : bool * text :=
  match s with
  | c :: t => if isc c "-" then (true, t) else (false, s)
  | [] => (false, s)
  end.

Definition lex_int (s : text) : text * text :=
  match s with
  | c :: t => if isc c "0" then ([c], t) else span_digits s
  | [] => ([], [])
  end.

Definition lex_frac (s : text) : text * text :=
  match s with
  | c :: t =>
      if isc c "." then
        match span_digits t with
        | ([], _) => ([], s)
        | (d, r) => (d, r)
        end
      else ([], s)
  | [] => ([], s)
  end.

Definition lex_exp_sign (t : text) : Z * text :=
  match t with
  | g :: t' =>
      if isc g "-" then ((-1)%Z, t')
      else if isc g "+" then (1%Z, t')
      else (1%Z, t)
  | [] => (1%Z, t)
  end.

Definition lex_exp (s : text) : Z * text :=
  match s with
  | c :: t =>
      if (isc c "e" || isc c "E")%bool then
        let (sg, t1) := lex_exp_sign t in
        match span_digits t1 with
        | ([], _) => (0%Z, s)
        | (d, r) => ((sg * Z.of_N (digits_val d))%Z, r)
        end
      else (0%Z, s)
  | [] => (0%Z, s)
  end.

Definition lex_number (s : text) : option (jnum * nat) :=
  let (ng, s1) := lex_sign s in
  let (ip, s2) := lex_int s1 in
  match ip with
  | [] => None
  | _ :: _ =>
      let (fp, s3) := lex_frac s2 in
      let (ev, s4) := lex_exp s3 in
      Some (mk_num ng ip fp ev, length s - length s4)
  end.

(** The token at the head of [s] and its length. *)
Definition lex1 (s : text) : option (token * nat) :=
  match s with
  | [] => None
  | c :: t =>
      if isc c "{" then Some (TLBrace, 1)
      else if isc c "}" then Some (TRBrace, 1)
      else if isc c "[" then Some (TLBrack, 1)
      else if isc c "]" then Some (TRBrack, 1)
      else if isc c ":" then Some (TColon, 1)
      else if isc c "," then Some (TComma, 1)
      else if isc c "`" then
        match lex_string t with
        | Some (v, n) => Some (TString v, S n)
        | None => None
        end
      else if starts_with (js "true") s then Some (TTrue, 4)
      else if starts_with (js "false") s then Some (TFalse, 5)
      else if starts_with (js "null") s then Some (TNull, 4)
      else
        match lex_number s with
        | Some (v, n) => Some (TNumber v, n)
        | None => None
        end
  end.

(** The tokens of a text; [skip] counts the code units of the last token
    still to pass over. *)
Fixpoint tokens (skip : nat) (s : text) : option (list token) :=
  match s with
  | [] => Some []
  | c :: t =>
      match skip with
      | S n => tokens n t
      | O =>
          if json_ws c then tokens 0 t
          else
            match lex1 s with
            | Some (tok, n) =>
                match tokens (pred n) t with
                | Some ts => Some (tok :: ts)
                | None => None
                end
            | None => None
            end
      end
  end.

Inductive frame : Type :=
| FArr (acc : list value)
| FObj (acc : list (text * value)) (key : text).

Inductive mode : Type :=
| MValue            (* a value is expected *)
| MValueOrClose     (* after [: a value or ] *)
| MKeyOrClose       (* after {: a key or } *)
| MKey              (* after , in an object: a key *)
| MColon            (* after a key: the colon *)
| MAfter (v : value). (* a value is complete *)

Definition scalar (t : token) : option value :=
  match t with
  | TString s => Some (JString s)
  | TNumber n => Some (JNumber n)
  | TTrue => Some (JBool true)
  | TFalse => Some (JBool false)
  | TNull => Some JNull
  | _ => None
  end.

Definition expect_value (st : list frame) (t : token)
    : option (list frame * mode) :=
  match t with
  | TLBrack => Some (FArr [] :: st, MValueOrClose)
  | TLBrace => Some (FObj [] [] :: st, MKeyOrClose)
  | _ => match scalar t with
         | Some v => Some (st, MAfter v)
         | None => None
         end
  end.

Definition expect_key (st : list frame) (t : token)
    : option (list frame * mode) :=
  match t, st with
  | TString k, FObj acc _ :: st' => Some (FObj acc k :: st', MColon)
  | _, _ => None
  end.

Definition pstep (cfg : list frame * mode) (t : token)
    : option (list frame * mode) :=
  let (st, md) := cfg in
  match md with
  | MValue => expect_value st t
  | MValueOrClose =>
      match t, st with
      | TRBrack, FArr _ :: st' => Some (st', MAfter (JArray []))
      | _, _ => expect_value st t
      end
  | MKeyOrClose =>
      match t, st with
      | TRBrace, FObj _ _ :: st' => Some (st', MAfter (JObject []))
      | _, _ => expect_key st t
      end
  | MKey => expect_key st t
  | MColon => match t with TColon => Some (st, MValue) | _ => None end
  | MAfter v =>
      match st, t with
      | FArr acc :: st', TComma => Some (FArr (v :: acc) :: st', MValue)
      | FArr acc :: st', TRBrack => Some (st', MAfter (JArray (rev (v :: acc))))
      | FObj acc k :: st', TComma => Some (FObj ((k, v) :: acc) k :: st', MKey)
      | FObj acc k :: st', TRBrace =>
          Some (st', MAfter (JObject (rev ((k, v) :: acc))))
      | _, _ => None
      end
  end.

Fixpoint prun (cfg : list frame * mode) (ts : list token)
    : option (list frame * mode) :=
  match ts with
  | [] => Some cfg
  | t :: ts' =>
      match pstep cfg t with
      | Some cfg' => prun cfg' ts'
      | None => None
      end
  end.

(** [JSON.parse(s)]: [Some v] when it returns [v], [None] when it throws a
    SyntaxError. *)
Definition JSON_parse (s : text) : option value :=
  match tokens 0 s with
  | Some ts =>
      match prun ([], MValue) ts with
      | Some ([], MAfter v) => Some v
      | _ => None
      end
  | None => None
  end.

(* ================================================================== *)
(** ** Numbers to strings: [parseInt(hex, 16).toString()]

    [parseInt] rounds the integer the digits denote to the nearest double
    (ties to even); [Number.prototype.toString] prints the shortest decimal
    that rounds back to it, in exponent form from 1e21 on. *)

Fixpoint uint_text (u : Decimal.uint) : text :=
  match u with
  | Decimal.Nil => []
  | Decimal.D0 u' => 48%N :: uint_text u'
  | Decimal.D1 u' => 49%N :: uint_text u'
  | Decimal.D2 u' => 50%N :: uint_text u'
  | Decimal.D3 u' => 51%N :: uint_text u'
  | Decimal.D4 u' => 52%N :: uint_text u'
  | Decimal.D5 u' => 53%N :: uint_text u'
  | Decimal.D6 u' => 54%N :: uint_text u'
  | Decimal.D7 u' => 55%N :: uint_text u'
  | Decimal.D8 u' => 56%N :: uint_text u'
  | Decimal.D9 u' => 57%N :: uint_text u'
  end.

Definition dec (n : N) : text := uint_text (N.to_uint n).

(** The double nearest to the integer [v]; [None] is Infinity. *)
Definition round_double (v : N) : option N :=
  if N.ltb v (2 ^ 53) then Some v
  else
    let e := (N.log2 v - 52)%N in
    let q := N.shiftr v e in
    let r := (v - N.shiftl q e)%N in
    let half := N.shiftl 1 (e - 1) in
    let q' := if (N.ltb half r || (N.eqb r half && N.odd q))%bool
              then (q + 1)%N else q in
    let x := N.shiftl q' e in
    if N.leb (2 ^ 1024) x then None else Some x.

Definition rounds_to (x v : N) : bool :=
  match round_double v with Some y => N.eqb x y | None => false end.

(** The least [k] and its [s], [n] with [s * 10^(n-k)] rounding to [x];
    [j] bounds the search ([k = nd] always succeeds, with [s = x]). *)
Fixpoint shortest (j k nd : nat) (x : N) : N * nat * nat :=
  match j with
  | O => (x, nd, nd)
  | S j' =>
      let p := (10 ^ N.of_nat (nd - k))%N in
      let s := (x / p)%N in
      let lo := (s * p)%N in
      let hi := ((s + 1) * p)%N in
      let pick (s' : N) :=
        if N.eqb s' (10 ^ N.of_nat k) then ((10 ^ N.of_nat (k - 1))%N, k, S nd)
        else (s', k, nd) in
      match rounds_to x lo, rounds_to x hi with
      | true, true =>
          let dl := (x - lo)%N in
          let dh := (hi - x)%N in
          if N.ltb dl dh then pick s
          else if N.ltb dh dl then pick (s + 1)%N
          else if N.even s then pick s else pick (s + 1)%N
      | true, false => pick s
      | false, true => pick (s + 1)%N
      | false, false => shortest j' (S k) nd x
      end
  end.

Definition number_to_string (v : N) : text :=
  match round_double v with
  | None => js "Infinity"
  | Some x =>
      if N.eqb x 0 then js "0"
      else
        let nd := length (dec x) in
        let '(s, k, n) := shortest nd 1 nd x in
        let ds := dec s in
        if Nat.leb n 21 then ds ++ repeat 48%N (n - k)
        else
          match ds with
          | [] => []
          | d :: tl =>
              (d :: match tl with [] => [] | _ :: _ => code "." :: tl end)
              ++ js "e+" ++ dec (N.of_nat (n - 1))
          end
  end.

Definition hex_digit_val (c : char) : N :=
  match hex_val c with Some v => v | None => 0%N end.

(** [parseInt(hex, 16)] on a nonempty run of hexadecimal digits, before
    rounding. *)
Definition parse_hex (hex : text) : N :=
  fold_left (fun acc d => (acc * 16 + hex_digit_val d)%N) hex 0%N.

(* ================================================================== *)
(** ** Results and errors *)

Inductive FixType : Type := quote | comma | bracket | whitespace | other.

Record FixReport : Type := mkFix {
  type : FixType;
  description : string;
  position : nat * nat;         (* start, end *)
  original : text;
  fixed : text
}.

(** The error values that reach a result.  The message of a SyntaxError is
    the engine's.  The base class copies the [cause] option only when the
    fresh error object already has a [cause] property, which it never has:
    no error of the library carries its cause. *)
Inductive jserror : Type :=
| SyntaxError (input : text)          (* thrown by JSON.parse(input) *)
| JsError (message : string)          (* new Error(message) *)
| JSONParseError (message : string)   (* new JSONParseError(message, options) *)
| FromNativeError (e : jserror) (input : text).
                                      (* JSONParseError.fromNativeError(e, input):
                                         message, position, context and
                                         suggestions derived from e and input *)

Record ParseResult : Type := mkParse {
  p_success : bool;
  p_data : option value;
  p_error : option jserror
}.

Record FixResult : Type := mkResult {
  success : bool;
  data : option text;
  error : option jserror;
  fixes : list FixReport
}.

(** A computation of the source either returns or throws. *)
Inductive completion (A : Type) : Type :=
| Normal (a : A)
| Throw (e : jserror).
Arguments Normal {A} a.
Arguments Throw {A} e.

(** [JSONMan.parse] without options; [Parser.safe] succeeds on the same
    inputs. *)
Definition parse (jsonString : text) : ParseResult :=
  match JSON_parse jsonString with
  | Some v => mkParse true (Some v) None
  | None =>
      mkParse false None
        (Some (FromNativeError (SyntaxError jsonString) jsonString))
  end.

(** [fixes.push({ type, description, position: {start: 0, end:
    result.length}, original, fixed: result })] *)
Definition push (fixes : list FixReport) (ty : FixType) (d : string)
    (orig result : text) : list FixReport :=
  fixes ++ [mkFix ty d (0, length result) orig result].

(* ================================================================== *)
(** ** The passes of [JSONMan.fix] *)

(** [/\/\*[\s\S]*?\*\//g] *)
Definition multiLinePattern : re :=
  seqs [Chr "/"; Chr "*"; lazy_star (Class false [Cs; CS]); Chr "*"; Chr "/"].

(** The loop over one line of [removeComments]: the index of a [//] outside
    a string, looking at positions [0 .. length - 2]. *)
Fixpoint line_comment_at (inString escaped : bool) (i : nat) (line : text)
    : option nat :=
  match line with
  | c :: ((c2 :: _) as t) =>
      if escaped then line_comment_at inString false (S i) t
      else if isc c "\" then line_comment_at inString true (S i) t
      else
        let inString' := if isc c "`" then negb inString else inString in
        if (negb inString' && isc c "/" && isc c2 "/")%bool then Some i
        else line_comment_at inString' false (S i) t
  | _ => None
  end.

Definition strip_line_comment (line : text) : text :=
  match line_comment_at false false 0 line with
  | Some i => trim (slice line 0 i)
  | None => line
  end.

Definition removeComments (t : text) (fixes : list FixReport)
    : text * list FixReport :=
  let '(r1, ch1) :=
    if test multiLinePattern t
    then (replace_all multiLinePattern (js " ") t, true)
    else (t, false) in
  let cleanedResult := join [NL] (map strip_line_comment (split_on NL r1)) in
  let '(r2, ch2) :=
    if negb (text_eqb cleanedResult r1) then (cleanedResult, true)
    else (r1, ch1) in
  if ch2 then (r2, push fixes other "Removed comments" t r2)
  else (r2, fixes).

(** [/\bNone\b/g] and its siblings, with their replacements. *)
Definition literalReplacements : list (re * text) :=
  [ (seqs [WordB; lit "None"; WordB], js "null");
    (seqs [WordB; lit "undefined"; WordB], js "null");
    (seqs [WordB; lit "NULL"; WordB], js "null");
    (seqs [WordB; lit "True"; WordB], js "true");
    (seqs [WordB; lit "False"; WordB], js "false") ].

Definition convertLiterals (t : text) (fixes : list FixReport)
    : text * list FixReport :=
  let '(result, hasChanges) :=
    fold_left
      (fun (st : text * bool) (pr : re * text) =>
         let (result, hasChanges) := st in
         if test (fst pr) result
         then (replace_all (fst pr) (snd pr) result, true)
         else (result, hasChanges))
      literalReplacements (t, false) in
  if hasChanges
  then (result, push fixes other "Converted literals to JSON format" t result)
  else (result, fixes).

(** [/\b0x([0-9A-Fa-f]+)\b/g] *)
Definition hexPattern : re :=
  seqs [WordB; Chr "0"; Chr "x"; Group 1 (plus hexdigit); WordB].

Definition convertHexNumbers (t : text) (fixes : list FixReport)
    : text * list FixReport :=
  let result :=
    replace_fn hexPattern
      (fun mt => number_to_string (parse_hex (cap mt 1))) t in
  let hasChanges := test hexPattern t in
  if hasChanges
  then (result, push fixes other "Converted hex numbers to decimal" t result)
  else (result, fixes).

(** The inner loop of [fixSingleQuotes], from [j = i + 1]: the content up
    to the closing quote and the number of code units passed, the closing
    quote included; [None] when the end is reached first. *)
Fixpoint scan_single (s : text) : option (text * nat) :=
  match s with
  | [] => None
  | c :: t =>
      if isc c "'" then Some ([], 1)
      else if isc c "\" then
        match t with
        | c2 :: t2 =>
            match scan_single t2 with
            | Some (content, n) => Some (c :: c2 :: content, 2 + n)
            | None => None
            end
        | [] => None
        end
      else consr c 1 (scan_single t)
  end.

(** The outer loop: [newResult] and [hasChanges]. *)
Fixpoint single_quotes_loop (skip : nat) (s : text) : text * bool :=
  match s with
  | [] => ([], false)
  | c :: t =>
      match skip with
      | S n => single_quotes_loop n t
      | O =>
          if isc c "'" then
            match scan_single t with
            | Some (content, n) =>
                (DQ :: content ++ DQ :: fst (single_quotes_loop n t), true)
            | None =>
                let (r, h) := single_quotes_loop 0 t in (c :: r, h)
            end
          else let (r, h) := single_quotes_loop 0 t in (c :: r, h)
      end
  end.

Definition fixSingleQuotes (t : text) (fixes : list FixReport)
    : text * list FixReport :=
  let (newResult, hasChanges) := single_quotes_loop 0 t in
  if hasChanges
  then (newResult,
        push fixes quote "Converted single quotes to double quotes" t newResult)
  else (t, fixes).

Definition not_quote_bsl : re := Class true [CI "`"; CI "\"].   (* [^`\\] *)

(** [/`([^`\\]* )`(\s* )([^`\\]+)`(\s* )([^`\\]* )`(?=\s*[,}\]])/g] *)
Definition problematicQuotePattern : re :=
  seqs [Chr "`"; Group 1 (star not_quote_bsl); Chr "`"; Group 2 (star ws);
        Group 3 (plus not_quote_bsl); Chr "`"; Group 4 (star ws);
        Group 5 (star not_quote_bsl); Chr "`";
        Look (Seq (star ws) (Class false [CI ","; CI "}"; CI "]"]))].

Definition middle_is_quoted_text (mt : rmatch) : bool :=
  let middle := cap mt 3 in
  (Nat.ltb 0 (length (trim middle))
   && negb (includes (js ":") middle)
   && negb (includes (js "{") middle)
   && negb (includes (js "[") middle))%bool.

Definition fixUnescapedQuotes (t : text) (fixes : list FixReport)
    : text * list FixReport :=
  let result :=
    replace_fn problematicQuotePattern
      (fun mt =>
         if middle_is_quoted_text mt
         then js "`" ++ cap mt 1 ++ cap mt 2 ++ js "\`" ++ cap mt 3
              ++ js "\`" ++ cap mt 4 ++ cap mt 5 ++ js "`"
         else m_text mt) t in
  let hasChanges :=
    existsb middle_is_quoted_text (match_all problematicQuotePattern t) in
  if hasChanges
  then (result, push fixes quote "Fixed unescaped quotes in string values" t result)
  else (result, fixes).

(** [/\\x[0-9A-Fa-f]{2}/g] and [/\\u[0-9A-Fa-f]{4}/g] *)
Definition hexEscape : re := seqs [Chr "\"; Chr "x"; times 2 hexdigit].
Definition unicodeEscape : re := seqs [Chr "\"; Chr "u"; times 4 hexdigit].

Definition fixEscapeSequences (t : text) (fixes : list FixReport)
    : text * list FixReport :=
  let r1 := replace_all hexEscape [] t in
  let hasChanges := negb (text_eqb r1 t) in
  let result :=
    replace_fn unicodeEscape
      (fun mt =>
         match JSON_parse (js "`" ++ m_text mt ++ js "`") with
         | Some (JString s) => s
         | Some _ => m_text mt
         | None => []
         end) r1 in
  if hasChanges
  then (result, push fixes other "Fixed invalid escape sequences" t result)
  else (result, fixes).

(** [/`([^`\\]*(\\.[^`\\]* )* )`/g] *)
Definition stringPattern : re :=
  seqs [Chr "`";
        Group 1 (Seq (star not_quote_bsl)
                     (star (Group 2 (seqs [Chr "\"; Any; star not_quote_bsl]))));
        Chr "`"].

(** The callback of [unescapeStringifiedJSON]: the unescaped content when
    it is to replace the literal.  [this.parse] returns a result and never
    throws, so the handler that would retry with a recursive [fix] is never
    entered. *)
Definition unescape_candidate (mt : rmatch) : option text :=
  let content := cap mt 1 in
  if (includes (js "\`") content
      && (includes (js "{") content || includes (js "[") content))%bool
  then
    let unescaped :=
      replace_all (Seq (Chr "\") (Chr "\")) (js "\")
        (replace_all (Seq (Chr "\") (Chr "`")) (js "`") content) in
    if p_success (parse unescaped) then Some unescaped else None
  else None.

Definition is_some {A} (o : option A) : bool :=
  match o with Some _ => true | None => false end.

Fixpoint unescape_loop (maxIterations : nat) (result : text)
    (hasChanges : bool) : text * bool :=
  match maxIterations with
  | O => (result, hasChanges)
  | S n =>
      let result' :=
        replace_fn stringPattern
          (fun mt => match unescape_candidate mt with
                     | Some u => u
                     | None => m_text mt
                     end) result in
      let iterationChanges :=
        existsb (fun mt => is_some (unescape_candidate mt))
                (match_all stringPattern result) in
      if iterationChanges then unescape_loop n result' true
      else (result', hasChanges)
  end.

Definition unescapeStringifiedJSON (t : text) (fixes : list FixReport)
    : text * list FixReport :=
  let (result, hasChanges) := unescape_loop 10 t false in
  if hasChanges
  then (result, push fixes other "Unescaped stringified JSON" t result)
  else (result, fixes).

Definition not_quote : re := Class true [CI "`"].                (* [^`] *)
Definition quoted_word_colon : re :=                             (* `?\w+`?\s*: *)
  seqs [opt (Chr "`"); plus word; opt (Chr "`"); star ws; Chr ":"].

(** The ten replacements of [fixMissingCommas], in order. *)
Definition missingCommaRules : list (re * text) :=
  [ (* /`([^`]* )`(\s+)`([^`]+)`(\s* ):/g *)
    (seqs [Chr "`"; Group 1 (star not_quote); Chr "`"; Group 2 (plus ws);
           Chr "`"; Group 3 (plus not_quote); Chr "`"; Group 4 (star ws);
           Chr ":"],
     js "`$1`,$2`$3`$4:");
    (* /}(\s* )`([^`]+)`(\s* ):/g *)
    (seqs [Chr "}"; Group 1 (star ws); Chr "`"; Group 2 (plus not_quote);
           Chr "`"; Group 3 (star ws); Chr ":"],
     js "},$1`$2`$3:");
    (* /](\s* )`([^`]+)`(\s* ):/g *)
    (seqs [Chr "]"; Group 1 (star ws); Chr "`"; Group 2 (plus not_quote);
           Chr "`"; Group 3 (star ws); Chr ":"],
     js "],$1`$2`$3:");
    (* /(\w+)(\s+)(\w+)(\s* ):/g *)
    (seqs [Group 1 (plus word); Group 2 (plus ws); Group 3 (plus word);
           Group 4 (star ws); Chr ":"],
     js "$1,$2$3$4:");
    (* /(\d+|true|false|null)(\s+)(`?\w+`?\s*:)/g *)
    (seqs [Group 1 (Alt (plus (Class false [Cd]))
                        (Alt (lit "true") (Alt (lit "false") (lit "null"))));
           Group 2 (plus ws); Group 3 quoted_word_colon],
     js "$1,$2$3");
    (* /}(\s* ){/g *)
    (seqs [Chr "}"; Group 1 (star ws); Chr "{"], js "},$1{");
    (* /](\s* )\[/g *)
    (seqs [Chr "]"; Group 1 (star ws); Chr "["], js "],$1[");
    (* /}(\s* )\[/g *)
    (seqs [Chr "}"; Group 1 (star ws); Chr "["], js "},$1[");
    (* /](\s* ){/g *)
    (seqs [Chr "]"; Group 1 (star ws); Chr "{"], js "],$1{");
    (* /(`(?:[^`\\]|\\.)*`)(\s+)(`?\w+`?\s*:)/g *)
    (seqs [Group 1 (seqs [Chr "`";
                          star (Alt not_quote_bsl (Seq (Chr "\") Any));
                          Chr "`"]);
           Group 2 (plus ws); Group 3 quoted_word_colon],
     js "$1,$2$3") ].

Definition apply_rules (rules : list (re * text)) (t : text) : text :=
  fold_left (fun result pr => replace_all (fst pr) (snd pr) result) rules t.

Definition fixMissingCommas (t : text) (fixes : list FixReport)
    : text * list FixReport :=
  let result := apply_rules missingCommaRules t in
  if negb (text_eqb result t)
  then (result, push fixes comma "Added missing commas" t result)
  else (result, fixes).

Definition closer : re := Class false [CI "}"; CI "]"].          (* [}\]] *)

Definition trailingCommaRules : list (re * text) :=
  [ (* /,(\s*[}\]])/g *)
    (seqs [Chr ","; Group 1 (Seq (star ws) closer)], js "$1");
    (* /,(\s*\n\s*[}\]])/g *)
    (seqs [Chr ","; Group 1 (seqs [star ws; Class false [CI "010"]; star ws; closer])],
     js "$1") ].

Definition fixTrailingCommas (t : text) (fixes : list FixReport)
    : text * list FixReport :=
  let result := apply_rules trailingCommaRules t in
  if negb (text_eqb result t)
  then (result, push fixes comma "Removed trailing commas" t result)
  else (result, fixes).

Definition doubleCommaRules : list (re * text) :=
  [ (* /,(\s* ),/g *)
    (seqs [Chr ","; Group 1 (star ws); Chr ","], js ",");
    (* /\[(\s* ),/g *)
    (seqs [Chr "["; Group 1 (star ws); Chr ","], js "[");
    (* /,(\s* )\]/g *)
    (seqs [Chr ","; Group 1 (star ws); Chr "]"], js "]") ].

Definition fixDoubleCommas (t : text) (fixes : list FixReport)
    : text * list FixReport :=
  let result := apply_rules doubleCommaRules t in
  if negb (text_eqb result t)
  then (result, push fixes comma "Fixed double commas and empty slots" t result)
  else (result, fixes).

(** [/([{,]\s* )([a-zA-Z_$][a-zA-Z0-9_$]* )\s*:/g] *)
Definition unquotedKeyPattern : re :=
  seqs [Group 1 (Seq (Class false [CI "{"; CI ","]) (star ws));
        Group 2 (Seq (Class false [CR "a" "z"; CR "A" "Z"; CI "_"; CI "$"])
                     (star (Class false [CR "a" "z"; CR "A" "Z"; CR "0" "9";
                                         CI "_"; CI "$"])));
        star ws; Chr ":"].

Definition quoteUnquotedKeys (t : text) (fixes : list FixReport)
    : text * list FixReport :=
  let result := replace_all unquotedKeyPattern (js "$1`$2`:") t in
  if negb (text_eqb result t)
  then (result, push fixes quote "Quoted unquoted keys" t result)
  else (result, fixes).

Definition duplicateDelimiterRules : list (re * text) :=
  [ (lit "{{", js "{"); (lit "[[", js "["); (lit "}}", js "}");
    (lit "]]", js "]") ].

Definition fixDuplicateDelimiters (t : text) (fixes : list FixReport)
    : text * list FixReport :=
  let result := apply_rules duplicateDelimiterRules t in
  if negb (text_eqb result t)
  then (result, push fixes bracket "Fixed duplicate delimiters" t result)
  else (result, fixes).

(* ------------------------------------------------------------------ *)
(** *** Bracket balancing *)

(** [/[{,]\s*\w+\s*:\s*$/] *)
Definition danglingAssignment : re :=
  seqs [Class false [CI "{"; CI ","]; star ws; plus word; star ws; Chr ":";
        star ws; Eol].

(** [/,\s*$/] *)
Definition trailingComma : re := seqs [Chr ","; star ws; Eol].

(** The first scan of [balanceBrackets]: the stack of expected closers with
    the positions of their openers (top first), the string flags, and the
    corrections recorded, the last one first. *)
Record mismatch_state : Type := MS {
  ms_stack : list (char * nat);
  ms_inString : bool;
  ms_escaped : bool;
  ms_corrections : list (nat * char * char)     (* pos, from, to *)
}.

Definition mismatch_step (st : mismatch_state) (i : nat) (c : char)
    : mismatch_state :=
  if ms_escaped st
  then MS (ms_stack st) (ms_inString st) false (ms_corrections st)
  else if isc c "\"
  then MS (ms_stack st) (ms_inString st) true (ms_corrections st)
  else if isc c "`"
  then MS (ms_stack st) (negb (ms_inString st)) false (ms_corrections st)
  else if ms_inString st then st
  else if isc c "{"
  then MS ((code "}", i) :: ms_stack st) false false (ms_corrections st)
  else if isc c "["
  then MS ((code "]", i) :: ms_stack st) false false (ms_corrections st)
  else if (isc c "}" || isc c "]")%bool
  then
    match ms_stack st with
    | expected :: stack' =>
        if negb (N.eqb (fst expected) c)
        then MS stack' false false ((i, c, fst expected) :: ms_corrections st)
        else MS stack' false false (ms_corrections st)
    | [] => st
    end
  else st.

Fixpoint mismatch_scan (st : mismatch_state) (i : nat) (s : text)
    : mismatch_state :=
  match s with
  | [] => st
  | c :: t => mismatch_scan (mismatch_step st i c) (S i) t
  end.

(** [result.substring(0, pos) + to + result.substring(pos + 1)] *)
Definition apply_correction (result : text) (c : nat * char * char) : text :=
  let '(pos, _, to) := c in
  firstn pos result ++ to :: skipn (S pos) result.

(** The second scan: the closers still expected at the end, the innermost
    first. *)
Record open_state : Type := OS {
  openStack : list char;
  stringMode : bool;
  escapeNext : bool
}.

Definition open_step (st : open_state) (c : char) : open_state :=
  if escapeNext st then OS (openStack st) (stringMode st) false
  else if isc c "\" then OS (openStack st) (stringMode st) true
  else if isc c "`" then OS (openStack st) (negb (stringMode st)) false
  else if stringMode st then st
  else if isc c "{" then OS (code "}" :: openStack st) false false
  else if isc c "[" then OS (code "]" :: openStack st) false false
  else if (isc c "}" || isc c "]")%bool then OS (tl (openStack st)) false false
  else st.

Definition open_scan (st : open_state) (s : text) : open_state :=
  fold_left open_step s st.

Definition balanceBrackets (t : text) (fixes : list FixReport)
    : text * list FixReport :=
  let '(r1, h1) :=
    if ends_with (js ":") t then (t ++ js "null", true) else (t, false) in
  let '(r2, h2) :=
    if test danglingAssignment r1 then (r1 ++ js "null", true) else (r1, h1) in
  let '(r3, h3) :=
    if (includes (js "[") r2 && includes (js "}") r2)%bool
    then
      let corrections :=
        ms_corrections (mismatch_scan (MS [] false false []) 0 r2) in
      (fold_left apply_correction corrections r2,
       match corrections with [] => h2 | _ :: _ => true end)
    else (r2, h2) in
  let '(r4, h4) :=
    if (ends_with (js ",") r3 || test trailingComma r3)%bool
    then (replace_first trailingComma [] r3, true)
    else (r3, h3) in
  let closers := openStack (open_scan (OS [] false false) r4) in
  let '(r5, h5) :=
    match closers with
    | [] => (r4, h4)
    | _ :: _ => (r4 ++ closers, true)
    end in
  if h5
  then (r5, push fixes bracket
              "Balanced brackets and completed incomplete structures" t r5)
  else (r5, fixes).

(* ------------------------------------------------------------------ *)
(** *** Multiple roots *)

Record roots_state : Type := RS {
  braceCount : Z;
  start : nat;
  rs_inString : bool;
  rs_escaped : bool;
  objectSections : list (nat * nat)           (* start, end; last first *)
}.

Definition roots_step (st : roots_state) (i : nat) (c : char) : roots_state :=
  if rs_escaped st
  then RS (braceCount st) (start st) (rs_inString st) false (objectSections st)
  else if isc c "\"
  then RS (braceCount st) (start st) (rs_inString st) true (objectSections st)
  else if isc c "`"
  then RS (braceCount st) (start st) (negb (rs_inString st)) false
          (objectSections st)
  else if rs_inString st then st
  else if isc c "{"
  then RS (braceCount st + 1)
          (if Z.eqb (braceCount st) 0 then i else start st)
          false false (objectSections st)
  else if isc c "}"
  then RS (braceCount st - 1) (start st) false false
          (if Z.eqb (braceCount st - 1) 0
           then (start st, S i) :: objectSections st
           else objectSections st)
  else st.

Fixpoint roots_scan (st : roots_state) (i : nat) (s : text) : roots_state :=
  match s with
  | [] => st
  | c :: t => roots_scan (roots_step st i c) (S i) t
  end.

Definition bracketed (items : list text) : text :=
  js "[" ++ join (js ",") items ++ js "]".

Definition parses (s : text) : bool := p_success (parse s).

(** The lines of the CSV-style variant that are objects on their own. *)
Definition objectLines (trimmed : text) : list text :=
  filter (fun cleanLine =>
            (starts_with (js "{") cleanLine && ends_with (js "}") cleanLine
             && parses cleanLine)%bool)
         (map (fun line => replace_first (Seq (Chr ",") Eol) [] (trim line))
              (split_on NL trimmed)).

Definition handleMultipleRoots (t : text) (fixes : list FixReport)
    : text * list FixReport :=
  let trimmed := trim t in
  let sections :=
    rev (objectSections (roots_scan (RS 0 0 false false []) 0 trimmed)) in
  let validObjects :=
    filter parses
      (map (fun se => trim (slice trimmed (fst se) (snd se))) sections) in
  if (Nat.ltb 1 (length sections) && Nat.ltb 1 (length validObjects))%bool
  then
    let arrayResult := bracketed validObjects in
    (arrayResult,
     push fixes other "Converted multiple root objects to array" t arrayResult)
  else if (includes (code "}" :: NL :: js "{") trimmed
           || includes (js "}," ++ NL :: js "{") trimmed)%bool
  then
    let lines := objectLines trimmed in
    if Nat.ltb 1 (length lines)
    then
      let arrayResult := bracketed lines in
      (arrayResult,
       push fixes other "Converted CSV-style object rows to array" t arrayResult)
    else (t, fixes)
  else (t, fixes).

(** [/:\s*[`']?\s*$/] and [/[,:;]\s*$/] *)
Definition danglingColon : re :=
  seqs [Chr ":"; star ws; opt (Class false [CI "`"; CI "'"]); star ws; Eol].
Definition danglingPunct : re :=
  seqs [Class false [CI ","; CI ":"; CI ";"]; star ws; Eol].

Definition removeDanglingArtifacts (t : text) (fixes : list FixReport)
    : text * list FixReport :=
  let result := replace_first danglingPunct [] (replace_first danglingColon [] t) in
  if negb (text_eqb result t)
  then (result, push fixes other "Removed dangling artifacts" t result)
  else (result, fixes).

(* ------------------------------------------------------------------ *)
(** *** The last resort *)

Definition digit : re := Class false [Cd].
Definition exponentPart : re :=
  seqs [Class false [CI "e"; CI "E"]; opt (Class false [CI "+"; CI "-"]);
        plus digit].

(** StringNumericLiteral, the texts on which [Number(s)] is not NaN (the
    empty text, which converts to 0, apart): a signed decimal literal or
    Infinity, or an unsigned binary, octal or hexadecimal integer. *)
Definition strNumericLiteral : re :=
  Alt (seqs [opt (Class false [CI "+"; CI "-"]);
             Alt (lit "Infinity")
               (Alt (seqs [plus digit; Chr "."; star digit; opt exponentPart])
                  (Alt (seqs [Chr "."; plus digit; opt exponentPart])
                       (seqs [plus digit; opt exponentPart])));
             Eol])
   (Alt (seqs [Chr "0"; Class false [CI "x"; CI "X"]; plus hexdigit; Eol])
      (Alt (seqs [Chr "0"; Class false [CI "o"; CI "O"];
                  plus (Class false [CR "0" "7"]); Eol])
           (seqs [Chr "0"; Class false [CI "b"; CI "B"];
                  plus (Class false [CR "0" "1"]); Eol]))).

(** [!isNaN(Number(s))] *)
Definition is_numeric (s : text) : bool :=
  match trim s with
  | [] => true
  | c :: t => is_some (match_at strNumericLiteral None (c :: t))
  end.

Definition finalFixAttempt (t : text) : completion text :=
  let result := trim t in
  if (text_eqb result [] || text_eqb result (js "``"))%bool
  then Normal (js "null")
  else if (starts_with (js "//") result && negb (includes (js "{") result)
           && negb (includes (js "[") result))%bool
  then Normal (js "null")
  else
    let hasJsonStructure :=
      (includes (js "{") result || includes (js "[") result
       || includes (js ":") result || includes (js "`") result)%bool in
    if (negb hasJsonStructure
        && Nat.ltb 3 (length (split_on 32%N result)))%bool
    then Throw (JsError "Input appears to be plain text, not malformed JSON")
    else
      let trimmed := trim result in
      let bare :=
        if (negb (includes (js "{") result) && negb (includes (js "[") result)
            && negb (includes (js "`") result))%bool
        then
          if (text_eqb trimmed (js "true") || text_eqb trimmed (js "false")
              || text_eqb trimmed (js "null"))%bool
          then Some trimmed
          else if (is_numeric trimmed && negb (text_eqb trimmed []))%bool
          then Some trimmed
          else if (negb (text_eqb trimmed [])
                   && negb (includes (js " ") trimmed))%bool
          then Some (js "`" ++ trimmed ++ js "`")
          else None
        else None in
      match bare with
      | Some r => Normal r
      | None =>
          if (includes (js ":") result
              && negb (starts_with (js "{") (trim result))
              && negb (starts_with (js "[") (trim result)))%bool
          then Normal (js "{" ++ result ++ js "}")
          else if (includes (js "{") result && negb (includes (js "}") result))%bool
          then Normal (result ++ js "}")
          else if (includes (js "[") result && negb (includes (js "]") result))%bool
          then Normal (result ++ js "]")
          else Normal result
      end.

(* ------------------------------------------------------------------ *)
(** *** The orchestrator *)

(** Step 1 of [fix]. *)
Definition removeBOM (t : text) (fixes : list FixReport)
    : text * list FixReport :=
  match t with
  | c :: t' =>
      if N.eqb c BOM
      then (t', fixes ++ [mkFix other "Removed Unicode BOM" (0, 1) [c] []])
      else (t, fixes)
  | [] => (t, fixes)
  end.

Definition pass : Type := text -> list FixReport -> text * list FixReport.

(** Steps 1 to 16, in the order [fix] calls them. *)
Definition passes : list pass :=
  [ removeBOM; removeComments; convertLiterals; convertHexNumbers;
    fixDuplicateDelimiters; fixSingleQuotes; fixUnescapedQuotes;
    fixEscapeSequences; quoteUnquotedKeys; fixMissingCommas; fixDoubleCommas;
    fixTrailingCommas; balanceBrackets; handleMultipleRoots;
    removeDanglingArtifacts; unescapeStringifiedJSON ].

Definition run_passes (ps : list pass) (t : text) (fixes : list FixReport)
    : text * list FixReport :=
  fold_left (fun st (p : pass) => p (fst st) (snd st)) ps (t, fixes).

(** Steps 1 to 17: the passes, each on the output of the one before, then
    the final [trim]. *)
Definition pipeline (malformedJson : text) : text * list FixReport :=
  let (fixed, fixes) := run_passes passes malformedJson [] in
  (trim fixed, fixes).

(** The body of the [try] block of [fix]. *)
Definition fix_try (malformedJson : text) : completion FixResult :=
  let (fixed, fixes) := pipeline malformedJson in
  if p_success (parse fixed)
  then Normal (mkResult true (Some fixed) None fixes)
  else
    match finalFixAttempt fixed with
    | Throw e => Throw e
    | Normal finalAttempt =>
        if p_success (parse finalAttempt)
        then Normal (mkResult true (Some finalAttempt) None
                       (fixes ++ [mkFix other "Applied final recovery fixes"
                                    (0, length finalAttempt) fixed finalAttempt]))
        else Normal (mkResult false None
                       (Some (JSONParseError "Unable to fix JSON after all attempts"))
                       fixes)
    end.

Definition try_catch {A} (body : completion A) (handler : jserror -> completion A)
    : completion A :=
  match body with
  | Normal a => Normal a
  | Throw e => handler e
  end.

(** [JSONMan.fix] *)
Definition fix_ (malformedJson : text) : completion FixResult :=
  try_catch (fix_try malformedJson)
    (fun _ => Normal (mkResult false None
                        (Some (JSONParseError "Failed to fix JSON")) [])).

(* ================================================================== *)
(** ** The diagnostic reporter: [Parser.diagnose] *)

Record Finding : Type := mkFinding {
  f_type : string;
  f_message : string;
  f_suggestion : string
}.

Record Diagnosis : Type := mkDiagnosis {
  isValid : bool;
  errors : list Finding
}.

(** The catalogue [issues] of [diagnose]. *)
Definition issues : list (re * Finding) :=
  [ (* /'/g *)
    (Chr "'", mkFinding "quote" "Single quotes found" "Use double quotes instead");
    (* /,(\s*[}\]])/g *)
    (seqs [Chr ","; Group 1 (Seq (star ws) closer)],
     mkFinding "comma" "Trailing comma found" "Remove trailing commas");
    (* /([{,]\s* )([a-zA-Z_$][a-zA-Z0-9_$]* )\s*:/g *)
    (unquotedKeyPattern,
     mkFinding "key" "Unquoted key found" "Quote all object keys");
    (* /:\s*undefined/g *)
    (seqs [Chr ":"; star ws; lit "undefined"],
     mkFinding "value" "undefined value found" "Use null instead of undefined") ].

(** The findings of one catalogue entry: one per match. *)
Definition findings_of (jsonString : text) (issue : re * Finding) : list Finding :=
  map (fun _ => snd issue) (match_all (fst issue) jsonString).

(** [Parser.safe(input).success] *)
Definition safe_success (input : text) : bool := is_some (JSON_parse input).

Definition diagnose (jsonString : text) : Diagnosis :=
  if safe_success jsonString then mkDiagnosis true []
  else mkDiagnosis false (flat_map (findings_of jsonString) issues).

(* ================================================================== *)
(** ** Vocabulary of the statements *)

(** A JSON integer. *)
Definition num (n : N) : value := JNumber (JNum false n 0).

(** The outcome of the [catch] block of [fix]. *)
Definition caught_failure : FixResult :=
  mkResult false None (Some (JSONParseError "Failed to fix JSON")) [].

(** Openers and their closers: [true] for a brace, [false] for a bracket. *)
Definition opener (brace : bool) : char := if brace then code "{" else code "[".
Definition closer_of (brace : bool) : char := if brace then code "}" else code "]".

(** A structured result: a success, or a failure with an error and no
    data. *)
Definition well_shaped (r : FixResult) : Prop :=
  success r = true
  \/ (success r = false /\ data r = None /\ exists e, error r = Some e).

(** The findings of a given type. *)
Definition count_type (ty : string) (fs : list Finding) : nat :=
  length (filter (fun f => String.eqb (f_type f) ty) fs).

(** A character between the blank and the no-break space, both excluded:
    the printable ASCII characters among them. *)
Definition graphic (a : ascii) : Prop := (32 < code a < 160)%N.

(** The content of a string literal: code units other than the double quote
    and the backslash, and backslash escapes of one code unit. *)
Fixpoint string_body (s : text) : bool :=
  match s with
  | [] => true
  | c :: t =>
      if isc c "`" then false
      else if isc c "\" then
        match t with
        | _ :: t' => string_body t'
        | [] => false
        end
      else string_body t
  end.

(** [y] is at or after [x] in the text. *)
Definition below (x y : mstate) : Prop := exists p, rest x = p ++ rest y.

(** A matcher calls its continuation at or after the state it starts from. *)
Definition respects (mr : matcher) : Prop :=
  forall x k1 k2, (forall y, below x y -> k1 y = k2 y) -> mr x k1 = mr x k2.

(** Code units no pass keys on: what numbers and the literals [true],
    [false], [null] are made of, and the blank. *)
Definition inert_chars : text := js "0123456789+-. aeflnrstuE".
Definition inert (c : char) : bool := existsb (N.eqb c) inert_chars.
Definition inert_text (t : text) : Prop := Forall (fun c => inert c = true) t.

(** [needs r]: every match of [r] consumes a code unit that is not inert. *)
Fixpoint needs (r : re) : bool :=
  match r with
  | Chr a => negb (inert (code a))
  | Any => forallb is_line_terminator inert_chars
  | Class ng items =>
      forallb (fun c => negb (class_match ng items c)) inert_chars
  | Seq r1 r2 => (needs r1 || needs r2)%bool
  | Alt r1 r2 => (needs r1 && needs r2)%bool
  | Rep min max _ r1 =>
      (negb (Nat.eqb min 0) && negb (max_is_zero max) && needs r1)%bool
  | Group _ r1 => needs r1
  | Eps | Look _ | WordB | Eol => false
  end.

(** The first code unit of a text, if any, is not of [\s]. *)
Definition head_ok (t : text) : bool :=
  match t with [] => true | c :: _ => negb (is_space c) end.

(** A text that neither starts nor ends with a code unit of [\s]. *)
Definition trimmed (t : text) : bool := (head_ok t && head_ok (rev t))%bool.

(** What [fixSingleQuotes] may do to a code unit: keep it, or turn a single
    quote into a double quote. *)
Definition quote_swap (a b : char) : Prop :=
  b = a \/ (a = code "'" /\ b = DQ).

(* ================================================================== *)
(** ** Positions and context of a parse error (core/types.ts) *)

(** [getLineColumnFromIndex]: line and column, both from 1, of the code
    unit at [index]. *)
Definition getLineColumnFromIndex (input : text) (index : nat) : nat * nat :=
  let lines := split_on NL (slice input 0 index) in
  (length lines, length (last lines []) + 1).

(** The loop of [getIndexFromLineColumn]: the lengths, each plus one for
    the newline, of the first [n] lines. *)
Fixpoint line_offset (n : nat) (lines : list text) : nat :=
  match n, lines with
  | S n', l :: ls => length l + 1 + line_offset n' ls
  | _, _ => 0
  end.

(** [getIndexFromLineColumn]; [line - 1] bounds a loop that does not run
    when it is negative. *)
Definition getIndexFromLineColumn (input : text) (line column : nat) : Z :=
  (Z.of_nat (line_offset (line - 1) (split_on NL input))
   + Z.of_nat column - 1)%Z.

(** [extractContext(input, index, contextLength)];
    [Math.max(0, index - contextLength)] is the truncated subtraction. *)
Definition extractContext (input : text) (index contextLength : nat)
    : text * text * text :=
  let start := index - contextLength in
  let end_ := Nat.min (length input) (index + contextLength) in
  (slice input start index,
   match nth_error input index with Some c => [c] | None => js "EOF" end,
   slice input (index + 1) end_).

(** [generateParseSuggestions]; [toLowerCase] is the method of the
    language. *)
Definition generateParseSuggestions (toLowerCase : text -> text)
    (errorMessage input : text) : list string :=
  let lowerMessage := toLowerCase errorMessage in
  let suggestions :=
    (if includes (js "unexpected token") lowerMessage
     then ["Check for missing or extra commas, quotes, or brackets"%string;
           "Ensure all strings are properly quoted with double quotes"%string]
     else [])
    ++ (if includes (js "unexpected end") lowerMessage
        then ["Check for missing closing brackets or braces"%string;
              "Ensure the JSON is complete and not truncated"%string]
        else [])
    ++ (if (includes (js "quote") lowerMessage
            || includes (js "string") lowerMessage)%bool
        then ["Use double quotes for strings, not single quotes"%string;
              "Escape special characters in strings with backslashes"%string]
        else [])
    ++ (if includes (js "'") input
        then ["Replace single quotes with double quotes"%string]
        else [])
    ++ (if (includes (js ",}") input || includes (js ",]") input)%bool
        then ["Remove trailing commas before closing brackets"%string]
        else []) in
  match suggestions with
  | [] => ["Validate your JSON syntax using a JSON validator"%string;
           "Check the JSON specification at https://json.org"%string]
  | _ :: _ => suggestions
  end.

(* ================================================================== *)
(** ** The parser module: [Parser.safe], [typed], [multiple], [partial] *)

(** The errors of the module: [new JSONParseError(`JSON Parse Error: ` +
    message of the cause, { cause })] and the type mismatch of [typed]. *)
Inductive parser_error : Type :=
| SafeParseError (cause : jserror)
| TypeMismatch.   (* 'Parsed data does not match expected type' *)

Record SafeResult : Type := mkSafe {
  sr_success : bool;
  sr_data : option value;
  sr_error : option parser_error
}.

(** [Parser.safe(input)], without a reviver. *)
Definition safe (input : text) : SafeResult :=
  match JSON_parse input with
  | Some v => mkSafe true (Some v) None
  | None => mkSafe false None (Some (SafeParseError (SyntaxError input)))
  end.

(** [Parser.typed(input, validator)]; the validator is optional, and the
    data of a successful [safe] is never [undefined]. *)
Definition typed (input : text) (validator : option (value -> bool))
    : SafeResult :=
  let result := safe input in
  if negb (sr_success result) then result
  else
    match validator, sr_data result with
    | Some accepts, Some v =>
        if negb (accepts v) then mkSafe false None (Some TypeMismatch)
        else result
    | _, _ => result
    end.

Record MultipleResult : Type := mkMultiple {
  successful : nat;
  failed : nat;
  results : list SafeResult
}.

(** The lines kept by [input.split('\n').filter(line => line.trim())]. *)
Definition nonblank_lines (input : text) : list text :=
  filter (fun line => negb (text_eqb (trim line) [])) (split_on NL input).

(** One round of the loop of [multiple]. *)
Definition multiple_step (acc : MultipleResult) (line : text) : MultipleResult :=
  let result := safe line in
  if sr_success result
  then mkMultiple (S (successful acc)) (failed acc) (results acc ++ [result])
  else mkMultiple (successful acc) (S (failed acc)) (results acc ++ [result]).

(** [Parser.multiple(input)] *)
Definition multiple (input : text) : MultipleResult :=
  fold_left multiple_step (nonblank_lines input) (mkMultiple 0 0 []).

Record PartialResult : Type := mkPartial {
  pr_success : bool;
  pr_data : option value;
  isPartial : bool;
  completedString : option text;
  pr_error : option parser_error
}.

(** The completion strategies of [partial], on the trimmed input. *)
Definition complete (input : text) : text :=
  let completed := trim input in
  if (negb (ends_with (js "}") completed) && includes (js "{") completed)%bool
  then completed ++ js "}"
  else if (negb (ends_with (js "]") completed) && includes (js "[") completed)%bool
  then completed ++ js "]"
  else if (negb (ends_with (js "`") completed) && includes (js "`") completed
           && Nat.eqb (length (split_on DQ completed) mod 2) 0)%bool
  then completed ++ js "`"
  else completed.

(** [Parser.partial(input)] *)
Definition partial (input : text) : PartialResult :=
  let normalResult := safe input in
  if sr_success normalResult
  then mkPartial true (sr_data normalResult) false None None
  else
    let completed := complete input in
    let completedResult := safe completed in
    if sr_success completedResult
    then mkPartial true (sr_data completedResult) true (Some completed) None
    else mkPartial false None false None (sr_error normalResult).

(* ================================================================== *)
(** * Values as JavaScript objects: [JSONMan.compare]

    For the functions that walk a parsed value, [JObject es] is the object
    whose own properties are the members [es], in the order [Object.keys]
    lists them, and [JArray l] the dense array of the elements [l]. *)

(** [a < b] on strings: by code units, a proper prefix first.  It is the
    order of [Array.prototype.sort] without a comparator. *)
Fixpoint text_ltb (a b : text) : bool :=
  match a, b with
  | _, [] => false
  | [], _ :: _ => true
  | x :: a', y :: b' => ((x <? y)%N || ((x =? y)%N && text_ltb a' b'))%bool
  end.

Fixpoint insert_key (k : text) (l : list text) : list text :=
  match l with
  | [] => [k]
  | x :: l' => if text_ltb k x then k :: l else x :: insert_key k l'
  end.

(** [keys.sort()]: equal strings cannot be told apart, so every sorting
    algorithm returns this list. *)
Definition sort_keys (l : list text) : list text := fold_right insert_key [] l.

(** The keys of an array: its indices, printed in decimal. *)
Definition index_keys (n : nat) : list text :=
  map (fun i => dec (N.of_nat i)) (seq 0 n).

(** [Object.keys(v)] for an object or an array. *)
Definition Object_keys (v : value) : list text :=
  match v with
  | JObject es => map fst es
  | JArray l => index_keys (length l)
  | _ => []
  end.

(** [obj[key]] for an own key; [None] is [undefined]. *)
Fixpoint get_prop (es : list (text * value)) (key : text) : option value :=
  match es with
  | [] => None
  | (k, v) :: es' => if text_eqb k key then Some v else get_prop es' key
  end.

(** [arr[key]] for a key that prints an index: the element at the index from
    [i] on that prints as [key]. *)
Fixpoint get_index (l : list value) (i : nat) (key : text) : option value :=
  match l with
  | [] => None
  | v :: l' =>
      if text_eqb (dec (N.of_nat i)) key then Some v
      else get_index l' (S i) key
  end.

(** [v[key]], as [compare] uses it: [key] is one of [Object.keys(v)]. *)
Definition get (v : value) (key : text) : option value :=
  match v with
  | JObject es => get_prop es key
  | JArray l => get_index l 0 key
  | _ => None
  end.

Definition is_null (v : value) : bool :=
  match v with JNull => true | _ => false end.

(** [keys1.length !== keys2.length] and [keys1.some((key, i) => key !==
    keys2[i])], negated. *)
Fixpoint keys_agree (keys1 keys2 : list text) : bool :=
  match keys1, keys2 with
  | [], [] => true
  | k1 :: r1, k2 :: r2 => (text_eqb k1 k2 && keys_agree r1 r2)%bool
  | _, _ => false
  end.

Section Compare.

(** [x === y] on two numbers: the equality of the doubles they denote. *)
Variable num_eq : jnum -> jnum -> bool.

(** [obj1 === obj2].  The embedding passes values, not references: two
    containers are taken to be two objects, for which [===] is false. *)
Definition strict_equal (obj1 obj2 : value) : bool :=
  match obj1, obj2 with
  | JNull, JNull => true
  | JBool x, JBool y => Bool.eqb x y
  | JNumber x, JNumber y => num_eq x y
  | JString x, JString y => text_eqb x y
  | _, _ => false
  end.

(** [JSONMan.compare(obj1, obj2).equal].  The [try] block cannot throw on
    values.  Two arrays are walked by index; two containers of which one
    is no array by their sorted keys; [undefined], which arises only for a
    key that is missing, equals [undefined] alone. *)
Fixpoint compare (obj1 obj2 : value) {struct obj1} : bool :=
  if strict_equal obj1 obj2 then true
  else if (is_null obj1 || is_null obj2)%bool then false
  else
    match obj1 with
    | JArray l1 =>
        match obj2 with
        | JArray l2 =>
            if negb (length l1 =? length l2) then false
            else
              (fix elements (l1 l2 : list value) {struct l1} : bool :=
                 match l1, l2 with
                 | val1 :: r1, val2 :: r2 =>
                     if compare val1 val2 then elements r1 r2 else false
                 | _, _ => true
                 end) l1 l2
        | JObject _ =>
            let keys1 := sort_keys (Object_keys obj1) in
            let keys2 := sort_keys (Object_keys obj2) in
            if negb (keys_agree keys1 keys2) then false
            else
              forallb
                (fun key =>
                   (fix at_index (l : list value) (i : nat) {struct l}
                      : bool :=
                      match l with
                      | [] =>
                          match get obj2 key with
                          | None => true
                          | Some _ => false
                          end
                      | val1 :: l' =>
                          if text_eqb (dec (N.of_nat i)) key then
                            match get obj2 key with
                            | Some val2 => compare val1 val2
                            | None => false
                            end
                          else at_index l' (S i)
                      end) l1 0)
                keys1
        | _ => false
        end
    | JObject es1 =>
        match obj2 with
        | JArray _ | JObject _ =>
            let keys1 := sort_keys (Object_keys obj1) in
            let keys2 := sort_keys (Object_keys obj2) in
            if negb (keys_agree keys1 keys2) then false
            else
              forallb
                (fun key =>
                   (fix at_key (es : list (text * value)) {struct es}
                      : bool :=
                      match es with
                      | [] =>
                          match get obj2 key with
                          | None => true
                          | Some _ => false
                          end
                      | (k, val1) :: es' =>
                          if text_eqb k key then
                            match get obj2 key with
                            | Some val2 => compare val1 val2
                            | None => false
                            end
                          else at_key es'
                      end) es1)
                keys1
        | _ => false
        end
    | _ => false
    end.

(** [compare] on two lookups. *)
Definition compare_opt (o1 o2 : option value) : bool :=
  match o1, o2 with
  | Some a, Some b => compare a b
  | None, None => true
  | _, _ => false
  end.

(** The walk over two containers of which one is no array, with the
    lookups written with [get]. *)
Definition same_props (obj1 obj2 : value) : bool :=
  (keys_agree (sort_keys (Object_keys obj1)) (sort_keys (Object_keys obj2))
   && forallb (fun key => compare_opt (get obj1 key) (get obj2 key))
        (sort_keys (Object_keys obj1)))%bool.

(** The walk over two arrays of one length. *)
Fixpoint same_elements (l1 l2 : list value) : bool :=
  match l1, l2 with
  | val1 :: r1, val2 :: r2 =>
      if compare val1 val2 then same_elements r1 r2 else false
  | _, _ => true
  end.

End Compare.

(** The object with the elements of [l] under the keys [i], [i + 1], ... *)
Fixpoint indexed_from (i : nat) (l : list value) : list (text * value) :=
  match l with
  | [] => []
  | v :: l' => (dec (N.of_nat i), v) :: indexed_from (S i) l'
  end.

(** The equality of two numbers as they are written: sign, digits and
    exponent.  It is finer than [===], which tells neither [-0] from [0]
    nor two decimals that round to one double; the two agree on the
    integers from 1 to [2^53], and the examples that instantiate [num_eq]
    with it hold such integers only. *)
Definition jnum_eqb (a b : jnum) : bool :=
  (Bool.eqb (neg a) (neg b) && (mant a =? mant b)%N && (exp10 a =? exp10 b)%Z)%bool.

(* ================================================================== *)
(** * [JSONMan.merge] *)

(** An array index: a canonical decimal below [2^32 - 1].  The own keys of
    an object list the array indices first, in ascending order, then the
    other keys in the order of their creation. *)
Definition is_array_index (key : text) : bool :=
  match key with
  | [] => false
  | c :: t =>
      (forallb is_digit key
       && (negb (isc c "0") || (length t =? 0))
       && (digits_val key <? 4294967295)%N)%bool
  end.

(** A new property under an array index goes before the first key that is
    no smaller array index. *)
Fixpoint insert_index (es : list (text * value)) (key : text) (v : value)
  : list (text * value) :=
  match es with
  | [] => [(key, v)]
  | (k, w) :: es' =>
      if (is_array_index k && (digits_val k <? digits_val key)%N)%bool
      then (k, w) :: insert_index es' key v
      else (key, v) :: es
  end.

Fixpoint replace_prop (es : list (text * value)) (key : text) (v : value)
  : list (text * value) :=
  match es with
  | [] => []
  | (k, w) :: es' =>
      if text_eqb k key then (k, v) :: es' else (k, w) :: replace_prop es' key v
  end.

(** [result[key] = v] on an object that has the own property [key], or for
    which the assignment creates it. *)
Definition set_prop (es : list (text * value)) (key : text) (v : value)
  : list (text * value) :=
  match get_prop es key with
  | Some _ => replace_prop es key v
  | None => if is_array_index key then insert_index es key v
            else es ++ [(key, v)]
  end.

(** The loop of [merge] over [Object.entries(obj2)], with [merge] itself as
    [rec].  [result[key]], for a key that is no own property, is inherited
    from [Object.prototype]: a function or [undefined], and the assignment
    creates the property.  Under the key [__proto__] it is the prototype,
    an object, and the assignment goes to the setter of [Object.prototype]:
    it does nothing for a primitive, and replaces the prototype of [result]
    for [null], an array or an object.  An object with a prototype of its
    own is no value of this embedding: the loop answers [None] there. *)
Fixpoint merge_entries (rec : value -> value -> option value)
    (es result : list (text * value)) {struct es}
  : option (list (text * value)) :=
  match es with
  | [] => Some result
  | (key, v) :: es' =>
      match get_prop result key with
      | None =>
          if text_eqb key (js "__proto__") then
            match v with
            | JBool _ | JNumber _ | JString _ => merge_entries rec es' result
            | _ => None
            end
          else merge_entries rec es' (set_prop result key v)
      | Some old =>
          match v, old with
          | JObject _, JObject _ =>
              match rec old v with
              | Some m => merge_entries rec es' (set_prop result key m)
              | None => None
              end
          | _, _ => merge_entries rec es' (set_prop result key v)
          end
      end
  end.

(** [JSONMan.merge(obj1, obj2)]; the strategy is not read. *)
Fixpoint merge (obj1 obj2 : value) {struct obj2} : option value :=
  match obj1 with
  | JArray _ => Some obj1
  | JObject es1 =>
      match obj2 with
      | JObject es2 =>
          option_map JObject
            (merge_entries (fun old v => merge old v) es2 es1)
      | _ => Some obj1
      end
  | _ =>
      match obj2 with
      | JArray _ | JObject _ => Some obj2
      | _ => Some obj1
      end
  end.

(** No object that [merge] walks in [obj2] has the key [__proto__]. *)
Fixpoint proto_free (v : value) : bool :=
  match v with
  | JObject es =>
      forallb (fun kv => (negb (text_eqb (fst kv) (js "__proto__"))
                          && proto_free (snd kv))%bool) es
  | _ => true
  end.

(** What [merge] leaves under a key that [obj2] has with the value [v2],
    where [o1] is the value of [obj1] under the key, if any. *)
Definition merged_value (o1 : option value) (v2 : value) : option value :=
  match o1, v2 with
  | Some (JObject es1), JObject _ => merge (JObject es1) v2
  | _, _ => Some v2
  end.

(* ================================================================== *)
(** * [JSONMan.search] *)

(** An entry of [matches]. *)
Record Match : Type := mkMatch { m_path : text; m_key : text; m_value : value }.

(** [key.includes(query) || (typeof value === 'string' &&
    value.includes(query))] *)
Definition hit (query key : text) (v : value) : bool :=
  (includes query key
   || match v with JString s => includes query s | _ => false end)%bool.

(** [path ? path + '.' + key : key]: the empty path is falsy. *)
Definition new_path (path key : text) : text :=
  match path with
  | [] => key
  | _ => path ++ js "." ++ key
  end.

(** [obj.forEach((item, index) => search(item, path + '[' + index + ']'))],
    with the inner [search] as [walk]. *)
Fixpoint search_items (walk : value -> text -> list Match) (path : text)
    (l : list value) (index : nat) {struct l} : list Match :=
  match l with
  | [] => []
  | item :: l' =>
      walk item (path ++ js "[" ++ dec (N.of_nat index) ++ js "]")
      ++ search_items walk path l' (S index)
  end.

(** [Object.entries(obj).forEach(...)]: the member first, if it is a hit,
    then what the walk finds below it. *)
Fixpoint search_entries (walk : value -> text -> list Match)
    (query path : text) (es : list (text * value)) {struct es} : list Match :=
  match es with
  | [] => []
  | (key, v) :: es' =>
      (if hit query key v then [mkMatch (new_path path key) key v] else [])
      ++ walk v (new_path path key)
      ++ search_entries walk query path es'
  end.

(** The inner [search(obj, path)]; its pushes, in order. *)
Fixpoint search_walk (query : text) (obj : value) (path : text) {struct obj}
  : list Match :=
  match obj with
  | JArray l => search_items (fun item p => search_walk query item p) path l 0
  | JObject es =>
      search_entries (fun v p => search_walk query v p) query path es
  | _ => []
  end.

(** [JSONMan.search(data, query)]: [matches] and [totalFound]. *)
Definition search_ (data : value) (query : text) : list Match * nat :=
  let results := search_walk query data [] in
  (results, length results).

(** No object anywhere in [v]. *)
Fixpoint object_free (v : value) : bool :=
  match v with
  | JObject _ => false
  | JArray l => forallb object_free l
  | _ => true
  end.

(* ================================================================== *)
(** ** Prose *)







(** The code units of a number literal. *)
Definition number_char (c : char) : bool :=
  (is_digit c || isc c "-" || isc c "+" || isc c "." || isc c "e"
   || isc c "E")%bool.


(** A stage of the number lexer reads a run of number code units: [s] is
    such a run followed by [s']. *)
Definition reads (s s' : text) : Prop :=
  exists p, s = p ++ s' /\ forallb number_char p = true.

(* ================================================================== *)
(** ** Brace spans *)

(** A text cut at its braces and string literals: a code unit that is no
    brace, double quote or backslash; a string literal, its body between
    the quotes; an object span, its items between the braces. *)
Inductive item : Type :=
| Ch (c : char)
| Str (body : text)
| Obj (items : list item).





(* ================================================================== *)
(** ** Texts cut at their string literals *)

(** A piece of a text: a code unit outside the string literals, which is
    neither a double quote nor a backslash, or a string literal, given by
    the body between its quotes. *)
Inductive piece : Type :=
| Plain (c : char)
| Lit (body : text).

Definition literal (body : text) : text := DQ :: body ++ [DQ].

Definition piece_text (p : piece) : text :=
  match p with
  | Plain c => [c]
  | Lit body => literal body
  end.

Definition piece_ok (p : piece) : bool :=
  match p with
  | Plain c => negb (isc c "`" || isc c "\")
  | Lit body => string_body body
  end.

(** The text of the pieces; in it every double quote delimits a literal
    when the pieces are well formed. *)
Definition pieces_text (ps : list piece) : text := flat_map piece_text ps.
Definition well_quoted (ps : list piece) : bool := forallb piece_ok ps.

(* ================================================================== *)
(** ** Plain JSON texts

    A class of texts on which no pass of [fix] has anything to do when they
    parse, recognised code unit by code unit by a finite automaton:

    - the tokens are braces, brackets, colons, commas, string literals,
      and runs of the code units of numbers, [true], [false] and [null];
      blanks, tabs, line feeds and carriage returns stand between tokens
      only, and not before the first one;
    - an opening brace is followed by a key or by the closing brace, a key
      by a colon, a colon, an opening bracket and a comma by a value (a
      comma also by a key), a value by a comma, a closing brace, a closing
      bracket or the end;
    - an opening bracket is not followed at once by another, nor a
      closing bracket or brace by another of its kind, and no opening
      brace stands right after a closing brace, a comma and a line feed;
    - a string literal holds letters, digits, underscores and the signs
      [.], [-] and [+]; one that is not a key also blanks and the signs
      [@#!?%&()=*;<>|^~$]; none of its words (the runs of letters, digits
      and underscores) is [None], [undefined], [NULL], [True], [False] or a
      hexadecimal literal [0x...];
    - after a string value, every string literal before the next colon,
      opening brace or opening bracket is a key: a colon follows it. *)

(** Where the automaton stands inside a word of a string: at its start, on
    a prefix of one of the words [convertLiterals] rewrites, on the way
    through a hexadecimal literal ([0], [0x], [0x] and digits), or in a
    word that is neither. *)
Inductive wprog : Type :=
| WStart
| WPre (p : text)
| WHex (n : nat)
| WOther.

(** The words that [convertLiterals] rewrites. *)
Definition reserved : list text :=
  [js "None"; js "undefined"; js "NULL"; js "True"; js "False"].

Definition is_hexdigit (c : char) : bool :=
  (is_digit c || in_range 65 70 c || in_range 97 102 c)%bool.

(** One more word character. *)
Definition wstep (w : wprog) (c : char) : wprog :=
  match w with
  | WStart =>
      if isc c "0" then WHex 0
      else if existsb (starts_with [c]) reserved then WPre [c] else WOther
  | WPre p =>
      if existsb (starts_with (p ++ [c])) reserved then WPre (p ++ [c])
      else WOther
  | WHex 0 => if isc c "x" then WHex 1 else WOther
  | WHex _ => if is_hexdigit c then WHex 2 else WOther
  | WOther => WOther
  end.

(** The word that ends here is one a pass rewrites. *)
Definition wdone (w : wprog) : bool :=
  match w with
  | WPre p => existsb (text_eqb p) reserved
  | WHex 2 => true
  | _ => false
  end.

(** What a string literal may be: a key, a value, or either (after a
    comma, where an array and an object look alike). *)
Inductive role : Type := RKey | RValue | REither.

(** The states of the automaton.  [sv] tells that a string value has been
    closed since the last colon, opening brace or opening bracket; [sp]
    that the string literal holds a code unit no key holds.
    - [QStart]: nothing is read;
    - [QOpen brace adjacent]: after an opening brace or bracket, right
      after it when [adjacent];
    - [QColon]: after a colon;
    - [QComma sv bn]: after a comma; [bn] is 1 right after a closing brace
      and the comma, 2 after a line feed next to them;
    - [QAfter sv cl]: a value is complete; [cl] is 1 right after a closing
      brace, 2 right after a closing bracket;
    - [QKeyEnd]: a key is closed;
    - [QStrEnd sp]: a string literal is closed that a colon makes a key and
      anything else a value;
    - [QScalar sv]: in a number, [true], [false] or [null];
    - [QStr r sp w]: in a string literal. *)
Inductive shape_state : Type :=
| QStart
| QOpen (brace adjacent : bool)
| QColon
| QComma (sv : bool) (bn : nat)
| QAfter (sv : bool) (cl : nat)
| QKeyEnd
| QStrEnd (sp : bool)
| QScalar (sv : bool)
| QStr (r : role) (sp : bool) (w : wprog).

(** The code units of numbers, [true], [false] and [null]; the signs of
    string values only; the signs of every string literal. *)
Definition scalar_chars : text := js "0123456789-+.eEtrufalsn".
Definition string_punct : text := js "@#!?%&()=*;<>|^~$".
Definition key_punct : text := js ".-+".

(** The code units of the texts of the class. *)
Definition sigma : text :=
  js "{}[]:,`0123456789abcdefghijklmnopqrstuvwxyzABCDEFGHIJKLMNOPQRSTUVWXYZ_-+. "
  ++ [9; 10; 13]%N ++ string_punct.

Definition mem (c : char) (l : text) : bool := existsb (N.eqb c) l.

(** The start of a value; [r] is the role of a string literal here and [sv]
    tells whether a string value has been closed since the last colon,
    opening brace or opening bracket. *)
Definition value_start (r : role) (sv : bool) (c : char) : option shape_state :=
  if isc c "{" then Some (QOpen true true)
  else if isc c "[" then Some (QOpen false true)
  else if isc c "`" then Some (QStr r false WStart)
  else if (is_digit c || isc c "-" || isc c "t" || isc c "f" || isc c "n")%bool
  then Some (QScalar sv)
  else None.

(** What may follow a complete value. *)
Definition after_value (sv : bool) (cl : nat) (c : char) : option shape_state :=
  if json_ws c then Some (QAfter sv 0)
  else if isc c "," then Some (QComma sv (if Nat.eqb cl 1 then 1 else 0))
  else if isc c "}" then if Nat.eqb cl 1 then None else Some (QAfter sv 1)
  else if isc c "]" then if Nat.eqb cl 2 then None else Some (QAfter sv 2)
  else None.

(** The transitions of the automaton. *)
Definition step (q : shape_state) (c : char) : option shape_state :=
  match q with
  | QStart => value_start RValue false c
  | QOpen true adj =>
      if json_ws c then Some (QOpen true false)
      else if isc c "`" then Some (QStr RKey false WStart)
      else if isc c "}" then Some (QAfter false 1)
      else None
  | QOpen false adj =>
      if json_ws c then Some (QOpen false false)
      else if isc c "]" then Some (QAfter false 2)
      else if (isc c "[" && adj)%bool then None
      else value_start RValue false c
  | QColon =>
      if json_ws c then Some QColon else value_start RValue false c
  | QComma sv bn =>
      if json_ws c
      then Some (QComma sv (if (N.eqb c NL && Nat.eqb bn 1)%bool then 2 else 0))
      else if (isc c "{" && Nat.eqb bn 2)%bool then None
      else value_start (if sv then RKey else REither) sv c
  | QAfter sv cl => after_value sv cl c
  | QKeyEnd =>
      if json_ws c then Some QKeyEnd
      else if isc c ":" then Some QColon else None
  | QStrEnd sp =>
      if json_ws c then Some (QStrEnd sp)
      else if isc c ":" then if sp then None else Some QColon
      else after_value true 0 c
  | QScalar sv =>
      if mem c scalar_chars then Some (QScalar sv) else after_value sv 0 c
  | QStr r sp w =>
      if is_word c then Some (QStr r sp (wstep w c))
      else if wdone w then None
      else if isc c "`" then
        Some match r with
             | RKey => QKeyEnd
             | RValue => QAfter true 0
             | REither => QStrEnd sp
             end
      else if N.eqb c 32 then
        match r with RKey => None | _ => Some (QStr r true WStart) end
      else if mem c key_punct then Some (QStr r sp WStart)
      else if mem c string_punct then
        match r with RKey => None | _ => Some (QStr r true WStart) end
      else None
  end.

Definition delta (q : shape_state) (c : char) : option shape_state :=
  if mem c sigma then step q c else None.

(** The text may end after a complete value. *)
Definition final (q : shape_state) : bool :=
  match q with
  | QAfter _ _ | QScalar _ => true
  | _ => false
  end.

Fixpoint run (q : shape_state) (t : text) : option shape_state :=
  match t with
  | [] => Some q
  | c :: t' => match delta q c with Some q' => run q' t' | None => None end
  end.

Definition accepted_from (q : shape_state) (t : text) : bool :=
  match run q t with Some q' => final q' | None => false end.

(** The texts of the class. *)
Definition plain_json (t : text) : bool := accepted_from QStart t.

Definition wprog_eqb (a b : wprog) : bool :=
  match a, b with
  | WStart, WStart | WOther, WOther => true
  | WPre p, WPre p' => text_eqb p p'
  | WHex n, WHex n' => Nat.eqb n n'
  | _, _ => false
  end.

Definition role_eqb (a b : role) : bool :=
  match a, b with
  | RKey, RKey | RValue, RValue | REither, REither => true
  | _, _ => false
  end.

Definition state_eqb (a b : shape_state) : bool :=
  match a, b with
  | QStart, QStart | QColon, QColon | QKeyEnd, QKeyEnd => true
  | QOpen b1 a1, QOpen b2 a2 => (Bool.eqb b1 b2 && Bool.eqb a1 a2)%bool
  | QComma s1 n1, QComma s2 n2 => (Bool.eqb s1 s2 && Nat.eqb n1 n2)%bool
  | QAfter s1 n1, QAfter s2 n2 => (Bool.eqb s1 s2 && Nat.eqb n1 n2)%bool
  | QStrEnd s1, QStrEnd s2 => Bool.eqb s1 s2
  | QScalar s1, QScalar s2 => Bool.eqb s1 s2
  | QStr r1 s1 w1, QStr r2 s2 w2 =>
      (role_eqb r1 r2 && Bool.eqb s1 s2 && wprog_eqb w1 w2)%bool
  | _, _ => false
  end.

(* ------------------------------------------------------------------ *)
(** *** Patterns read against the automaton *)

(** An abstract matcher state: the state of the automaton at the current
    position, whether the code unit before it is a word character, whether
    the capture of the tracked group holds a marked code unit, whether one
    has been consumed since the reference position, and what a word
    boundary has told about the code unit ahead. *)
Record astate : Type := AS {
  aq : shape_state;
  aw : bool;
  ag : bool;
  aacc : bool;
  anext : option bool
}.

Definition onext_eqb (a b : option bool) : bool :=
  match a, b with
  | Some x, Some y => Bool.eqb x y
  | None, None => true
  | _, _ => false
  end.

Definition astate_eqb (a b : astate) : bool :=
  (state_eqb (aq a) (aq b) && Bool.eqb (aw a) (aw b) && Bool.eqb (ag a) (ag b)
   && Bool.eqb (aacc a) (aacc b) && onext_eqb (anext a) (anext b))%bool.

Definition amem (a : astate) (l : list astate) : bool := existsb (astate_eqb a) l.

Definition aadd (a : astate) (l : list astate) : list astate :=
  if amem a l then l else a :: l.

Definition aunion (l1 l2 : list astate) : list astate := fold_right aadd l2 l1.

Definition asubset (l1 l2 : list astate) : bool := forallb (fun a => amem a l2) l1.

Fixpoint abind (l : list astate) (f : astate -> option (list astate))
    : option (list astate) :=
  match l with
  | [] => Some []
  | a :: l' =>
      match f a, abind l' f with
      | Some t1, Some t2 => Some (aunion t1 t2)
      | _, _ => None
      end
  end.

(** The code unit [c] agrees with what is known of the one ahead. *)
Definition next_ok (o : option bool) (c : char) : bool :=
  match o with Some b => Bool.eqb (is_word c) b | None => true end.

Definition atom_step (mk p : char -> bool) (a : astate) : list astate :=
  fold_right
    (fun c acc =>
       if (p c && next_ok (anext a) c)%bool then
         match delta (aq a) c with
         | Some q' => aadd (AS q' (is_word c) (ag a) (aacc a || mk c) None) acc
         | None => acc
         end
       else acc)
    [] sigma.

Definition aatom (mk p : char -> bool) (s : list astate) : option (list astate) :=
  abind s (fun a => Some (atom_step mk p a)).

(** The end of the text can come here. *)
Definition end_ok (a : astate) : bool :=
  (final (aq a) && match anext a with Some true => false | _ => true end)%bool.

(** A word boundary here: the code unit ahead is a word character exactly
    when the one behind is not; the state is kept when the automaton has
    such a code unit, or the end of the text, ahead. *)
Definition wordb_step (a : astate) : list astate :=
  let b := negb (aw a) in
  let a' := AS (aq a) (aw a) (ag a) (aacc a) (Some b) in
  if (match anext a with Some b' => Bool.eqb b' b | None => true end
      && (existsb (fun c => match delta (aq a) c with
                            | Some _ => Bool.eqb (is_word c) b
                            | None => false
                            end) sigma
          || (final (aq a) && negb b)))%bool
  then [a'] else [].

(** [f] iterated at most [n] times, at least [min] times. *)
Fixpoint abounded (f : list astate -> option (list astate)) (n min : nat)
    (s : list astate) : option (list astate) :=
  match n with
  | O => Some s
  | S n' =>
      match f s with
      | None => None
      | Some t =>
          match abounded f n' (pred min) t with
          | None => None
          | Some u => Some (if Nat.eqb min 0 then aunion s u else u)
          end
      end
  end.

(** The least set holding [c] and closed under [f], when [fuel] rounds
    reach it. *)
Fixpoint closure (f : list astate -> option (list astate)) (fuel : nat)
    (c : list astate) : option (list astate) :=
  match fuel with
  | O => None
  | S fuel' =>
      match f c with
      | None => None
      | Some t => if asubset t c then Some c else closure f fuel' (aunion t c)
      end
  end.

(** [areach n0 mk r s]: abstract states that hold after [r] has matched from
    a state of [s]; [None] when the reading gives up.  [n0] is the tracked
    group and [mk] the marked code units. *)
Fixpoint areach (n0 : nat) (mk : char -> bool) (r : re) (s : list astate)
    {struct r} : option (list astate) :=
  match r with
  | Eps => Some s
  | Chr a => aatom mk (fun c => isc c a) s
  | Any => aatom mk (fun c => negb (is_line_terminator c)) s
  | Class neg items => aatom mk (class_match neg items) s
  | Seq r1 r2 =>
      match areach n0 mk r1 s with
      | Some t => areach n0 mk r2 t
      | None => None
      end
  | Alt r1 r2 =>
      match areach n0 mk r1 s, areach n0 mk r2 s with
      | Some t1, Some t2 => Some (aunion t1 t2)
      | _, _ => None
      end
  | Group n r1 =>
      if Nat.eqb n n0 then
        abind s (fun a =>
          match areach n0 mk r1 [AS (aq a) (aw a) (ag a) false (anext a)] with
          | Some t =>
              Some (map (fun b => AS (aq b) (aw b) (aacc b) (aacc a || aacc b)
                                     (anext b)) t)
          | None => None
          end)
      else areach n0 mk r1 s
  | Look r1 =>
      abind s (fun a =>
        match areach n0 mk r1 [a] with
        | Some t =>
            Some (map (fun b => AS (aq a) (aw a) (ag b) (aacc a) (anext a)) t)
        | None => None
        end)
  | WordB => abind s (fun a => Some (wordb_step a))
  | Eol => Some (filter end_ok s)
  | Rep min max _ r1 =>
      if existsb (Nat.eqb n0) (groups r1) then None
      else
        match max with
        | Some n => abounded (areach n0 mk r1) n min s
        | None =>
            match closure (areach n0 mk r1) 400 s with
            | Some c => if Nat.eqb min 0 then Some c else areach n0 mk r1 c
            | None => None
            end
        end
  end.

(** The states of the automaton, found from the first one. *)
Definition successors (q : shape_state) : list shape_state :=
  flat_map (fun c => match delta q c with Some q' => [q'] | None => [] end) sigma.

Definition smem (q : shape_state) (l : list shape_state) : bool :=
  existsb (state_eqb q) l.

Fixpoint explore (fuel : nat) (todo seen : list shape_state) : list shape_state :=
  match fuel with
  | O => seen
  | S fuel' =>
      match todo with
      | [] => seen
      | q :: todo' =>
          if smem q seen then explore fuel' todo' seen
          else explore fuel' (successors q ++ todo') (q :: seen)
      end
  end.

Definition all_states : list shape_state := Eval vm_compute in
  explore (150 * 150) [QStart] [].

(** The abstract states a match can start from. *)
Definition positions : list astate := Eval vm_compute in
  fold_right aadd []
    (AS QStart false false false None
     :: flat_map (fun q =>
          flat_map (fun c => match delta q c with
                             | Some q' => [AS q' (is_word c) false false None]
                             | None => []
                             end) sigma) all_states).

(** No match of [r] in a text of the class. *)
Definition never (r : re) : bool :=
  match areach 0 (fun _ => false) r positions with
  | Some [] => true
  | _ => false
  end.

(** Every match of [r] in a text of the class captures with group [n0] a
    text in which [mk] holds somewhere ([want = true]) or nowhere. *)
Definition always (n0 : nat) (mk : char -> bool) (want : bool) (r : re) : bool :=
  match areach n0 mk r positions with
  | Some t => forallb (fun a => Bool.eqb (ag a) want) t
  | None => false
  end.

(** The code units that tell a harmless match of [problematicQuotePattern]
    when its third group holds one of them. *)
Definition marker (c : char) : bool := (isc c ":" || isc c "{" || isc c "[")%bool.

Definition cap_of (n : nat) (cs : list (nat * text)) : text :=
  match find (fun p => Nat.eqb (fst p) n) cs with
  | Some p => snd p
  | None => []
  end.

(** The abstract state [a] describes the matcher state [x]; [x0] is the
    text from the reference position on. *)
Record rel (n0 : nat) (mk : char -> bool) (x0 : text) (x : mstate)
    (a : astate) : Prop := mkRel {
  rel_w : is_word_opt (prev x) = aw a;
  rel_q : accepted_from (aq a) (rest x) = true;
  rel_acc : exists p, x0 = p ++ rest x /\ existsb mk p = aacc a;
  rel_g : existsb mk (cap_of n0 (caps x)) = ag a;
  rel_next : forall b, anext a = Some b -> is_word_opt (hd_error (rest x)) = b
}.

(** The reading of a pattern is sound: a match from a described state
    hands a described state to its continuation. *)
Definition sound (n0 : nat) (mk : char -> bool) (mr : matcher)
    (f : list astate -> option (list astate)) : Prop :=
  forall s t, f s = Some t ->
  forall x0 x a k z, In a s -> rel n0 mk x0 x a -> mr x k = Some z ->
  exists y b, In b t /\ rel n0 mk x0 y b /\ k y = Some z.

(** A position of a text of the class: the state of the automaton there
    and the code unit before. *)
Definition at_pos (q : shape_state) (p : option char) (s : text) : Prop :=
  In (AS q (is_word_opt p) false false None) positions
  /\ accepted_from q s = true.

(* ------------------------------------------------------------------ *)
(** *** Tokens and the bracket scans *)

(** The code units the bracket scans pass over outside a string. *)
Definition neutral (c : char) : bool :=
  negb (isc c "`" || isc c "\" || isc c "{" || isc c "}" || isc c "["
        || isc c "]").

(** The text of a token: a punctuation mark, a string literal, or a run of
    code units that are neither quotes nor brackets. *)
Definition token_shape (tok : token) (l : text) : Prop :=
  match tok with
  | TLBrace => l = js "{"
  | TRBrace => l = js "}"
  | TLBrack => l = js "["
  | TRBrack => l = js "]"
  | TColon => l = js ":"
  | TComma => l = js ","
  | TString _ => exists body, l = DQ :: body ++ [DQ] /\ string_body body = true
  | _ => forallb neutral l = true
  end.

(** A text cut into its tokens. *)
Inductive lexes : text -> list token -> Prop :=
| lexes_nil : lexes [] []
| lexes_ws (c : char) (s : text) (ts : list token) :
    json_ws c = true -> lexes s ts -> lexes (c :: s) ts
| lexes_tok (tok : token) (l s : text) (ts : list token) :
    token_shape tok l -> lexes s ts -> lexes (l ++ s) (tok :: ts).

(** The closers the frames of the parser stand for, the innermost first. *)
Definition closer_of_frame (f : frame) : char :=
  match f with FArr _ => code "]" | FObj _ _ => code "}" end.

Definition closers (st : list frame) : list char := map closer_of_frame st.

(** The object frames of a stack, and whether the outermost is one. *)
Definition is_obj_frame (f : frame) : bool :=
  match f with FObj _ _ => true | FArr _ => false end.

Definition nobj (st : list frame) : nat := length (filter is_obj_frame st).

Definition rooted (st : list frame) : bool := is_obj_frame (last st (FArr [])).

(** The text is an object, or holds at most one opening brace: the scan of
    [handleMultipleRoots] then finds at most one object. *)
Definition one_root (t : text) : bool :=
  (starts_with (js "{") t
   || Nat.leb (length (filter (fun c => isc c "{") t)) 1)%bool.

(** After a token read below an object, the scan of
    [handleMultipleRoots] counts the object frames, and has found an object
    when the last frame is gone. *)
Definition roots_after (st' : list frame) (md' : mode) (a' : nat)
    (secs secs' : list (nat * nat)) : Prop :=
  (rooted st' = true /\ secs' = secs)
  \/ (st' = [] /\ (exists v, md' = MAfter v) /\ length secs' = S (length secs)).


(** One when a brace is open at depth [z], for the count of the objects
    that the scan of [handleMultipleRoots] can still close. *)
Definition open_brace (z : Z) : nat := if Z.ltb 0 z then 1 else 0.

(** Proof scripts of the development. *)
Ltac graphic_tac := unfold graphic; vm_compute; split; reflexivity.
Ltac needs_tac := vm_compute; reflexivity.

(* ================================================================== *)
(** ** The strict parser and [trim] *)

(** A code unit of [\s] is no printable ASCII character. *)
Lemma space_range (c : char) :
  is_space c = true -> (c <= 32 \/ 160 <= c)%N.
Proof.
  unfold is_space, in_range. intros H.
  repeat (apply orb_prop in H; destruct H as [H|H]);
    try (apply andb_prop in H; destruct H as [H1 H2];
         apply N.leb_le in H1; apply N.leb_le in H2);
    try apply N.eqb_eq in H; lia.
Qed.


Lemma isc_space (c : char) (a : ascii) :
  is_space c = true -> graphic a -> isc c a = false.
Proof.
  intros H G. apply space_range in H. unfold isc, graphic in *.
  apply N.eqb_neq. lia.
Qed.

Lemma is_digit_space (c : char) : is_space c = true -> is_digit c = false.
Proof.
  intros H. apply space_range in H. unfold is_digit, in_range.
  destruct (N.leb_spec 48 c), (N.leb_spec c 57); cbn; try reflexivity; lia.
Qed.

Lemma hex_val_space (c : char) : is_space c = true -> hex_val c = None.
Proof.
  intros H. unfold hex_val. rewrite (is_digit_space c H).
  apply space_range in H. unfold in_range.
  destruct (N.leb_spec 65 c), (N.leb_spec c 70), (N.leb_spec 97 c),
    (N.leb_spec c 102); cbn; try reflexivity; lia.
Qed.


Lemma simple_escape_space (c : char) :
  is_space c = true -> simple_escape c = None.
Proof.
  intros H. unfold simple_escape.
  rewrite !(isc_space c _ H) by graphic_tac. reflexivity.
Qed.

Lemma starts_with_snoc (p s : text) (c : char) :
  Forall (fun a => N.eqb a c = false) p ->
  starts_with p (s ++ [c]) = starts_with p s.
Proof.
  intros Hp. revert s.
  induction Hp as [|a p Ha Hp IH]; intros s; [reflexivity|].
  destruct s as [|b s]; cbn [app starts_with].
  - rewrite Ha. reflexivity.
  - rewrite IH. reflexivity.
Qed.

Lemma span_digits_snoc (s : text) (c : char) :
  is_digit c = false ->
  span_digits (s ++ [c]) = (fst (span_digits s), snd (span_digits s) ++ [c]).
Proof.
  intros Hc. induction s as [|a s IH]; cbn [app span_digits].
  - rewrite Hc. reflexivity.
  - destruct (is_digit a); [|reflexivity].
    rewrite IH. destruct (span_digits s). reflexivity.
Qed.

Lemma hex4_space (a b d c : char) : is_space c = true -> hex4 a b d c = None.
Proof.
  intros H. unfold hex4. rewrite (hex_val_space c H).
  destruct (hex_val a), (hex_val b), (hex_val d); reflexivity.
Qed.

Lemma lex_string_single (c : char) : is_space c = true -> lex_string [c] = None.
Proof.
  intros H. cbn [lex_string].
  rewrite !(isc_space c _ H) by graphic_tac.
  destruct (N.ltb c 32); reflexivity.
Qed.

Lemma lex_string_snoc (c : char) :
  is_space c = true ->
  forall (n : nat) (s : text),
    length s <= n -> lex_string (s ++ [c]) = lex_string s.
Proof.
  intros H n.
  induction n as [|n IH]; intros s Hn.
  - destruct s; [|cbn in Hn; lia]. apply lex_string_single, H.
  - destruct s as [|a s]; [apply lex_string_single, H|].
    cbn [length] in Hn. cbn [app lex_string].
    destruct (isc a "`"); [reflexivity|].
    destruct (isc a "\").
    + destruct s as [|e s]; cbn [app].
      * rewrite (isc_space c "u" H) by graphic_tac.
        rewrite (simple_escape_space c H). reflexivity.
      * cbn [length] in Hn.
        destruct (isc e "u").
        -- destruct s as [|h1 [|h2 [|h3 [|h4 s]]]]; cbn [app]; try reflexivity.
           ++ rewrite (hex4_space h1 h2 h3 c H). reflexivity.
           ++ cbn [length] in Hn. rewrite (IH s) by lia. reflexivity.
        -- destruct (simple_escape e); [|reflexivity].
           rewrite (IH s) by lia. reflexivity.
    + destruct (N.ltb a 32); [reflexivity|].
      rewrite (IH s) by lia. reflexivity.
Qed.

Lemma starts_with_single (p : text) (c : char) :
  2 <= length p -> starts_with p [c] = false.
Proof.
  destruct p as [|a [|b p]]; cbn [length]; try lia.
  intros _. cbn [starts_with]. apply andb_false_r.
Qed.

Section Snoc.
Variable c : char.
Hypothesis Hc : is_space c = true.

Lemma lex_sign_snoc (s : text) :
  lex_sign (s ++ [c]) = (fst (lex_sign s), snd (lex_sign s) ++ [c]).
Proof.
  destruct s as [|a s]; cbn [app lex_sign].
  - rewrite (isc_space c "-" Hc) by graphic_tac. reflexivity.
  - destruct (isc a "-"); reflexivity.
Qed.

Lemma lex_int_snoc (s : text) :
  lex_int (s ++ [c]) = (fst (lex_int s), snd (lex_int s) ++ [c]).
Proof.
  destruct s as [|a s]; cbn [app lex_int].
  - rewrite (isc_space c "0" Hc) by graphic_tac.
    cbn [span_digits]. rewrite (is_digit_space c Hc). reflexivity.
  - destruct (isc a "0"); [reflexivity|].
    apply (span_digits_snoc (a :: s) c (is_digit_space c Hc)).
Qed.

Lemma lex_frac_snoc (s : text) :
  lex_frac (s ++ [c]) = (fst (lex_frac s), snd (lex_frac s) ++ [c]).
Proof.
  destruct s as [|a s]; cbn [app lex_frac].
  - rewrite (isc_space c "." Hc) by graphic_tac. reflexivity.
  - destruct (isc a "."); [|reflexivity].
    rewrite (span_digits_snoc s c (is_digit_space c Hc)).
    destruct (span_digits s) as [[|d ds] r]; reflexivity.
Qed.

Lemma lex_exp_sign_snoc (t : text) :
  lex_exp_sign (t ++ [c])
  = (fst (lex_exp_sign t), snd (lex_exp_sign t) ++ [c]).
Proof.
  destruct t as [|g t]; cbn [app lex_exp_sign].
  - rewrite (isc_space c "-" Hc), (isc_space c "+" Hc) by graphic_tac.
    reflexivity.
  - destruct (isc g "-"); [reflexivity|]. destruct (isc g "+"); reflexivity.
Qed.

Lemma lex_exp_snoc (s : text) :
  lex_exp (s ++ [c]) = (fst (lex_exp s), snd (lex_exp s) ++ [c]).
Proof.
  destruct s as [|a s]; cbn [app lex_exp].
  - rewrite (isc_space c "e" Hc), (isc_space c "E" Hc) by graphic_tac.
    reflexivity.
  - destruct (isc a "e" || isc a "E")%bool; [|reflexivity].
    rewrite lex_exp_sign_snoc.
    destruct (lex_exp_sign s) as [sg t1]. cbn [fst snd].
    rewrite (span_digits_snoc t1 c (is_digit_space c Hc)).
    destruct (span_digits t1) as [[|d ds] r]; reflexivity.
Qed.

Lemma lex_number_snoc (s : text) : lex_number (s ++ [c]) = lex_number s.
Proof.
  unfold lex_number.
  rewrite lex_sign_snoc. destruct (lex_sign s) as [ng s1]. cbn [fst snd].
  rewrite lex_int_snoc. destruct (lex_int s1) as [ip s2]. cbn [fst snd].
  destruct ip as [|i ip]; [reflexivity|].
  rewrite lex_frac_snoc. destruct (lex_frac s2) as [fp s3]. cbn [fst snd].
  rewrite lex_exp_snoc. destruct (lex_exp s3) as [ev s4]. cbn [fst snd].
  rewrite !length_app. cbn [length].
  do 2 f_equal. lia.
Qed.

Lemma lex1_snoc (s : text) : lex1 (s ++ [c]) = lex1 s.
Proof.
  destruct s as [|a s].
  - cbn [app lex1].
    rewrite !(isc_space c _ Hc) by graphic_tac.
    rewrite !starts_with_single by (cbn; lia).
    change [c] with ([] ++ [c]). rewrite lex_number_snoc. reflexivity.
  - change ((a :: s) ++ [c]) with (a :: (s ++ [c])) at 1.
    cbn [lex1].
    rewrite (lex_string_snoc c Hc (length s) s (le_n _)).
    change (a :: (s ++ [c])) with ((a :: s) ++ [c]).
    rewrite !starts_with_snoc, lex_number_snoc; [reflexivity|..];
      repeat constructor;
      match goal with
      | |- N.eqb ?k c = false =>
          rewrite N.eqb_sym; apply N.eqb_neq;
          pose proof (space_range c Hc); vm_compute; lia
      end.
Qed.

Lemma tokens_snoc (s : text) :
  forall (skip : nat) (ts : list token),
    tokens skip (s ++ [c]) = Some ts -> tokens skip s = Some ts.
Proof.
  induction s as [|a s IH]; intros skip ts; cbn [app tokens].
  - destruct skip as [|n]; cbn [tokens].
    + destruct (json_ws c); [trivial|].
      change [c] with ([] ++ [c]). rewrite lex1_snoc. cbn. discriminate.
    + trivial.
  - destruct skip as [|n]; [|apply IH].
    destruct (json_ws a); [apply IH|].
    change (a :: s ++ [c]) with ((a :: s) ++ [c]). rewrite lex1_snoc.
    destruct (lex1 (a :: s)) as [[tok n]|]; [|discriminate].
    destruct (tokens (pred n) (s ++ [c])) as [ts'|] eqn:E; [|discriminate].
    rewrite (IH _ _ E). trivial.
Qed.

End Snoc.

Lemma lex1_space_head (c : char) (t : text) :
  is_space c = true -> lex1 (c :: t) = None.
Proof.
  intros Hc. pose proof (space_range c Hc) as R. cbn [lex1].
  rewrite !(isc_space c _ Hc) by graphic_tac.
  assert (K : forall k p, (32 < k < 160)%N -> starts_with (k :: p) (c :: t) = false).
  { intros k p Hk. cbn [starts_with].
    replace (N.eqb k c) with false by (symmetry; apply N.eqb_neq; lia).
    reflexivity. }
  change (js "true") with (116%N :: js "rue").
  change (js "false") with (102%N :: js "alse").
  change (js "null") with (110%N :: js "ull").
  rewrite !K by lia.
  unfold lex_number. cbn [lex_sign].
  rewrite (isc_space c "-" Hc) by graphic_tac. cbn [lex_int].
  rewrite (isc_space c "0" Hc) by graphic_tac. cbn [span_digits].
  rewrite (is_digit_space c Hc). reflexivity.
Qed.

Lemma tokens_trim_start (t : text) (ts : list token) :
  tokens 0 t = Some ts -> tokens 0 (trim_start t) = Some ts.
Proof.
  unfold trim_start.
  induction t as [|c t IH]; [trivial|].
  cbn [drop_while]. destruct (is_space c) eqn:Hc; [|trivial].
  cbn [tokens]. destruct (json_ws c); [exact IH|].
  rewrite (lex1_space_head c t Hc). discriminate.
Qed.

Lemma tokens_drop_end (l : text) (ts : list token) :
  tokens 0 (rev l) = Some ts ->
  tokens 0 (rev (drop_while is_space l)) = Some ts.
Proof.
  induction l as [|c l IH]; [trivial|].
  cbn [drop_while rev]. destruct (is_space c) eqn:Hc; [|trivial].
  intros H. apply IH. exact (tokens_snoc c Hc (rev l) 0 ts H).
Qed.

Lemma tokens_trim (t : text) (ts : list token) :
  tokens 0 t = Some ts -> tokens 0 (trim t) = Some ts.
Proof.
  intros H. unfold trim, trim_end.
  apply tokens_drop_end. rewrite rev_involutive.
  apply tokens_trim_start, H.
Qed.

(** The strict parser reads a text and its [trim] alike, when it reads the
    text at all. *)
Lemma JSON_parse_trim (t : text) (v : value) :
  JSON_parse t = Some v -> JSON_parse (trim t) = Some v.
Proof.
  unfold JSON_parse.
  destruct (tokens 0 t) as [ts|] eqn:E; [|discriminate].
  rewrite (tokens_trim t ts E). trivial.
Qed.

(* ================================================================== *)
(** ** Valid texts *)

Lemma fix_untouched (t : text) (v : value) :
  JSON_parse (trim t) = Some v ->
  run_passes passes t [] = (t, []) ->
  fix_ t = Normal (mkResult true (Some (trim t)) None []).
Proof.
  intros Ht Hp. unfold fix_, fix_try, pipeline. rewrite Hp.
  unfold parse. rewrite Ht. reflexivity.
Qed.

(** C1, as stated, fails.  [fix] does not try a strict parse first: the
    passes run on every input.  The valid text [[[1]]] loses its doubled
    brackets to the duplicate-delimiter pass: [fix] returns [[1]] with one
    fix recorded, and that text parses to another value. *)
Lemma fix_alters_valid_json :
  JSON_parse (js "[[1]]") = Some (JArray [JArray [num 1]])
  /\ (exists f,
         fix_ (js "[[1]]") = Normal (mkResult true (Some (js "[1]")) None [f]))
  /\ JSON_parse (js "[1]") = Some (JArray [num 1])
  /\ JSON_parse (js "[1]") <> JSON_parse (js "[[1]]").
Proof.
  split; [vm_compute; reflexivity|].
  split; [eexists; vm_compute; reflexivity|].
  split; [vm_compute; reflexivity|].
  vm_compute. discriminate.
Qed.

(** C1, amended.  For every valid JSON text that the sixteen passes leave
    unchanged without recording a fix, [fix] succeeds with an empty list of
    fixes, and its repaired text, the [trim] of the input, strict-parses to
    the value of the input. *)
Theorem fix_untouched_valid_text (t : text) (v : value) :
  JSON_parse t = Some v ->
  run_passes passes t [] = (t, []) ->
  fix_ t = Normal (mkResult true (Some (trim t)) None [])
  /\ JSON_parse (trim t) = Some v.
Proof.
  intros Hv Hp. pose proof (JSON_parse_trim t v Hv) as Ht.
  split; [|exact Ht].
  exact (fix_untouched t v Ht Hp).
Qed.

Lemma fix_untouched_valid_text_witness :
  JSON_parse (js " {`a`:1} ") = Some (JObject [(js "a", num 1)])
  /\ run_passes passes (js " {`a`:1} ") [] = (js " {`a`:1} ", [])
  /\ fix_ (js " {`a`:1} ") = Normal (mkResult true (Some (trim (js " {`a`:1} "))) None [])
  /\ JSON_parse (trim (js " {`a`:1} ")) = Some (JObject [(js "a", num 1)]).
Proof.
  split; [vm_compute; reflexivity|].
  split; [vm_compute; reflexivity|].
  apply (fix_untouched_valid_text (js " {`a`:1} ")); vm_compute; reflexivity.
Defined.


(* ================================================================== *)
(** ** String contents and the scanning loops *)

Lemma open_scan_app (st : open_state) (a b : text) :
  open_scan st (a ++ b) = open_scan (open_scan st a) b.
Proof. unfold open_scan. apply fold_left_app. Qed.

Lemma mismatch_scan_app (a b : text) :
  forall (st : mismatch_state) (i : nat),
    mismatch_scan st i (a ++ b)
    = mismatch_scan (mismatch_scan st i a) (i + length a) b.
Proof.
  induction a as [|c a IH]; intros st i; cbn [app mismatch_scan length].
  - rewrite Nat.add_0_r. reflexivity.
  - rewrite IH. f_equal. lia.
Qed.

Lemma roots_scan_app (a b : text) :
  forall (st : roots_state) (i : nat),
    roots_scan st i (a ++ b)
    = roots_scan (roots_scan st i a) (i + length a) b.
Proof.
  induction a as [|c a IH]; intros st i; cbn [app roots_scan length].
  - rewrite Nat.add_0_r. reflexivity.
  - rewrite IH. f_equal. lia.
Qed.

Lemma open_scan_string_body (n : nat) :
  forall (content : text) (stack : list char),
    length content <= n ->
    string_body content = true ->
    open_scan (OS stack true false) content = OS stack true false.
Proof.
  induction n as [|n IH]; intros content stack Hn Hb.
  - destruct content; [reflexivity|cbn in Hn; lia].
  - destruct content as [|c t]; [reflexivity|].
    cbn [length] in Hn. cbn [string_body] in Hb.
    unfold open_scan. cbn [fold_left]. unfold open_step at 2.
    cbn [escapeNext stringMode openStack].
    destruct (isc c "`"); [discriminate|].
    destruct (isc c "\").
    + destruct t as [|e t]; [discriminate|].
      cbn [length] in Hn. cbn [fold_left]. unfold open_step at 2.
      cbn [escapeNext stringMode openStack].
      apply (IH t stack); [lia|exact Hb].
    + apply (IH t stack); [lia|exact Hb].
Qed.

Lemma mismatch_scan_string_body (n : nat) :
  forall (content : text) (stack : list (char * nat))
         (cs : list (nat * char * char)) (i : nat),
    length content <= n ->
    string_body content = true ->
    mismatch_scan (MS stack true false cs) i content = MS stack true false cs.
Proof.
  induction n as [|n IH]; intros content stack cs i Hn Hb.
  - destruct content; [reflexivity|cbn in Hn; lia].
  - destruct content as [|c t]; [reflexivity|].
    cbn [length] in Hn. cbn [string_body] in Hb.
    cbn [mismatch_scan]. unfold mismatch_step at 1.
    cbn [ms_escaped ms_inString ms_stack ms_corrections].
    destruct (isc c "`"); [discriminate|].
    destruct (isc c "\").
    + destruct t as [|e t]; [discriminate|].
      cbn [length] in Hn. cbn [mismatch_scan]. unfold mismatch_step at 1.
      cbn [ms_escaped ms_inString ms_stack ms_corrections].
      apply IH; [lia|exact Hb].
    + apply IH; [lia|exact Hb].
Qed.

Lemma roots_scan_string_body (n : nat) :
  forall (content : text) (bc : Z) (st : nat) (secs : list (nat * nat))
         (i : nat),
    length content <= n ->
    string_body content = true ->
    roots_scan (RS bc st true false secs) i content = RS bc st true false secs.
Proof.
  induction n as [|n IH]; intros content bc st secs i Hn Hb.
  - destruct content; [reflexivity|cbn in Hn; lia].
  - destruct content as [|c t]; [reflexivity|].
    cbn [length] in Hn. cbn [string_body] in Hb.
    cbn [roots_scan]. unfold roots_step at 1.
    cbn [rs_escaped rs_inString braceCount start objectSections].
    destruct (isc c "`"); [discriminate|].
    destruct (isc c "\").
    + destruct t as [|e t]; [discriminate|].
      cbn [length] in Hn. cbn [roots_scan]. unfold roots_step at 1.
      cbn [rs_escaped rs_inString braceCount start objectSections].
      apply IH; [lia|exact Hb].
    + apply IH; [lia|exact Hb].
Qed.

Lemma line_comment_at_step (inString escaped : bool) (i : nat)
    (c c2 : char) (t : text) :
  line_comment_at inString escaped i (c :: c2 :: t)
  = if escaped then line_comment_at inString false (S i) (c2 :: t)
    else if isc c "\" then line_comment_at inString true (S i) (c2 :: t)
    else
      let inString' := if isc c "`" then negb inString else inString in
      if (negb inString' && isc c "/" && isc c2 "/")%bool then Some i
      else line_comment_at inString' false (S i) (c2 :: t).
Proof. reflexivity. Qed.

Lemma line_comment_string_body (n : nat) :
  forall (content after : text) (i : nat),
    length content <= n ->
    string_body content = true ->
    line_comment_at true false i (content ++ after)
    = line_comment_at true false (i + length content) after.
Proof.
  induction n as [|n IH]; intros content after i Hn Hb.
  - destruct content; [|cbn in Hn; lia].
    cbn [app length]. rewrite Nat.add_0_r. reflexivity.
  - destruct content as [|c t].
    { cbn [app length]. rewrite Nat.add_0_r. reflexivity. }
    cbn [length] in Hn. cbn [string_body] in Hb.
    destruct (isc c "`") eqn:Hq; [discriminate|].
    destruct (isc c "\") eqn:Hs.
    + destruct t as [|e t]; [discriminate|].
      cbn [length] in Hn. cbn [app length].
      rewrite line_comment_at_step, Hs.
      destruct (t ++ after) as [|x l] eqn:E.
      * apply app_eq_nil in E. destruct E as [-> ->]. reflexivity.
      * rewrite line_comment_at_step.
        rewrite <- E. rewrite (IH t after (S (S i))) by (lia || exact Hb).
        f_equal. lia.
    + cbn [app length].
      destruct (t ++ after) as [|x l] eqn:E.
      * apply app_eq_nil in E. destruct E as [-> ->]. reflexivity.
      * rewrite line_comment_at_step, Hs, Hq. cbn [negb andb].
        rewrite <- E. rewrite (IH t after (S i)) by (lia || exact Hb).
        f_equal. lia.
Qed.

(* ================================================================== *)
(** ** The matcher *)



Lemma below_refl (x : mstate) : below x x.
Proof. exists []. reflexivity. Qed.

Lemma below_trans (x y z : mstate) : below x y -> below y z -> below x z.
Proof.
  intros [p Hp] [q Hq]. exists (p ++ q). rewrite Hp, Hq, app_assoc. reflexivity.
Qed.

Lemma below_rest (x x' y : mstate) : rest x = rest x' -> below x y -> below x' y.
Proof. intros E [p Hp]. exists p. rewrite <- E. exact Hp. Qed.

Lemma below_length (x y : mstate) :
  below x y -> length (rest y) <= length (rest x).
Proof. intros [p Hp]. rewrite Hp, length_app. lia. Qed.

Lemma atom_respects (p : char -> bool) : respects (atom p).
Proof.
  intros x k1 k2 H. unfold atom.
  destruct (rest x) as [|c t] eqn:E; [reflexivity|].
  destruct (p c); [|reflexivity].
  apply H. exists [c]. rewrite E. reflexivity.
Qed.

Lemma rep_respects (mr : matcher) (gs : list nat) (greedy : bool) :
  respects mr ->
  forall (fuel min : nat) (max : option nat) (x : mstate) k1 k2,
    (forall y, below x y -> k1 y = k2 y) ->
    rep mr gs greedy k1 fuel min max x = rep mr gs greedy k2 fuel min max x.
Proof.
  intros Hmr fuel.
  induction fuel as [|fuel IH]; intros min max x k1 k2 H; [reflexivity|].
  cbn [rep]. rewrite (H x (below_refl x)).
  destruct (max_is_zero max); [reflexivity|].
  assert (E : mr (clear_caps gs x)
                (fun y =>
                   if (Nat.eqb min 0
                       && Nat.eqb (length (rest y)) (length (rest x)))%bool
                   then None
                   else rep mr gs greedy k1 fuel (pred min) (pred_max max) y)
              = mr (clear_caps gs x)
                  (fun y =>
                     if (Nat.eqb min 0
                         && Nat.eqb (length (rest y)) (length (rest x)))%bool
                     then None
                     else rep mr gs greedy k2 fuel (pred min) (pred_max max) y)).
  { apply Hmr. intros y Hy.
    destruct (Nat.eqb min 0 && Nat.eqb (length (rest y)) (length (rest x)))%bool;
      [reflexivity|].
    apply IH. intros z Hz. apply H.
    apply (below_trans _ _ _ (below_rest (clear_caps gs x) x y eq_refl Hy) Hz). }
  rewrite E. reflexivity.
Qed.

Lemma m_respects (r : re) : respects (m r).
Proof.
  induction r as [|a| |ng items|r1 IH1 r2 IH2|r1 IH1 r2 IH2
                 |min max greedy r1 IH1|n r1 IH1|r1 IH1| |];
    intros x k1 k2 H; cbn [m].
  - apply H, below_refl.
  - apply atom_respects, H.
  - apply atom_respects, H.
  - apply atom_respects, H.
  - apply IH1. intros y Hy. apply IH2. intros z Hz.
    apply H, (below_trans _ _ _ Hy Hz).
  - rewrite (IH1 x k1 k2 H), (IH2 x k1 k2 H). reflexivity.
  - apply rep_respects; assumption.
  - apply IH1. intros y Hy. apply H.
    destruct Hy as [p Hp]. exists p. exact Hp.
  - destruct (m r1 x (fun y => Some y)); [|reflexivity].
    apply H. exists []. reflexivity.
  - rewrite (H x (below_refl x)). reflexivity.
  - rewrite (H x (below_refl x)). reflexivity.
Qed.

(** The bound on the repetition loop is never what stops it: any fuel above
    [min + length (rest x)] gives the same result. *)
Lemma rep_fuel (mr : matcher) (gs : list nat) (greedy : bool)
    (k : mstate -> option mstate) :
  respects mr ->
  forall (f1 f2 min : nat) (max : option nat) (x : mstate),
    min + length (rest x) < f1 ->
    min + length (rest x) < f2 ->
    rep mr gs greedy k f1 min max x = rep mr gs greedy k f2 min max x.
Proof.
  intros Hmr f1.
  induction f1 as [|f1 IH]; intros f2 min max x H1 H2; [lia|].
  destruct f2 as [|f2]; [lia|].
  cbn [rep].
  destruct (max_is_zero max); [reflexivity|].
  assert (E : mr (clear_caps gs x)
                (fun y =>
                   if (Nat.eqb min 0
                       && Nat.eqb (length (rest y)) (length (rest x)))%bool
                   then None
                   else rep mr gs greedy k f1 (pred min) (pred_max max) y)
              = mr (clear_caps gs x)
                  (fun y =>
                     if (Nat.eqb min 0
                         && Nat.eqb (length (rest y)) (length (rest x)))%bool
                     then None
                     else rep mr gs greedy k f2 (pred min) (pred_max max) y)).
  { apply Hmr. intros y Hy.
    apply (below_rest (clear_caps gs x) x y eq_refl) in Hy.
    apply below_length in Hy.
    destruct (Nat.eqb min 0) eqn:Em; cbn [andb].
    - apply Nat.eqb_eq in Em. subst min.
      destruct (Nat.eqb (length (rest y)) (length (rest x))) eqn:El;
        [reflexivity|].
      apply Nat.eqb_neq in El. apply IH; cbn; lia.
    - apply Nat.eqb_neq in Em. apply IH; lia. }
  rewrite E. reflexivity.
Qed.

Lemma m_rep_fuel (min : nat) (max : option nat) (greedy : bool) (r : re)
    (x : mstate) (k : mstate -> option mstate) (fuel : nat) :
  min + length (rest x) < fuel ->
  m (Rep min max greedy r) x k
  = rep (m r) (groups r) greedy k fuel min max x.
Proof.
  intros H. cbn [m]. apply rep_fuel; [apply m_respects|lia|exact H].
Qed.

(* ================================================================== *)
(** ** Inert texts *)



Lemma inert_forallb (P : char -> bool) (c : char) :
  forallb P inert_chars = true -> inert c = true -> P c = true.
Proof.
  intros HP Hc. unfold inert in Hc.
  apply existsb_exists in Hc. destruct Hc as (c' & Hin & E).
  apply N.eqb_eq in E. subst c'.
  rewrite forallb_forall in HP. apply HP, Hin.
Qed.

Lemma inert_isc (c : char) (a : ascii) :
  inert (code a) = false -> inert c = true -> isc c a = false.
Proof.
  intros Ha Hc. unfold isc. destruct (N.eqb_spec c (code a)) as [->|]; [|reflexivity].
  congruence.
Qed.

Lemma inert_below (x y : mstate) :
  below x y -> inert_text (rest x) -> inert_text (rest y).
Proof.
  intros [p Hp] H. unfold inert_text in *. rewrite Hp in H.
  apply Forall_app in H. apply H.
Qed.

Lemma atom_none (p : char -> bool) (x : mstate) (k : mstate -> option mstate) :
  (forall c, inert c = true -> p c = false) ->
  inert_text (rest x) -> atom p x k = None.
Proof.
  intros Hp Hx. unfold atom.
  destruct (rest x) as [|c t]; [reflexivity|].
  inversion Hx as [|? ? Hc _]; subst. rewrite (Hp c Hc). reflexivity.
Qed.

Lemma atom_fail (p : char -> bool) (x : mstate) :
  atom p x (fun _ => None) = None.
Proof.
  unfold atom. destruct (rest x) as [|c t]; [reflexivity|].
  destruct (p c); reflexivity.
Qed.

Lemma rep_fail (mr : matcher) (gs : list nat) (greedy : bool) :
  respects mr ->
  (forall x, mr x (fun _ => None) = None) ->
  forall (fuel min : nat) (max : option nat) (x : mstate),
    rep mr gs greedy (fun _ => None) fuel min max x = None.
Proof.
  intros Hr Hmr fuel.
  induction fuel as [|fuel IH]; intros min max x; [reflexivity|].
  cbn [rep].
  destruct (max_is_zero max); [reflexivity|].
  rewrite (Hr (clear_caps gs x) _ (fun _ => None)).
  - rewrite Hmr. destruct (negb (Nat.eqb min 0)), greedy; reflexivity.
  - intros y _.
    destruct (Nat.eqb min 0 && Nat.eqb (length (rest y)) (length (rest x)))%bool;
      [reflexivity|apply IH].
Qed.

(** A matcher whose continuation always fails, fails. *)
Lemma m_fail (r : re) : forall x, m r x (fun _ => None) = None.
Proof.
  induction r as [|a| |ng items|r1 IH1 r2 IH2|r1 IH1 r2 IH2
                 |min max greedy r1 IH1|n r1 IH1|r1 IH1| |];
    intros x; cbn [m]; try apply atom_fail; try reflexivity.
  - rewrite (m_respects r1 x _ (fun _ => None)); [apply IH1|].
    intros y _. apply IH2.
  - rewrite IH1, IH2. reflexivity.
  - apply rep_fail; [apply m_respects|exact IH1].
  - apply IH1.
  - destruct (m r1 x (fun y => Some y)); reflexivity.
  - destruct (xorb _ _); reflexivity.
  - destruct (rest x); reflexivity.
Qed.

(** A pattern that needs a code unit outside the inert ones matches nowhere
    in an inert text. *)
Lemma m_needs (r : re) :
  needs r = true ->
  forall x k, inert_text (rest x) -> m r x k = None.
Proof.
  induction r as [|a| |ng items|r1 IH1 r2 IH2|r1 IH1 r2 IH2
                 |min max greedy r1 IH1|n r1 IH1|r1 IH1| |];
    cbn [needs]; intros Hn x k Hx; try discriminate; cbn [m].
  - apply atom_none; [|exact Hx].
    intros c Hc. apply inert_isc; [|exact Hc].
    destruct (inert (code a)); [discriminate|reflexivity].
  - apply atom_none; [|exact Hx].
    intros c Hc. apply negb_true_iff. exact (inert_forallb _ c Hn Hc).
  - apply orb_prop in Hn. destruct Hn as [Hn|Hn].
    + apply IH1; assumption.
    + rewrite (m_respects r1 x _ (fun _ => None)); [apply m_fail|].
      intros y Hy. apply IH2; [exact Hn|exact (inert_below x y Hy Hx)].
  - apply andb_prop in Hn. destruct Hn as [H1 H2].
    rewrite (IH1 H1 x k Hx), (IH2 H2 x k Hx). reflexivity.
  - apply andb_prop in Hn. destruct Hn as [Hn H1].
    apply andb_prop in Hn. destruct Hn as [Hmin Hmax].
    rewrite Nat.add_1_r. cbn [rep].
    apply negb_true_iff in Hmax. rewrite Hmax, Hmin.
    apply IH1; [exact H1|exact Hx].
  - apply IH1; assumption.
Qed.

Lemma text_eqb_refl (t : text) : text_eqb t t = true.
Proof. unfold text_eqb. destruct (list_eq_dec N.eq_dec t t); congruence. Qed.

Lemma inert_tail (c : char) (t : text) : inert_text (c :: t) -> inert_text t.
Proof. intros H. inversion H; assumption. Qed.

Section Needs.
Variable r : re.
Hypothesis Hr : needs r = true.

Lemma match_at_needs (p : option char) (s : text) :
  inert_text s -> match_at r p s = None.
Proof. intros H. unfold match_at. apply m_needs; assumption. Qed.

Lemma search_from_needs (s : text) :
  forall before_rev, inert_text s -> search_from r before_rev s = None.
Proof.
  induction s as [|c s IH]; intros b H; cbn [search_from];
    rewrite (match_at_needs _ _ H); [reflexivity|].
  apply IH, (inert_tail c s H).
Qed.

Lemma test_needs (s : text) : inert_text s -> test r s = false.
Proof.
  intros H. unfold test, search. rewrite (search_from_needs s [] H). reflexivity.
Qed.

Lemma match_all_from_needs (s : text) :
  forall before_rev skip, inert_text s -> match_all_from r before_rev skip s = [].
Proof.
  induction s as [|c s IH]; intros b skip H; destruct skip as [|n];
    cbn [match_all_from]; rewrite ?(match_at_needs _ _ H); try reflexivity;
    apply IH, (inert_tail c s H).
Qed.

Lemma match_all_needs (s : text) : inert_text s -> match_all r s = [].
Proof. apply match_all_from_needs. Qed.

Lemma replace_from_needs (f : rmatch -> text) (s : text) :
  forall before_rev, inert_text s -> replace_from r f before_rev 0 s = s.
Proof.
  induction s as [|c s IH]; intros b H; cbn [replace_from];
    rewrite (match_at_needs _ _ H); [reflexivity|].
  rewrite (IH _ (inert_tail c s H)). reflexivity.
Qed.

Lemma replace_fn_needs (f : rmatch -> text) (s : text) :
  inert_text s -> replace_fn r f s = s.
Proof. apply replace_from_needs. Qed.

Lemma replace_all_needs (tpl s : text) : inert_text s -> replace_all r tpl s = s.
Proof. apply replace_fn_needs. Qed.

Lemma replace_first_needs (tpl s : text) :
  inert_text s -> replace_first r tpl s = s.
Proof.
  intros H. unfold replace_first, search.
  rewrite (search_from_needs s [] H). reflexivity.
Qed.

End Needs.

Lemma apply_rules_needs (rules : list (re * text)) (t : text) :
  forallb (fun pr => needs (fst pr)) rules = true ->
  inert_text t -> apply_rules rules t = t.
Proof.
  intros Hr Ht. unfold apply_rules.
  induction rules as [|pr rules IH]; [reflexivity|].
  cbn [forallb] in Hr. apply andb_prop in Hr. destruct Hr as [H1 H2].
  cbn [fold_left]. rewrite (replace_all_needs (fst pr) H1 (snd pr) t Ht).
  apply IH, H2.
Qed.

(** The regex-driven passes on an inert text. *)
Section InertPasses.
Variable t : text.
Variable fixes : list FixReport.
Hypothesis Ht : inert_text t.


Lemma convertLiterals_inert : convertLiterals t fixes = (t, fixes).
Proof.
  unfold convertLiterals, literalReplacements. cbn [fold_left fst snd].
  rewrite !test_needs by (needs_tac || exact Ht). reflexivity.
Qed.

Lemma convertHexNumbers_inert : convertHexNumbers t fixes = (t, fixes).
Proof.
  unfold convertHexNumbers.
  rewrite test_needs, replace_fn_needs by (needs_tac || exact Ht). reflexivity.
Qed.

Lemma fixDuplicateDelimiters_inert : fixDuplicateDelimiters t fixes = (t, fixes).
Proof.
  unfold fixDuplicateDelimiters.
  rewrite apply_rules_needs by (needs_tac || exact Ht).
  rewrite text_eqb_refl. reflexivity.
Qed.

Lemma fixUnescapedQuotes_inert : fixUnescapedQuotes t fixes = (t, fixes).
Proof.
  unfold fixUnescapedQuotes.
  rewrite match_all_needs, replace_fn_needs by (needs_tac || exact Ht).
  reflexivity.
Qed.

Lemma fixEscapeSequences_inert : fixEscapeSequences t fixes = (t, fixes).
Proof.
  unfold fixEscapeSequences.
  rewrite (replace_all_needs hexEscape) by (needs_tac || exact Ht).
  rewrite replace_fn_needs by (needs_tac || exact Ht).
  rewrite text_eqb_refl. reflexivity.
Qed.

Lemma quoteUnquotedKeys_inert : quoteUnquotedKeys t fixes = (t, fixes).
Proof.
  unfold quoteUnquotedKeys.
  rewrite replace_all_needs by (needs_tac || exact Ht).
  rewrite text_eqb_refl. reflexivity.
Qed.

Lemma fixMissingCommas_inert : fixMissingCommas t fixes = (t, fixes).
Proof.
  unfold fixMissingCommas.
  rewrite apply_rules_needs by (needs_tac || exact Ht).
  rewrite text_eqb_refl. reflexivity.
Qed.

Lemma fixDoubleCommas_inert : fixDoubleCommas t fixes = (t, fixes).
Proof.
  unfold fixDoubleCommas.
  rewrite apply_rules_needs by (needs_tac || exact Ht).
  rewrite text_eqb_refl. reflexivity.
Qed.

Lemma fixTrailingCommas_inert : fixTrailingCommas t fixes = (t, fixes).
Proof.
  unfold fixTrailingCommas.
  rewrite apply_rules_needs by (needs_tac || exact Ht).
  rewrite text_eqb_refl. reflexivity.
Qed.

Lemma removeDanglingArtifacts_inert : removeDanglingArtifacts t fixes = (t, fixes).
Proof.
  unfold removeDanglingArtifacts.
  rewrite (replace_first_needs danglingColon) by (needs_tac || exact Ht).
  rewrite replace_first_needs by (needs_tac || exact Ht).
  rewrite text_eqb_refl. reflexivity.
Qed.

Lemma unescapeStringifiedJSON_inert : unescapeStringifiedJSON t fixes = (t, fixes).
Proof.
  unfold unescapeStringifiedJSON. cbn [unescape_loop].
  rewrite match_all_needs, replace_fn_needs by (needs_tac || exact Ht).
  reflexivity.
Qed.

End InertPasses.

Lemma inert_text_rev (t : text) : inert_text t -> inert_text (rev t).
Proof. apply Forall_rev. Qed.

Lemma inert_drop_while (p : char -> bool) (t : text) :
  inert_text t -> inert_text (drop_while p t).
Proof.
  induction t as [|c t IH]; intros H; cbn [drop_while]; [exact H|].
  destruct (p c); [apply IH, (inert_tail c t H)|exact H].
Qed.

Lemma inert_trim (t : text) : inert_text t -> inert_text (trim t).
Proof.
  intros H. unfold trim, trim_end, trim_start.
  apply inert_text_rev, inert_drop_while, inert_text_rev, inert_drop_while, H.
Qed.

Lemma starts_with_inert (k : char) (p t : text) :
  inert k = false -> inert_text t -> starts_with (k :: p) t = false.
Proof.
  intros Hk Ht. destruct t as [|c t]; [reflexivity|].
  cbn [starts_with]. inversion Ht as [|? ? Hc _]; subst.
  destruct (N.eqb_spec k c) as [->|]; [congruence|reflexivity].
Qed.

Lemma includes_inert (k : char) (p t : text) :
  inert k = false -> inert_text t -> includes (k :: p) t = false.
Proof.
  intros Hk Ht. induction t as [|c t IH]; cbn [includes].
  - reflexivity.
  - rewrite (starts_with_inert k p (c :: t) Hk Ht).
    apply IH, (inert_tail c t Ht).
Qed.

Lemma ends_with_inert (k : char) (t : text) :
  inert k = false -> inert_text t -> ends_with [k] t = false.
Proof.
  intros Hk Ht. unfold ends_with. cbn [rev app].
  apply starts_with_inert; [exact Hk|apply inert_text_rev, Ht].
Qed.

Lemma split_on_inert (t : text) : inert_text t -> split_on NL t = [t].
Proof.
  induction t as [|c t IH]; intros H; [reflexivity|].
  cbn [split_on]. inversion H as [|? ? Hc Ht]; subst.
  replace (N.eqb c NL) with false.
  - rewrite (IH Ht). reflexivity.
  - symmetry. destruct (N.eqb_spec c NL) as [->|]; [discriminate Hc|reflexivity].
Qed.

Lemma line_comment_at_inert (line : text) :
  forall (inString escaped : bool) (i : nat),
    inert_text line -> line_comment_at inString escaped i line = None.
Proof.
  induction line as [|c line IH]; intros inS esc i H; [reflexivity|].
  destruct line as [|c2 line]; [reflexivity|].
  rewrite line_comment_at_step.
  inversion H as [|? ? Hc Hl]; subst.
  rewrite (inert_isc c "\" eq_refl Hc), (inert_isc c "`" eq_refl Hc),
    (inert_isc c "/" eq_refl Hc).
  cbn zeta. rewrite andb_false_r. cbn [andb].
  destruct esc; apply IH, Hl.
Qed.

Lemma single_quotes_loop_inert (t : text) :
  inert_text t -> single_quotes_loop 0 t = (t, false).
Proof.
  induction t as [|c t IH]; intros H; [reflexivity|].
  inversion H as [|? ? Hc Ht]; subst.
  cbn [single_quotes_loop]. rewrite (inert_isc c "'" eq_refl Hc), (IH Ht).
  reflexivity.
Qed.

Lemma open_step_inert (st : list char) (c : char) :
  inert c = true -> open_step (OS st false false) c = OS st false false.
Proof.
  intros Hc. unfold open_step. cbn [escapeNext stringMode openStack].
  rewrite (inert_isc c "\" eq_refl Hc), (inert_isc c "`" eq_refl Hc),
    (inert_isc c "{" eq_refl Hc), (inert_isc c "[" eq_refl Hc),
    (inert_isc c "}" eq_refl Hc), (inert_isc c "]" eq_refl Hc).
  reflexivity.
Qed.

Lemma open_scan_inert (st : list char) (t : text) :
  inert_text t -> open_scan (OS st false false) t = OS st false false.
Proof.
  unfold open_scan.
  induction t as [|c t IH]; intros H; [reflexivity|].
  inversion H as [|? ? Hc Ht]; subst.
  cbn [fold_left]. rewrite (open_step_inert st c Hc). apply IH, Ht.
Qed.

Lemma roots_step_inert (bc : Z) (s : nat) (secs : list (nat * nat))
    (i : nat) (c : char) :
  inert c = true ->
  roots_step (RS bc s false false secs) i c = RS bc s false false secs.
Proof.
  intros Hc. unfold roots_step.
  cbn [rs_escaped rs_inString braceCount start objectSections].
  rewrite (inert_isc c "\" eq_refl Hc), (inert_isc c "`" eq_refl Hc),
    (inert_isc c "{" eq_refl Hc), (inert_isc c "}" eq_refl Hc).
  reflexivity.
Qed.

Lemma roots_scan_inert (bc : Z) (s : nat) (secs : list (nat * nat)) (t : text) :
  forall i, inert_text t ->
            roots_scan (RS bc s false false secs) i t = RS bc s false false secs.
Proof.
  induction t as [|c t IH]; intros i H; [reflexivity|].
  inversion H as [|? ? Hc Ht]; subst.
  cbn [roots_scan]. rewrite (roots_step_inert bc s secs i c Hc). apply IH, Ht.
Qed.

Section InertScans.
Variable t : text.
Variable fixes : list FixReport.
Hypothesis Ht : inert_text t.


Lemma removeBOM_inert : removeBOM t fixes = (t, fixes).
Proof.
  unfold removeBOM. destruct t as [|c t']; [reflexivity|].
  inversion Ht as [|? ? Hc _]; subst.
  destruct (N.eqb_spec c BOM) as [->|]; [discriminate Hc|reflexivity].
Qed.

Lemma removeComments_inert : removeComments t fixes = (t, fixes).
Proof.
  unfold removeComments.
  rewrite test_needs by (needs_tac || exact Ht).
  rewrite (split_on_inert t Ht). cbn [map join].
  unfold strip_line_comment. rewrite (line_comment_at_inert t false false 0 Ht).
  rewrite text_eqb_refl. reflexivity.
Qed.

Lemma fixSingleQuotes_inert : fixSingleQuotes t fixes = (t, fixes).
Proof.
  unfold fixSingleQuotes. rewrite (single_quotes_loop_inert t Ht). reflexivity.
Qed.

Lemma balanceBrackets_inert : balanceBrackets t fixes = (t, fixes).
Proof.
  unfold balanceBrackets.
  change (js ":") with [code ":"]. change (js ",") with [code ","].
  change (js "[") with [code "["]. change (js "}") with [code "}"].
  rewrite (ends_with_inert (code ":") t eq_refl Ht).
  rewrite test_needs by (needs_tac || exact Ht).
  rewrite (includes_inert (code "[") [] t eq_refl Ht). cbn [andb].
  rewrite (ends_with_inert (code ",") t eq_refl Ht).
  rewrite test_needs by (needs_tac || exact Ht). cbn [orb].
  rewrite (open_scan_inert [] t Ht). reflexivity.
Qed.

Lemma handleMultipleRoots_inert : handleMultipleRoots t fixes = (t, fixes).
Proof.
  unfold handleMultipleRoots.
  pose proof (inert_trim t Ht) as Hs.
  rewrite (roots_scan_inert 0 0 [] (trim t) 0 Hs).
  cbn [objectSections rev map filter length Nat.ltb Nat.leb andb].
  rewrite (includes_inert (code "}") _ (trim t) eq_refl Hs).
  change (js "}," ++ NL :: js "{") with (code "}" :: (js "," ++ NL :: js "{")).
  rewrite (includes_inert (code "}") _ (trim t) eq_refl Hs).
  reflexivity.
Qed.

End InertScans.

Lemma run_passes_fixed (ps : list pass) (t : text) :
  Forall (fun p : pass => forall fixes, p t fixes = (t, fixes)) ps ->
  forall fixes, run_passes ps t fixes = (t, fixes).
Proof.
  unfold run_passes.
  induction 1 as [|p ps Hp _ IH]; intros fixes; [reflexivity|].
  cbn [fold_left fst snd]. rewrite Hp. apply IH.
Qed.

(** No pass changes an inert text or records a fix for it. *)
Lemma run_passes_inert (t : text) (fixes : list FixReport) :
  inert_text t -> run_passes passes t fixes = (t, fixes).
Proof.
  intros Ht. apply run_passes_fixed. unfold passes.
  repeat apply Forall_cons; try apply Forall_nil; intros fx.
  - apply removeBOM_inert, Ht.
  - apply removeComments_inert, Ht.
  - apply convertLiterals_inert, Ht.
  - apply convertHexNumbers_inert, Ht.
  - apply fixDuplicateDelimiters_inert, Ht.
  - apply fixSingleQuotes_inert, Ht.
  - apply fixUnescapedQuotes_inert, Ht.
  - apply fixEscapeSequences_inert, Ht.
  - apply quoteUnquotedKeys_inert, Ht.
  - apply fixMissingCommas_inert, Ht.
  - apply fixDoubleCommas_inert, Ht.
  - apply fixTrailingCommas_inert, Ht.
  - apply balanceBrackets_inert, Ht.
  - apply handleMultipleRoots_inert, Ht.
  - apply removeDanglingArtifacts_inert, Ht.
  - apply unescapeStringifiedJSON_inert, Ht.
Qed.

(** A number, [true], [false] or [null] is an inert text: [fix] returns it
    trimmed, with no fix recorded. *)
Lemma fix_inert_valid_text (t : text) (v : value) :
  inert_text t ->
  JSON_parse t = Some v ->
  fix_ t = Normal (mkResult true (Some (trim t)) None []).
Proof.
  intros Hi Hv.
  exact (fix_untouched t v (JSON_parse_trim t v Hv) (run_passes_inert t [] Hi)).
Qed.

(* ================================================================== *)
(** ** Trimmed texts and the repaired text *)



Lemma drop_while_head (t : text) : head_ok (drop_while is_space t) = true.
Proof.
  induction t as [|c t IH]; [reflexivity|].
  cbn [drop_while]. destruct (is_space c) eqn:E; [exact IH|].
  cbn [head_ok]. rewrite E. reflexivity.
Qed.

Lemma drop_while_id (t : text) :
  head_ok t = true -> drop_while is_space t = t.
Proof.
  destruct t as [|c t]; [reflexivity|].
  cbn [head_ok drop_while]. destruct (is_space c); [discriminate|reflexivity].
Qed.

Lemma drop_while_snoc (l : text) (c : char) :
  is_space c = false ->
  drop_while is_space (l ++ [c]) = drop_while is_space l ++ [c].
Proof.
  intros Hc. induction l as [|a l IH]; cbn [app drop_while].
  - rewrite Hc. reflexivity.
  - destruct (is_space a); [exact IH|reflexivity].
Qed.

Lemma trimmed_trim (t : text) : trimmed (trim t) = true.
Proof.
  unfold trimmed, trim, trim_end, trim_start.
  rewrite rev_involutive, drop_while_head, andb_true_r.
  pose proof (drop_while_head t) as H.
  destruct (drop_while is_space t) as [|c u]; [reflexivity|].
  cbn [head_ok] in H. apply negb_true_iff in H.
  cbn [rev]. rewrite (drop_while_snoc (rev u) c H), rev_app_distr.
  cbn [rev app head_ok]. rewrite H. reflexivity.
Qed.

Lemma trim_trimmed (t : text) : trimmed t = true -> trim t = t.
Proof.
  unfold trimmed. intros H. apply andb_prop in H. destruct H as [H1 H2].
  unfold trim, trim_end, trim_start.
  rewrite (drop_while_id t H1), (drop_while_id (rev t) H2).
  apply rev_involutive.
Qed.

Lemma trimmed_wrap (a b : char) (u : text) :
  is_space a = false -> is_space b = false -> trimmed (a :: u ++ [b]) = true.
Proof.
  intros Ha Hb. unfold trimmed. cbn [head_ok rev].
  rewrite rev_app_distr. cbn [rev app head_ok]. rewrite Ha, Hb. reflexivity.
Qed.

Lemma trimmed_snoc (u : text) (b : char) :
  trimmed u = true -> u <> [] -> is_space b = false ->
  trimmed (u ++ [b]) = true.
Proof.
  intros H Hu Hb. unfold trimmed in *.
  apply andb_prop in H. destruct H as [H1 _].
  rewrite rev_app_distr. cbn [rev app head_ok]. rewrite Hb.
  destruct u as [|c u]; [congruence|].
  cbn [app head_ok] in *. rewrite H1. reflexivity.
Qed.

Lemma pipeline_trimmed (s : text) : trimmed (fst (pipeline s)) = true.
Proof.
  unfold pipeline. destruct (run_passes passes s []) as [fixed fx].
  apply trimmed_trim.
Qed.

Lemma includes_nonempty (p u : text) :
  p <> [] -> includes p u = true -> u <> [].
Proof.
  intros Hp H E. subst u. destruct p; [congruence|discriminate H].
Qed.

Lemma finalFixAttempt_trimmed (t r : text) :
  finalFixAttempt t = Normal r -> trimmed r = true.
Proof.
  unfold finalFixAttempt.
  pose proof (trimmed_trim t) as Hr.
  set (result := trim t) in *.
  assert (Tail :
    (if (includes (js ":") result
         && negb (starts_with (js "{") (trim result))
         && negb (starts_with (js "[") (trim result)))%bool
     then Normal (js "{" ++ result ++ js "}")
     else if (includes (js "{") result && negb (includes (js "}") result))%bool
     then Normal (result ++ js "}")
     else if (includes (js "[") result && negb (includes (js "]") result))%bool
     then Normal (result ++ js "]")
     else Normal result) = Normal r -> trimmed r = true).
  { destruct (includes (js ":") result && _ && _)%bool;
      [intros [= <-]; apply (trimmed_wrap 123%N 125%N); reflexivity|].
    destruct (includes (js "{") result && _)%bool eqn:I1.
    - intros [= <-]. apply andb_prop in I1. destruct I1 as [I1 _].
      apply trimmed_snoc; [exact Hr| |reflexivity].
      apply (includes_nonempty (js "{")); [discriminate|exact I1].
    - destruct (includes (js "[") result && _)%bool eqn:I2;
        intros [= <-]; [|exact Hr].
      apply andb_prop in I2. destruct I2 as [I2 _].
      apply trimmed_snoc; [exact Hr| |reflexivity].
      apply (includes_nonempty (js "[")); [discriminate|exact I2]. }
  destruct (text_eqb result [] || text_eqb result (js "``"))%bool;
    [intros [= <-]; reflexivity|].
  destruct (starts_with (js "//") result && negb (includes (js "{") result)
            && negb (includes (js "[") result))%bool;
    [intros [= <-]; reflexivity|].
  destruct (negb _ && _)%bool; [discriminate|].
  cbv zeta.
  destruct (negb (includes (js "{") result) && negb (includes (js "[") result)
            && negb (includes (js "`") result))%bool; [|exact Tail].
  destruct (text_eqb (trim result) (js "true") || _ || _)%bool;
    [intros [= <-]; apply trimmed_trim|].
  destruct (is_numeric (trim result) && _)%bool;
    [intros [= <-]; apply trimmed_trim|].
  destruct (negb (text_eqb (trim result) []) && _)%bool; [|exact Tail].
  intros [= <-]. apply (trimmed_wrap 34%N 34%N); reflexivity.
Qed.

Lemma fix_try_output_trimmed (s : text) (r : FixResult) (d : text) :
  fix_try s = Normal r -> data r = Some d -> trimmed d = true.
Proof.
  unfold fix_try.
  pose proof (pipeline_trimmed s) as Hp.
  destruct (pipeline s) as [fixed fx]. cbn [fst] in Hp.
  destruct (p_success (parse fixed)).
  - intros [= <-] [= <-]. exact Hp.
  - destruct (finalFixAttempt fixed) as [fa|e] eqn:F; [|discriminate].
    destruct (p_success (parse fa)); intros [= <-]; [|discriminate].
    intros [= <-]. exact (finalFixAttempt_trimmed fixed fa F).
Qed.

(** The repaired text of [fix] neither starts nor ends with a code unit of
    [\s]. *)
Lemma fix_output_trimmed (s : text) (r : FixResult) (d : text) :
  fix_ s = Normal r -> data r = Some d -> trimmed d = true.
Proof.
  unfold fix_.
  destruct (fix_try s) as [r'|e] eqn:E; cbn [try_catch].
  - intros [= <-]. exact (fix_try_output_trimmed s r' d E).
  - intros [= <-]. discriminate.
Qed.

Lemma removeBOM_trimmed (d : text) (fixes : list FixReport) :
  trimmed d = true -> removeBOM d fixes = (d, fixes).
Proof.
  unfold trimmed, removeBOM. intros H.
  apply andb_prop in H. destruct H as [H _].
  destruct d as [|c d]; [reflexivity|].
  cbn [head_ok] in H.
  destruct (N.eqb_spec c BOM) as [->|]; [discriminate H|reflexivity].
Qed.

(* ================================================================== *)
(** ** The orchestrator on the examples of the specification *)

Lemma open_scan_openers (os : list bool) (st : list char) :
  open_scan (OS st false false) (map opener os)
  = OS (rev (map closer_of os) ++ st) false false.
Proof.
  revert st.
  induction os as [|o os IH]; intros st; [reflexivity|].
  cbn [map rev]. unfold open_scan in *. cbn [fold_left].
  replace (open_step (OS st false false) (opener o))
    with (OS (closer_of o :: st) false false) by (destruct o; reflexivity).
  rewrite IH, <- app_assoc. reflexivity.
Qed.


(* ================================================================== *)
(** ** Multiple roots *)


Lemma roots_step_quote (bc : Z) (st : nat) (ins : bool)
    (secs : list (nat * nat)) (i : nat) :
  roots_step (RS bc st ins false secs) i DQ = RS bc st (negb ins) false secs.
Proof. reflexivity. Qed.

Lemma roots_scan_literal (body : text) (bc : Z) (st : nat)
    (secs : list (nat * nat)) (i : nat) :
  string_body body = true ->
  roots_scan (RS bc st false false secs) i (DQ :: body ++ [DQ])
  = RS bc st false false secs.
Proof.
  intros Hb. cbn [roots_scan]. rewrite roots_step_quote. cbn [negb].
  rewrite roots_scan_app.
  rewrite (roots_scan_string_body (length body) body bc st secs (S i)
             (le_n _) Hb).
  cbn [roots_scan]. rewrite roots_step_quote. reflexivity.
Qed.













(** *** A literal in its text *)

Lemma open_scan_literal (body : text) (stack : list char) :
  string_body body = true ->
  open_scan (OS stack false false) (literal body) = OS stack false false.
Proof.
  intros Hb. unfold literal. change (DQ :: body ++ [DQ]) with ([DQ] ++ body ++ [DQ]).
  rewrite !open_scan_app.
  change (open_scan (OS stack false false) [DQ]) with (OS stack true false).
  rewrite (open_scan_string_body (length body) body stack (le_n _) Hb).
  reflexivity.
Qed.

Lemma mismatch_scan_literal (body : text) (stack : list (char * nat))
    (cs : list (nat * char * char)) (i : nat) :
  string_body body = true ->
  mismatch_scan (MS stack false false cs) i (literal body)
  = MS stack false false cs.
Proof.
  intros Hb. unfold literal. cbn [mismatch_scan].
  change (mismatch_step (MS stack false false cs) i DQ)
    with (MS stack true false cs).
  rewrite mismatch_scan_app.
  rewrite (mismatch_scan_string_body (length body) body stack cs (S i)
             (le_n _) Hb).
  reflexivity.
Qed.

Lemma open_step_plain (stack : list char) (c : char) :
  negb (isc c "`" || isc c "\") = true ->
  exists stack', open_step (OS stack false false) c = OS stack' false false.
Proof.
  intros H. apply negb_true_iff, orb_false_iff in H. destruct H as [Hq Hb].
  unfold open_step. cbn [escapeNext stringMode openStack]. rewrite Hb, Hq.
  destruct (isc c "{"); [eexists; reflexivity|].
  destruct (isc c "["); [eexists; reflexivity|].
  destruct (isc c "}" || isc c "]")%bool; eexists; reflexivity.
Qed.

Lemma mismatch_step_plain (stack : list (char * nat))
    (cs : list (nat * char * char)) (i : nat) (c : char) :
  negb (isc c "`" || isc c "\") = true ->
  exists stack' cs',
    mismatch_step (MS stack false false cs) i c = MS stack' false false cs'.
Proof.
  intros H. apply negb_true_iff, orb_false_iff in H. destruct H as [Hq Hb].
  unfold mismatch_step. cbn [ms_escaped ms_inString ms_stack ms_corrections].
  rewrite Hb, Hq.
  destruct (isc c "{"); [do 2 eexists; reflexivity|].
  destruct (isc c "["); [do 2 eexists; reflexivity|].
  destruct (isc c "}" || isc c "]")%bool; [|do 2 eexists; reflexivity].
  destruct stack as [|e stack]; [do 2 eexists; reflexivity|].
  destruct (negb (N.eqb (fst e) c)); do 2 eexists; reflexivity.
Qed.

Lemma roots_step_plain' (bc : Z) (st : nat) (secs : list (nat * nat))
    (i : nat) (c : char) :
  negb (isc c "`" || isc c "\") = true ->
  exists bc' st' secs',
    roots_step (RS bc st false false secs) i c = RS bc' st' false false secs'.
Proof.
  intros H. apply negb_true_iff, orb_false_iff in H. destruct H as [Hq Hb].
  unfold roots_step. cbn [rs_escaped rs_inString braceCount start
                          objectSections].
  rewrite Hb, Hq.
  destruct (isc c "{"); [do 3 eexists; reflexivity|].
  destruct (isc c "}"); do 3 eexists; reflexivity.
Qed.

(** In a well-quoted text the scans are outside a string between the
    pieces. *)
Lemma open_scan_pieces (ps : list piece) :
  well_quoted ps = true ->
  forall stack, exists stack',
    open_scan (OS stack false false) (pieces_text ps) = OS stack' false false.
Proof.
  unfold well_quoted, pieces_text.
  induction ps as [|p ps IH]; intros Hok stack; [exists stack; reflexivity|].
  cbn [forallb] in Hok. apply andb_prop in Hok. destruct Hok as [H1 H2].
  cbn [flat_map]. rewrite open_scan_app.
  destruct p as [c|body]; cbn [piece_ok piece_text] in *.
  - destruct (open_step_plain stack c H1) as (stack1 & E).
    unfold open_scan at 2. cbn [fold_left]. rewrite E. apply IH, H2.
  - rewrite (open_scan_literal body stack H1). apply IH, H2.
Qed.

Lemma mismatch_scan_pieces (ps : list piece) :
  well_quoted ps = true ->
  forall stack cs i, exists stack' cs',
    mismatch_scan (MS stack false false cs) i (pieces_text ps)
    = MS stack' false false cs'.
Proof.
  unfold well_quoted, pieces_text.
  induction ps as [|p ps IH]; intros Hok stack cs i;
    [exists stack, cs; reflexivity|].
  cbn [forallb] in Hok. apply andb_prop in Hok. destruct Hok as [H1 H2].
  cbn [flat_map]. rewrite mismatch_scan_app.
  destruct p as [c|body]; cbn [piece_ok piece_text] in *.
  - destruct (mismatch_step_plain stack cs i c H1) as (stack1 & cs1 & E).
    cbn [mismatch_scan]. rewrite E. apply IH, H2.
  - rewrite (mismatch_scan_literal body stack cs i H1). apply IH, H2.
Qed.

Lemma roots_scan_pieces (ps : list piece) :
  well_quoted ps = true ->
  forall bc st secs i, exists bc' st' secs',
    roots_scan (RS bc st false false secs) i (pieces_text ps)
    = RS bc' st' false false secs'.
Proof.
  unfold well_quoted, pieces_text.
  induction ps as [|p ps IH]; intros Hok bc st secs i;
    [exists bc, st, secs; reflexivity|].
  cbn [forallb] in Hok. apply andb_prop in Hok. destruct Hok as [H1 H2].
  cbn [flat_map]. rewrite roots_scan_app.
  destruct p as [c|body]; cbn [piece_ok piece_text] in *.
  - destruct (roots_step_plain' bc st secs i c H1) as (bc1 & st1 & secs1 & E).
    cbn [roots_scan]. rewrite E. apply IH, H2.
  - unfold literal. rewrite (roots_scan_literal body bc st secs i H1).
    apply IH, H2.
Qed.

(** The comment loop over a literal. *)
Lemma line_comment_literal (body post : text) (i : nat) :
  string_body body = true ->
  line_comment_at false false i (literal body ++ post)
  = line_comment_at false false (i + length (literal body)) post.
Proof.
  intros Hb. unfold literal. cbn [app length].
  rewrite length_app. cbn [length].
  destruct (body ++ [DQ] ++ post) as [|x l] eqn:E.
  { destruct body; discriminate E. }
  rewrite <- app_assoc. cbn [app] in E |- *. rewrite E.
  rewrite line_comment_at_step. cbn [negb andb].
  change (isc DQ "\") with false. change (isc DQ "`") with true.
  cbn match. cbn [negb andb]. rewrite <- E.
  rewrite (line_comment_string_body (length body) body (DQ :: post) (S i)
             (le_n _) Hb).
  destruct post as [|y post].
  - cbn [line_comment_at]. reflexivity.
  - rewrite line_comment_at_step.
    change (isc DQ "\") with false. change (isc DQ "`") with true.
    change (isc DQ "/") with false.
    cbn match. cbn [negb andb]. f_equal. lia.
Qed.

(** The comment loop over a well-quoted text in front of the rest of the
    line: either it finds a comment start in it, looking one code unit
    ahead, or it goes on behind it, outside a string. *)
Lemma line_comment_pieces (ps : list piece) :
  well_quoted ps = true ->
  forall (i : nat) (c : char) (rest : text),
    line_comment_at false false i (pieces_text ps ++ c :: rest)
    = match line_comment_at false false i (pieces_text ps ++ [c]) with
      | Some j => Some j
      | None =>
          line_comment_at false false (i + length (pieces_text ps)) (c :: rest)
      end.
Proof.
  unfold well_quoted, pieces_text.
  induction ps as [|p ps IH]; intros Hok i c rest.
  - cbn [flat_map app length]. rewrite Nat.add_0_r. reflexivity.
  - cbn [forallb] in Hok. apply andb_prop in Hok. destruct Hok as [H1 H2].
    cbn [flat_map]. rewrite <- !app_assoc.
    destruct p as [a|body]; cbn [piece_ok piece_text] in *.
    + apply negb_true_iff, orb_false_iff in H1. destruct H1 as [Hq Hb].
      cbn [app length].
      destruct (flat_map piece_text ps ++ c :: rest) as [|x l] eqn:E1.
      { destruct (flat_map piece_text ps); discriminate E1. }
      destruct (flat_map piece_text ps ++ [c]) as [|x' l'] eqn:E2.
      { destruct (flat_map piece_text ps); discriminate E2. }
      assert (x' = x) as ->.
      { destruct (flat_map piece_text ps); cbn [app] in E1, E2; congruence. }
      rewrite !line_comment_at_step, Hb, Hq. cbn [negb andb].
      destruct (isc a "/" && isc x "/")%bool; [reflexivity|].
      rewrite <- E1, <- E2, (IH H2 (S i) c rest).
      replace (S i + length (flat_map piece_text ps))
        with (i + S (length (flat_map piece_text ps))) by lia.
      reflexivity.
    + rewrite !(line_comment_literal body _ i H1), (IH H2 _ c rest).
      rewrite length_app, Nat.add_assoc. reflexivity.
Qed.

(** C2, as stated, fails.  The regex-driven passes work on the whole text:
    in an array that holds one string literal, literal substitution, hex
    conversion, duplicate-delimiter collapse, comma insertion and the
    removal of block comments each change the content between the quotes.
    The loop of the single-quote pass pairs single quotes wherever they
    stand, also inside double-quoted literals.  The loops that track a
    string flag flip it at every double quote: after a double quote inside
    a single-quoted string they take the inside of the next literal for the
    outside, and comment removal cuts the literal [http://x.y] at its
    slashes. *)
Lemma passes_change_string_contents :
  JSON_parse (js "[`None`]") = Some (JArray [JString (js "None")])
  /\ fst (convertLiterals (js "[`None`]") []) = js "[`null`]"
  /\ fst (convertHexNumbers (js "[`0x10`]") []) = js "[`16`]"
  /\ fst (fixDuplicateDelimiters (js "[`{{`]") []) = js "[`{`]"
  /\ fst (fixMissingCommas (js "[`a 1 b:`]") []) = js "[`a 1, b:`]"
  /\ fst (removeComments (js "[`/* x */`]") []) = js "[` `]"
  /\ fst (fixSingleQuotes (js "[`it's`,`don't`]") []) = js "[`it`s`,`don`t`]"
  /\ fst (removeComments (js "{'size': '5` disk', `url`: `http://x.y`}") [])
     = js "{'size': '5` disk', `url`: `http:".
Proof. repeat split; vm_compute; reflexivity. Qed.

(** C2, amended.  The loops that track a string flag (the two stack scans
    of bracket balancing, the brace count of the multi-root pass and the
    comment detection of a line) do not treat the characters of a string
    literal as structural when every double quote before the literal
    delimits a literal and no backslash stands outside the literals: for a
    well-quoted text in front, the scans are in the same state after the
    literal as before it, and the comment loop either has found its
    comment start before the literal or goes on behind it.  (Nothing is
    stated for a literal behind a stray double quote or backslash, and none
    of the other passes is string-aware.) *)
Theorem scanners_pass_over_literals (ps : list piece) (body post : text) :
  well_quoted ps = true ->
  string_body body = true ->
  (forall stack,
      open_scan (OS stack false false) (pieces_text ps ++ literal body ++ post)
      = open_scan (open_scan (OS stack false false) (pieces_text ps)) post)
  /\ (forall stack cs i,
         mismatch_scan (MS stack false false cs) i
           (pieces_text ps ++ literal body ++ post)
         = mismatch_scan
             (mismatch_scan (MS stack false false cs) i (pieces_text ps))
             (i + length (pieces_text ps) + length (literal body)) post)
  /\ (forall bc st secs i,
         roots_scan (RS bc st false false secs) i
           (pieces_text ps ++ literal body ++ post)
         = roots_scan
             (roots_scan (RS bc st false false secs) i (pieces_text ps))
             (i + length (pieces_text ps) + length (literal body)) post)
  /\ (forall i,
         line_comment_at false false i (pieces_text ps ++ literal body ++ post)
         = match line_comment_at false false i (pieces_text ps ++ [DQ]) with
           | Some j => Some j
           | None =>
               line_comment_at false false
                 (i + length (pieces_text ps) + length (literal body)) post
           end).
Proof.
  intros Hps Hb. repeat split.
  - intros stack. rewrite !open_scan_app.
    destruct (open_scan_pieces ps Hps stack) as (stack' & ->).
    rewrite (open_scan_literal body stack' Hb). reflexivity.
  - intros stack cs i. rewrite !mismatch_scan_app.
    destruct (mismatch_scan_pieces ps Hps stack cs i) as (stack' & cs' & ->).
    rewrite (mismatch_scan_literal body stack' cs' _ Hb). reflexivity.
  - intros bc st secs i. rewrite !roots_scan_app.
    destruct (roots_scan_pieces ps Hps bc st secs i) as (bc' & st' & secs' & ->).
    unfold literal at 1.
    rewrite (roots_scan_literal body bc' st' secs' _ Hb). reflexivity.
  - intros i.
    assert (E : literal body ++ post = DQ :: (body ++ [DQ] ++ post)).
    { unfold literal. cbn [app]. rewrite <- app_assoc. reflexivity. }
    rewrite E, (line_comment_pieces ps Hps i DQ (body ++ [DQ] ++ post)).
    destruct (line_comment_at false false i (pieces_text ps ++ [DQ]));
      [reflexivity|].
    rewrite <- E, (line_comment_literal body post _ Hb). reflexivity.
Qed.

Lemma scanners_pass_over_literals_witness :
  let ps := [Plain (code "{"); Lit (js "k"); Plain (code ":"); Plain (code "[")] in
  let body := js "a // {[ \` ]} b" in
  let post := js "]} // c" in
  well_quoted ps = true
  /\ string_body body = true
  /\ pieces_text ps ++ literal body ++ post
     = js "{`k`:[`a // {[ \` ]} b`]} // c"
  /\ openStack (open_scan (OS [] false false)
                  (pieces_text ps ++ literal body ++ post)) = []
  /\ line_comment_at false false 0 (pieces_text ps ++ literal body ++ post)
     = Some 26.
Proof.
  intros ps body post.
  assert (H1 : well_quoted ps = true) by reflexivity.
  assert (H2 : string_body body = true) by reflexivity.
  split; [exact H1|]. split; [exact H2|]. split; [reflexivity|].
  destruct (scanners_pass_over_literals ps body post H1 H2)
    as (Ho & _ & _ & Hl).
  split.
  - rewrite (Ho []). vm_compute. reflexivity.
  - rewrite (Hl 0). vm_compute. reflexivity.
Defined.

(** The last resort refuses prose: a text without JSON punctuation that
    splits into more than three pieces at blanks. *)
Lemma text_eqb_neq (a b : text) : a <> b -> text_eqb a b = false.
Proof.
  intros H. unfold text_eqb.
  destruct (list_eq_dec N.eq_dec a b); [contradiction|reflexivity].
Qed.

Lemma finalFixAttempt_rejects_prose (t : text) :
  trim t <> [] ->
  starts_with (js "//") (trim t) = false ->
  includes (js "{") (trim t) = false ->
  includes (js "[") (trim t) = false ->
  includes (js ":") (trim t) = false ->
  includes (js "`") (trim t) = false ->
  3 < length (split_on 32%N (trim t)) ->
  finalFixAttempt t
  = Throw (JsError "Input appears to be plain text, not malformed JSON").
Proof.
  intros Hne Hc H1 H2 H3 H4 Hw. unfold finalFixAttempt.
  rewrite Hc, H1, H2, H3, H4. cbn [andb orb negb].
  rewrite (text_eqb_neq (trim t) [] Hne).
  rewrite (text_eqb_neq (trim t) (js "``")).
  - cbn [orb]. apply Nat.ltb_lt in Hw. rewrite Hw. reflexivity.
  - intros E. rewrite E in H4. discriminate H4.
Qed.

(* ================================================================== *)
(** ** Prose and the last resort *)







(** *** Prose is no JSON text *)

Lemma span_digits_spec (s : text) :
  s = fst (span_digits s) ++ snd (span_digits s)
  /\ forallb number_char (fst (span_digits s)) = true.
Proof.
  induction s as [|c s [IH1 IH2]]; [split; reflexivity|].
  cbn [span_digits]. destruct (is_digit c) eqn:D.
  - destruct (span_digits s) as [d r]. cbn [fst snd app forallb] in *.
    split; [congruence|]. unfold number_char at 1. rewrite D. exact IH2.
  - split; reflexivity.
Qed.

Lemma reads_refl (s : text) : reads s s.
Proof. exists []. split; reflexivity. Qed.

Lemma reads_trans (a b c : text) : reads a b -> reads b c -> reads a c.
Proof.
  intros (p & -> & Hp) (q & -> & Hq). exists (p ++ q).
  rewrite app_assoc, forallb_app, Hp, Hq. split; reflexivity.
Qed.

Lemma reads_cons (c : char) (s s' : text) :
  number_char c = true -> reads s s' -> reads (c :: s) s'.
Proof.
  intros Hc (p & -> & Hp). exists (c :: p). cbn [app forallb].
  rewrite Hc, Hp. split; reflexivity.
Qed.

Lemma span_digits_reads (s : text) : reads s (snd (span_digits s)).
Proof.
  destruct (span_digits_spec s) as [E H].
  exists (fst (span_digits s)). split; assumption.
Qed.

Lemma lex_sign_reads (s : text) : reads s (snd (lex_sign s)).
Proof.
  destruct s as [|c t]; [apply reads_refl|].
  cbn [lex_sign]. destruct (isc c "-") eqn:E; cbn [snd]; [|apply reads_refl].
  apply reads_cons; [|apply reads_refl].
  unfold number_char. rewrite E, !orb_true_r. reflexivity.
Qed.

Lemma lex_int_reads (s : text) : reads s (snd (lex_int s)).
Proof.
  destruct s as [|c t]; [apply reads_refl|].
  cbn [lex_int]. destruct (isc c "0") eqn:E; cbn [snd].
  - apply reads_cons; [|apply reads_refl].
    unfold isc in E. apply N.eqb_eq in E. subst c. reflexivity.
  - apply span_digits_reads.
Qed.

Lemma lex_frac_reads (s : text) : reads s (snd (lex_frac s)).
Proof.
  destruct s as [|c t]; [apply reads_refl|].
  cbn [lex_frac]. destruct (isc c ".") eqn:E; [|apply reads_refl].
  pose proof (span_digits_reads t) as H.
  destruct (span_digits t) as [[|d ds] r]; cbn [snd] in *; [apply reads_refl|].
  apply reads_cons; [|exact H].
  unfold number_char. rewrite E, !orb_true_r. reflexivity.
Qed.

Lemma lex_exp_sign_reads (s : text) : reads s (snd (lex_exp_sign s)).
Proof.
  destruct s as [|g t]; [apply reads_refl|].
  cbn [lex_exp_sign]. destruct (isc g "-") eqn:E1; cbn [snd].
  - apply reads_cons; [|apply reads_refl].
    unfold number_char. rewrite E1, !orb_true_r. reflexivity.
  - destruct (isc g "+") eqn:E2; cbn [snd]; [|apply reads_refl].
    apply reads_cons; [|apply reads_refl].
    unfold number_char. rewrite E2, !orb_true_r. reflexivity.
Qed.

Lemma lex_exp_reads (s : text) : reads s (snd (lex_exp s)).
Proof.
  destruct s as [|c t]; [apply reads_refl|].
  cbn [lex_exp]. destruct (isc c "e" || isc c "E")%bool eqn:E;
    [|apply reads_refl].
  pose proof (lex_exp_sign_reads t) as H1.
  destruct (lex_exp_sign t) as [sg t1]. cbn [snd] in H1.
  pose proof (span_digits_reads t1) as H2.
  destruct (span_digits t1) as [[|d ds] r]; cbn [snd] in *; [apply reads_refl|].
  apply reads_cons; [|exact (reads_trans _ _ _ H1 H2)].
  unfold number_char. apply orb_prop in E. destruct E as [E|E]; rewrite E;
    rewrite ?orb_true_r; reflexivity.
Qed.

Lemma lex_number_reads (s : text) (v : jnum) (n : nat) :
  lex_number s = Some (v, n) ->
  forallb number_char (firstn n s) = true.
Proof.
  unfold lex_number.
  pose proof (lex_sign_reads s) as H1.
  destruct (lex_sign s) as [ng s1]. cbn [snd] in H1.
  pose proof (lex_int_reads s1) as H2.
  destruct (lex_int s1) as [ip s2]. cbn [snd] in H2.
  destruct ip as [|i ip]; [discriminate|].
  pose proof (lex_frac_reads s2) as H3.
  destruct (lex_frac s2) as [fp s3]. cbn [snd] in H3.
  pose proof (lex_exp_reads s3) as H4.
  destruct (lex_exp s3) as [ev s4]. cbn [snd] in H4.
  intros [= _ <-].
  destruct (reads_trans _ _ _ (reads_trans _ _ _ (reads_trans _ _ _ H1 H2) H3) H4)
    as (p & -> & Hp).
  rewrite length_app, Nat.add_sub, firstn_app, Nat.sub_diag, firstn_all.
  cbn [firstn]. rewrite app_nil_r. exact Hp.
Qed.

Lemma starts_with_firstn (p s : text) :
  starts_with p s = true -> firstn (length p) s = p.
Proof.
  revert s. induction p as [|a p IH]; intros [|b s]; cbn [starts_with length firstn];
    try reflexivity; try discriminate.
  intros H. apply andb_prop in H. destruct H as [E H].
  apply N.eqb_eq in E. subst b. rewrite (IH s H). reflexivity.
Qed.















Lemma fix_try_shape (s : text) (r : FixResult) :
  fix_try s = Normal r -> well_shaped r.
Proof.
  unfold fix_try.
  destruct (pipeline s) as [fixed fx].
  destruct (p_success (parse fixed)).
  - intros [= <-]. left. reflexivity.
  - destruct (finalFixAttempt fixed) as [fa|e']; [|discriminate].
    destruct (p_success (parse fa)); intros [= <-].
    + left. reflexivity.
    + right. repeat split. eexists. reflexivity.
Qed.

(** C3. [fix] returns on every input and never throws: its result is a
    success, or a failure that carries an error and no data; an exception
    raised inside the [try] block is turned into the failure of the [catch]
    block, and a result of the block is returned as it is. *)
Theorem fix_never_throws (s : text) :
  exists r,
    fix_ s = Normal r
    /\ well_shaped r
    /\ match fix_try s with
       | Throw _ => r = caught_failure
       | Normal r' => r = r'
       end.
Proof.
  unfold fix_.
  destruct (fix_try s) as [r|e] eqn:E; cbn [try_catch].
  - exists r. split; [reflexivity|]. split; [|reflexivity].
    exact (fix_try_shape s r E).
  - exists caught_failure. split; [reflexivity|]. split; [|reflexivity].
    right. repeat split. eexists. reflexivity.
Qed.

(* ================================================================== *)
(** ** Failure outcomes *)

(** C8, as stated, fails.  On [None is not json at all] the literal pass
    records a fix, the last resort throws, and the failure returned by the
    [catch] block carries no fix; its error is a fresh one, not the error of
    the last strict parse. *)
Lemma fix_failure_drops_fixes :
  exists r,
    fix_ (js "None is not json at all") = Normal r
    /\ success r = false
    /\ length (snd (pipeline (js "None is not json at all"))) = 1
    /\ fixes r = []
    /\ error r <> p_error (parse (fst (pipeline (js "None is not json at all")))).
Proof.
  eexists. split; [vm_compute; reflexivity|].
  repeat split; try (vm_compute; reflexivity).
  vm_compute. discriminate.
Qed.

(** C8, amended.  A failure of [fix] has [success = false] and no data, and
    is one of two outcomes.  When the last resort returns a text that still
    does not parse, it carries the fixes the passes recorded and the error
    [Unable to fix JSON after all attempts].  When the last resort throws,
    it carries an empty list of fixes and the error [Failed to fix JSON].
    Neither error is the error of a strict parse. *)
Theorem fix_failure_shape (s : text) (r : FixResult) :
  fix_ s = Normal r ->
  success r = false ->
  data r = None
  /\ parses (fst (pipeline s)) = false
  /\ ((exists finalAttempt,
          finalFixAttempt (fst (pipeline s)) = Normal finalAttempt
          /\ parses finalAttempt = false
          /\ fixes r = snd (pipeline s)
          /\ error r = Some (JSONParseError "Unable to fix JSON after all attempts"))
      \/ (exists e,
             finalFixAttempt (fst (pipeline s)) = Throw e
             /\ fixes r = []
             /\ error r = Some (JSONParseError "Failed to fix JSON"))).
Proof.
  unfold fix_, try_catch, fix_try, parses.
  destruct (pipeline s) as [fixed fx]. cbn [fst snd].
  destruct (p_success (parse fixed)) eqn:P.
  - intros [= <-]. discriminate.
  - destruct (finalFixAttempt fixed) as [fa|e] eqn:F.
    + destruct (p_success (parse fa)) eqn:P'; intros [= <-]; [discriminate|].
      intros _. repeat split. left. exists fa. repeat split. exact P'.
    + intros [= <-] _. repeat split. right. exists e. repeat split.
Qed.

Lemma fix_failure_shape_witness :
  let s := js "{`a`:}" in
  let r := mkResult false None
             (Some (JSONParseError "Unable to fix JSON after all attempts")) [] in
  fix_ s = Normal r
  /\ success r = false
  /\ data r = None
  /\ parses (fst (pipeline s)) = false
  /\ ((exists finalAttempt,
          finalFixAttempt (fst (pipeline s)) = Normal finalAttempt
          /\ parses finalAttempt = false
          /\ fixes r = snd (pipeline s)
          /\ error r = Some (JSONParseError "Unable to fix JSON after all attempts"))
      \/ (exists e,
             finalFixAttempt (fst (pipeline s)) = Throw e
             /\ fixes r = []
             /\ error r = Some (JSONParseError "Failed to fix JSON"))).
Proof.
  intros s r.
  split; [vm_compute; reflexivity|].
  split; [reflexivity|].
  apply (fix_failure_shape s); [vm_compute; reflexivity|reflexivity].
Defined.

(* ================================================================== *)
(** ** The diagnostic reporter *)

Lemma count_type_app (ty : string) (a b : list Finding) :
  count_type ty (a ++ b) = count_type ty a + count_type ty b.
Proof. unfold count_type. rewrite filter_app, length_app. reflexivity. Qed.

Lemma count_type_const (ty : string) (f : Finding) (A : Type) (l : list A) :
  count_type ty (map (fun _ => f) l)
  = if String.eqb (f_type f) ty then length l else 0.
Proof.
  unfold count_type.
  induction l as [|a l IH]; cbn [map filter].
  - destruct (String.eqb (f_type f) ty); reflexivity.
  - destruct (String.eqb (f_type f) ty); cbn [length]; now rewrite ?IH.
Qed.

(** C9, as stated, fails.  [{'name': 'John'}] does not parse, and
    [diagnose] reports four findings of type [quote] for it, one for each of
    its four single quotes. *)
Lemma diagnose_repeats_findings :
  safe_success (js "{'name': 'John'}") = false
  /\ count_type "quote" (errors (diagnose (js "{'name': 'John'}"))) = 4
  /\ ~ count_type "quote" (errors (diagnose (js "{'name': 'John'}"))) <= 1.
Proof.
  split; [vm_compute; reflexivity|].
  assert (E : count_type "quote" (errors (diagnose (js "{'name': 'John'}"))) = 4)
    by (vm_compute; reflexivity).
  split; [exact E|]. rewrite E. lia.
Qed.

(** A one-character pattern matches once at each occurrence of the
    character. *)
Lemma match_all_chr (a : ascii) (s : text) :
  forall before_rev,
    length (match_all_from (Chr a) before_rev 0 s)
    = count_occ N.eq_dec s (code a).
Proof.
  induction s as [|c s IH]; intros b; [reflexivity|].
  cbn [match_all_from count_occ].
  unfold match_at. cbn [m]. unfold atom. cbn [rest caps].
  unfold isc. destruct (N.eq_dec c (code a)) as [E|E].
  - rewrite (proj2 (N.eqb_eq _ _) E).
    unfold mk_match at 2. cbn [m_text rest length].
    replace (S (length s) - length s) with 1 by lia.
    cbn [firstn length pred]. rewrite IH. reflexivity.
  - rewrite (proj2 (N.eqb_neq _ _) E). apply IH.
Qed.

Lemma diagnose_count (s : text) (issue : re * Finding) :
  safe_success s = false ->
  In issue issues ->
  count_type (f_type (snd issue)) (errors (diagnose s))
  = length (match_all (fst issue) s).
Proof.
  intros Hs Hin. unfold diagnose. rewrite Hs. cbn [errors].
  unfold issues, flat_map, findings_of. cbn [fst snd].
  rewrite !count_type_app, !count_type_const.
  unfold issues in Hin. cbn [In] in Hin.
  destruct Hin as [<-|[<-|[<-|[<-|[]]]]]; cbn [fst snd f_type];
    repeat match goal with
           | |- context [String.eqb ?a ?b] =>
               let v := eval vm_compute in (String.eqb a b) in
               change (String.eqb a b) with v
           end;
    cbv iota; unfold count_type; cbn [filter length]; lia.
Qed.

(** C9, amended.  For every text that fails the strict parse, [diagnose]
    emits one finding per match of each pattern of its catalogue: the number
    of findings of a catalogue entry's type is the number of matches of its
    pattern in the text.  In particular there are as many findings of type
    [quote] as the text has single quotes. *)
Theorem diagnose_one_finding_per_match (s : text) (issue : re * Finding) :
  safe_success s = false ->
  In issue issues ->
  count_type (f_type (snd issue)) (errors (diagnose s))
  = length (match_all (fst issue) s)
  /\ count_type "quote" (errors (diagnose s))
     = count_occ N.eq_dec s (code "'").
Proof.
  intros Hs Hin. split; [exact (diagnose_count s issue Hs Hin)|].
  rewrite <- (match_all_chr "'" s []).
  exact (diagnose_count s (Chr "'", _) Hs (or_introl eq_refl)).
Qed.

Lemma diagnose_one_finding_per_match_witness :
  safe_success (js "{'name': 'John'}") = false
  /\ In (Chr "'", mkFinding "quote" "Single quotes found" "Use double quotes instead")
        issues
  /\ count_type "quote" (errors (diagnose (js "{'name': 'John'}")))
     = length (match_all (Chr "'") (js "{'name': 'John'}"))
  /\ count_type "quote" (errors (diagnose (js "{'name': 'John'}")))
     = count_occ N.eq_dec (js "{'name': 'John'}") (code "'").
Proof.
  split; [vm_compute; reflexivity|].
  split; [left; reflexivity|].
  apply (diagnose_one_finding_per_match
           (js "{'name': 'John'}")
           (Chr "'", mkFinding "quote" "Single quotes found" "Use double quotes instead")).
  - vm_compute; reflexivity.
  - left; reflexivity.
Defined.

(** C10. [diagnose] can return [isValid = false] with no finding: for every
    text that fails the strict parse and that no pattern of the catalogue
    matches, the result is [{ isValid: false, errors: [] }]. *)
Theorem diagnose_invalid_without_findings (s : text) :
  safe_success s = false ->
  (forall issue, In issue issues -> match_all (fst issue) s = []) ->
  diagnose s = mkDiagnosis false [].
Proof.
  intros Hs Hm. unfold diagnose. rewrite Hs. f_equal.
  unfold findings_of.
  induction issues as [|i l IH]; [reflexivity|].
  cbn [flat_map]. rewrite (Hm i (or_introl eq_refl)). cbn [map app].
  apply IH. intros j Hj. apply Hm. right. exact Hj.
Qed.

Lemma diagnose_invalid_without_findings_witness :
  safe_success (js "{`a`:}") = false
  /\ (forall issue, In issue issues -> match_all (fst issue) (js "{`a`:}") = [])
  /\ diagnose (js "{`a`:}") = mkDiagnosis false [].
Proof.
  assert (Hm : forall issue, In issue issues ->
                 match_all (fst issue) (js "{`a`:}") = []).
  { intros issue [<-|[<-|[<-|[<-|[]]]]]; vm_compute; reflexivity. }
  split; [vm_compute; reflexivity|].
  split; [exact Hm|].
  apply (diagnose_invalid_without_findings (js "{`a`:}")).
  - vm_compute; reflexivity.
  - exact Hm.
Defined.

(* ================================================================== *)
(** ** Further properties of the repair and of the parser entry points *)

(* ================================================================== *)
(** ** Further properties of [fix] *)

Lemma parses_some (s : text) :
  p_success (parse s) = true -> exists v, JSON_parse s = Some v.
Proof.
  unfold parse. destruct (JSON_parse s) as [v|]; [|discriminate].
  intros _. exists v. reflexivity.
Qed.

Lemma fix_try_success_parses (s : text) (r : FixResult) :
  fix_try s = Normal r ->
  success r = true ->
  exists d v, data r = Some d /\ JSON_parse d = Some v /\ error r = None.
Proof.
  unfold fix_try.
  destruct (pipeline s) as [fixed fx].
  destruct (p_success (parse fixed)) eqn:P.
  - intros [= <-] _. destruct (parses_some fixed P) as [v Hv].
    exists fixed, v. repeat split. exact Hv.
  - destruct (finalFixAttempt fixed) as [fa|e]; [|discriminate].
    destruct (p_success (parse fa)) eqn:P'; intros [= <-]; [|discriminate].
    intros _. destruct (parses_some fa P') as [v Hv].
    exists fa, v. repeat split. exact Hv.
Qed.

(** X1. Whenever [fix] reports success, it returns a repaired text, that
    text strict-parses, and no error is attached. *)
Theorem fix_success_data_parses (s : text) (r : FixResult) :
  fix_ s = Normal r ->
  success r = true ->
  exists d v, data r = Some d /\ JSON_parse d = Some v /\ error r = None.
Proof.
  unfold fix_.
  destruct (fix_try s) as [r'|e] eqn:E; cbn [try_catch].
  - intros [= <-]. exact (fix_try_success_parses s r' E).
  - intros [= <-]. discriminate.
Qed.

Lemma fix_success_data_parses_witness :
  fix_ (js "{a:1}") = Normal (mkResult true (Some (js "{`a`:1}")) None
                               [mkFix quote "Quoted unquoted keys" (0, 7)
                                  (js "{a:1}") (js "{`a`:1}")])
  /\ success (mkResult true (Some (js "{`a`:1}")) None
                [mkFix quote "Quoted unquoted keys" (0, 7)
                   (js "{a:1}") (js "{`a`:1}")]) = true
  /\ exists d v,
       data (mkResult true (Some (js "{`a`:1}")) None
               [mkFix quote "Quoted unquoted keys" (0, 7)
                  (js "{a:1}") (js "{`a`:1}")]) = Some d
       /\ JSON_parse d = Some v
       /\ error (mkResult true (Some (js "{`a`:1}")) None
                   [mkFix quote "Quoted unquoted keys" (0, 7)
                      (js "{a:1}") (js "{`a`:1}")]) = None.
Proof.
  split; [vm_compute; reflexivity|].
  split; [reflexivity|].
  apply (fix_success_data_parses (js "{a:1}")); [vm_compute; reflexivity|reflexivity].
Defined.

(** X2. The repaired text of [fix] is always trimmed: applying [trim] to it
    changes nothing, whether it comes from the pipeline or from the last
    resort. *)
Theorem fix_repaired_text_is_trimmed (s : text) (r : FixResult) (d : text) :
  fix_ s = Normal r -> data r = Some d -> trim d = d.
Proof.
  intros Hf Hd. apply trim_trimmed. exact (fix_output_trimmed s r d Hf Hd).
Qed.

Lemma fix_repaired_text_is_trimmed_witness :
  fix_ (js "  [1,2,]  ")
  = Normal (mkResult true (Some (js "[1,2]")) None
              [mkFix comma "Fixed double commas and empty slots" (0, 9)
                 (js "  [1,2,]  ") (js "  [1,2]  ")])
  /\ data (mkResult true (Some (js "[1,2]")) None
             [mkFix comma "Fixed double commas and empty slots" (0, 9)
                (js "  [1,2,]  ") (js "  [1,2]  ")]) = Some (js "[1,2]")
  /\ trim (js "[1,2]") = js "[1,2]".
Proof.
  split; [vm_compute; reflexivity|].
  split; [reflexivity|].
  apply (fix_repaired_text_is_trimmed (js "  [1,2,]  ")
           (mkResult true (Some (js "[1,2]")) None
              [mkFix comma "Fixed double commas and empty slots" (0, 9)
                 (js "  [1,2,]  ") (js "  [1,2]  ")]));
    [vm_compute; reflexivity|reflexivity].
Defined.

Lemma trim_blanks (n : nat) : trim (repeat 32%N n) = [].
Proof.
  assert (D : forall k, drop_while is_space (repeat 32%N k) = []).
  { induction k as [|k IH]; [reflexivity|exact IH]. }
  unfold trim, trim_end, trim_start. rewrite D. reflexivity.
Qed.

Lemma inert_blanks (n : nat) : inert_text (repeat 32%N n).
Proof.
  induction n as [|n IH]; [constructor|].
  cbn [repeat]. constructor; [reflexivity|exact IH].
Qed.

(** X3. An empty input, or one made only of blanks, is repaired to [null]:
    no pass records a fix, the strict parse of the empty text fails, and
    the last resort supplies [null], recorded as the only fix. *)
Theorem fix_blank_input (n : nat) :
  fix_ (repeat 32%N n)
  = Normal (mkResult true (Some (js "null")) None
              [mkFix other "Applied final recovery fixes" (0, 4) [] (js "null")]).
Proof.
  unfold fix_, fix_try, pipeline.
  rewrite (run_passes_inert (repeat 32%N n) [] (inert_blanks n)), trim_blanks.
  reflexivity.
Qed.

(** X4. A valid text written only with digits, signs, the dot, the blank and
    the letters of [true], [false], [null] and an exponent (so: a JSON
    number or literal, with blanks around it) goes through [fix] untouched:
    success, no fix recorded, and the repaired text is the [trim] of the
    input, which strict-parses to the same value. *)
Theorem fix_scalar_text_untouched (t : text) (v : value) :
  inert_text t ->
  JSON_parse t = Some v ->
  fix_ t = Normal (mkResult true (Some (trim t)) None [])
  /\ JSON_parse (trim t) = Some v.
Proof.
  intros Hi Hv. split.
  - exact (fix_inert_valid_text t v Hi Hv).
  - exact (JSON_parse_trim t v Hv).
Qed.

Lemma fix_scalar_text_untouched_witness :
  inert_text (js " -12.5e3 ")
  /\ JSON_parse (js " -12.5e3 ") = Some (JNumber (JNum true 125 2))
  /\ fix_ (js " -12.5e3 ")
     = Normal (mkResult true (Some (trim (js " -12.5e3 "))) None [])
  /\ JSON_parse (trim (js " -12.5e3 ")) = Some (JNumber (JNum true 125 2)).
Proof.
  assert (Hi : inert_text (js " -12.5e3 ")).
  { unfold inert_text. repeat constructor. }
  assert (Hv : JSON_parse (js " -12.5e3 ") = Some (JNumber (JNum true 125 2))).
  { vm_compute; reflexivity. }
  split; [exact Hi|]. split; [exact Hv|].
  exact (fix_scalar_text_untouched (js " -12.5e3 ") _ Hi Hv).
Defined.

Lemma app_nonempty_r (a b : text) : b <> [] -> a ++ b <> [].
Proof. intros H E. apply app_eq_nil in E. destruct E; contradiction. Qed.

(** X5. Whatever text the last resort returns is not empty and is trimmed;
    in particular it never hands an empty text to the final strict parse. *)
Theorem finalFixAttempt_result_shape (t r : text) :
  finalFixAttempt t = Normal r -> r <> [] /\ trim r = r.
Proof.
  intros H. split; [|exact (trim_trimmed r (finalFixAttempt_trimmed t r H))].
  revert H. unfold finalFixAttempt.
  set (result := trim t).
  assert (Tail :
    text_eqb result [] = false ->
    (if (includes (js ":") result
         && negb (starts_with (js "{") (trim result))
         && negb (starts_with (js "[") (trim result)))%bool
     then Normal (js "{" ++ result ++ js "}")
     else if (includes (js "{") result && negb (includes (js "}") result))%bool
     then Normal (result ++ js "}")
     else if (includes (js "[") result && negb (includes (js "]") result))%bool
     then Normal (result ++ js "]")
     else Normal result) = Normal r -> r <> []).
  { intros Hne.
    destruct (includes (js ":") result && _ && _)%bool;
      [intros [= <-]; discriminate|].
    destruct (includes (js "{") result && _)%bool;
      [intros [= <-]; apply app_nonempty_r; discriminate|].
    destruct (includes (js "[") result && _)%bool;
      [intros [= <-]; apply app_nonempty_r; discriminate|].
    intros [= <-] E. rewrite E in Hne. discriminate Hne. }
  destruct (text_eqb result []) eqn:E0; cbn [orb];
    [intros [= <-]; discriminate|].
  destruct (text_eqb result (js "``")); [intros [= <-]; discriminate|].
  destruct (starts_with (js "//") result && negb (includes (js "{") result)
            && negb (includes (js "[") result))%bool;
    [intros [= <-]; discriminate|].
  destruct (negb _ && _)%bool; [discriminate|].
  cbv zeta.
  destruct (negb (includes (js "{") result) && negb (includes (js "[") result)
            && negb (includes (js "`") result))%bool; [|exact (Tail eq_refl)].
  destruct (text_eqb (trim result) (js "true") || _ || _)%bool eqn:K.
  { intros [= <-] E. rewrite E in K. discriminate K. }
  destruct (is_numeric (trim result) && negb (text_eqb (trim result) []))%bool
    eqn:Nm.
  { intros [= <-] E. rewrite E in Nm. rewrite andb_false_r in Nm.
    discriminate Nm. }
  destruct (negb (text_eqb (trim result) []) && _)%bool;
    [intros [= <-]; discriminate|exact (Tail eq_refl)].
Qed.

Lemma finalFixAttempt_result_shape_witness :
  finalFixAttempt (js " a: 1 ") = Normal (js "{a: 1}")
  /\ js "{a: 1}" <> [] /\ trim (js "{a: 1}") = js "{a: 1}".
Proof.
  split; [vm_compute; reflexivity|].
  apply (finalFixAttempt_result_shape (js " a: 1 ")). vm_compute; reflexivity.
Defined.

(** X7. [JSONMan.parse] reads a text and its [trim] alike: when it succeeds
    on a text it succeeds on the trimmed text with the same data, although
    [trim] strips more kinds of white space than JSON allows around a
    value. *)
Theorem parse_trim_same_data (s : text) (v : value) :
  parse s = mkParse true (Some v) None ->
  parse (trim s) = mkParse true (Some v) None.
Proof.
  unfold parse.
  destruct (JSON_parse s) as [w|] eqn:E; [|discriminate].
  intros [= <-]. rewrite (JSON_parse_trim s w E). reflexivity.
Qed.

Lemma parse_trim_same_data_witness :
  parse (js " [1] ") = mkParse true (Some (JArray [num 1])) None
  /\ parse (trim (js " [1] ")) = mkParse true (Some (JArray [num 1])) None.
Proof.
  split; [vm_compute; reflexivity|].
  apply (parse_trim_same_data (js " [1] ")). vm_compute; reflexivity.
Defined.

(* ================================================================== *)
(** ** Quote normalization *)

Lemma scan_single_spec (n : nat) :
  forall (s content : text) (k : nat),
    length s <= n ->
    scan_single s = Some (content, k) ->
    exists after, s = content ++ code "'" :: after /\ k = S (length content).
Proof.
  induction n as [|n IH]; intros s content k Hn.
  - destruct s; [discriminate|cbn in Hn; lia].
  - destruct s as [|c t]; [discriminate|].
    cbn [length] in Hn. cbn [scan_single].
    destruct (isc c "'") eqn:Q.
    + intros [= <- <-]. exists t. split; [|reflexivity].
      apply N.eqb_eq in Q. rewrite Q. reflexivity.
    + destruct (isc c "\").
      * destruct t as [|c2 t2]; [discriminate|].
        cbn [length] in Hn.
        destruct (scan_single t2) as [[content' k']|] eqn:E; [|discriminate].
        intros [= <- <-].
        destruct (IH t2 content' k' ltac:(lia) E) as (after & -> & ->).
        exists after. split; reflexivity.
      * unfold consr.
        destruct (scan_single t) as [[content' k']|] eqn:E; [|discriminate].
        intros [= <- <-].
        destruct (IH t content' k' ltac:(lia) E) as (after & -> & ->).
        exists after. split; reflexivity.
Qed.

Lemma skipn_past (a : text) (x : char) (b : text) :
  skipn (S (length a)) (a ++ x :: b) = b.
Proof. induction a as [|c a IH]; [reflexivity|exact IH]. Qed.

Lemma single_quotes_loop_skip (t : text) :
  forall n, single_quotes_loop n t = single_quotes_loop 0 (skipn n t).
Proof.
  induction t as [|c t IH]; intros n.
  - destruct n; reflexivity.
  - destruct n as [|n]; [reflexivity|]. cbn [single_quotes_loop skipn]. apply IH.
Qed.

Lemma quote_swap_refl (t : text) : Forall2 quote_swap t t.
Proof. induction t; constructor; [left; reflexivity|assumption]. Qed.

Lemma single_quotes_loop_swap (m : nat) :
  forall t, length t <= m ->
            Forall2 quote_swap t (fst (single_quotes_loop 0 t)).
Proof.
  induction m as [|m IH]; intros t Hm.
  - destruct t; [constructor|cbn in Hm; lia].
  - destruct t as [|c t]; [constructor|].
    cbn [length] in Hm. cbn [single_quotes_loop].
    destruct (isc c "'") eqn:Q.
    + destruct (scan_single t) as [[content k]|] eqn:E.
      * destruct (scan_single_spec (length t) t content k (le_n _) E)
          as (after & -> & ->).
        cbn [fst]. rewrite single_quotes_loop_skip.
        replace (skipn (S (length content)) (content ++ code "'" :: after))
          with after.
        2:{ symmetry. apply skipn_past. }
        constructor.
        { right. split; [apply N.eqb_eq, Q|reflexivity]. }
        change (DQ :: fst (single_quotes_loop 0 after))
          with ([DQ] ++ fst (single_quotes_loop 0 after)).
        rewrite app_assoc.
        change (code "'" :: after) with ([code "'"] ++ after).
        rewrite app_assoc.
        apply Forall2_app.
        -- apply Forall2_app; [apply quote_swap_refl|].
           constructor; [right; split; reflexivity|constructor].
        -- apply IH. rewrite length_app in Hm. cbn [length] in Hm. lia.
      * destruct (single_quotes_loop 0 t) as [r h] eqn:L. cbn [fst].
        constructor; [left; reflexivity|].
        replace r with (fst (single_quotes_loop 0 t)) by (rewrite L; reflexivity).
        apply IH. lia.
    + destruct (single_quotes_loop 0 t) as [r h] eqn:L. cbn [fst].
      constructor; [left; reflexivity|].
      replace r with (fst (single_quotes_loop 0 t)) by (rewrite L; reflexivity).
      apply IH. lia.
Qed.

(** X6. [fixSingleQuotes] only swaps quote characters: its output has the
    length of its input and, position by position, each code unit is the
    input's, or a double quote where the input has a single quote.  Escapes
    and every other character are left as they are. *)
Theorem fixSingleQuotes_only_swaps_quotes (t : text) (fixes : list FixReport) :
  Forall2 quote_swap t (fst (fixSingleQuotes t fixes))
  /\ length (fst (fixSingleQuotes t fixes)) = length t.
Proof.
  assert (H : Forall2 quote_swap t (fst (fixSingleQuotes t fixes))).
  { unfold fixSingleQuotes.
    pose proof (single_quotes_loop_swap (length t) t (le_n _)) as S.
    destruct (single_quotes_loop 0 t) as [r h]. cbn [fst] in S.
    destruct h; cbn [fst]; [exact S|apply quote_swap_refl]. }
  split; [exact H|]. symmetry. exact (Forall2_length H).
Qed.

(* ================================================================== *)
(** ** Positions and context of a parse error *)

Lemma split_on_nonempty (sep : char) (s : text) : split_on sep s <> [].
Proof.
  destruct s as [|c s]; cbn [split_on]; [discriminate|].
  destruct (N.eqb c sep); [discriminate|].
  destruct (split_on sep s); discriminate.
Qed.

Lemma length_cons_pred (A : Type) (x : A) (l : list A) :
  length (x :: l) - 1 = length l.
Proof. cbn [length]. lia. Qed.

Lemma last_cons_nonempty (A : Type) (x d : A) (l : list A) :
  l <> [] -> last (x :: l) d = last l d.
Proof. destruct l; [contradiction|reflexivity]. Qed.

Lemma line_offset_succ (n : nat) (l : text) (ls : list text) :
  line_offset (S n) (l :: ls) = length l + 1 + line_offset n ls.
Proof. reflexivity. Qed.

(** The offset of the last line of a prefix, counted on the whole text,
    plus the length of that last line, is the length of the prefix. *)
Lemma line_offset_prefix (p q : text) :
  line_offset (length (split_on NL p) - 1) (split_on NL (p ++ q))
  + length (last (split_on NL p) []) = length p.
Proof.
  induction p as [|c p IH]; [reflexivity|].
  cbn [app split_on].
  pose proof (split_on_nonempty NL p) as Hp.
  pose proof (split_on_nonempty NL (p ++ q)) as Hpq.
  destruct (N.eqb c NL).
  - rewrite length_cons_pred, (last_cons_nonempty _ _ _ _ Hp).
    destruct (split_on NL p) as [|l ls] eqn:E; [contradiction|].
    rewrite length_cons_pred in IH.
    change (length (l :: ls)) with (S (length ls)).
    rewrite line_offset_succ. cbn [length]. lia.
  - destruct (split_on NL p) as [|l ls] eqn:E; [contradiction|].
    destruct (split_on NL (p ++ q)) as [|l2 ls2] eqn:E2; [contradiction|].
    rewrite length_cons_pred in *.
    destruct ls as [|l' ls'].
    + cbn [length line_offset last] in *. lia.
    + change (last ((c :: l) :: l' :: ls') []) with (last (l' :: ls') []).
      change (last (l :: l' :: ls') []) with (last (l' :: ls') []) in IH.
      change (length (l' :: ls')) with (S (length ls')) in *.
      rewrite line_offset_succ in *. cbn [length]. lia.
Qed.

(** X8. The two position helpers are inverse on positions inside the text:
    turning an index into line and column and back gives the index. *)
Theorem index_line_column_round_trip (input : text) (index : nat) :
  index <= length input ->
  getIndexFromLineColumn input
    (fst (getLineColumnFromIndex input index))
    (snd (getLineColumnFromIndex input index))
  = Z.of_nat index.
Proof.
  intros H. unfold getIndexFromLineColumn, getLineColumnFromIndex, slice.
  cbn [fst snd skipn]. rewrite Nat.sub_0_r.
  pose proof (line_offset_prefix (firstn index input) (skipn index input)) as L.
  rewrite firstn_skipn, length_firstn in L.
  rewrite Nat.min_l in L by exact H. lia.
Qed.

Lemma index_line_column_round_trip_witness :
  4 <= length (js "ab" ++ NL :: js "cd")
  /\ getLineColumnFromIndex (js "ab" ++ NL :: js "cd") 4 = (2, 2)
  /\ getIndexFromLineColumn (js "ab" ++ NL :: js "cd")
       (fst (getLineColumnFromIndex (js "ab" ++ NL :: js "cd") 4))
       (snd (getLineColumnFromIndex (js "ab" ++ NL :: js "cd") 4))
     = Z.of_nat 4.
Proof.
  split; [cbn; lia|]. split; [reflexivity|].
  apply (index_line_column_round_trip (js "ab" ++ NL :: js "cd") 4). cbn; lia.
Defined.

Lemma firstn_plus (A : Type) (n m : nat) (l : list A) :
  firstn (n + m) l = firstn n l ++ firstn m (skipn n l).
Proof.
  revert l. induction n as [|n IH]; intros l; [reflexivity|].
  destruct l as [|x l]; cbn [Nat.add firstn skipn app].
  - rewrite firstn_nil. reflexivity.
  - rewrite IH. reflexivity.
Qed.

Lemma skipn_nth (index : nat) :
  forall input : text,
    index < length input ->
    exists c, nth_error input index = Some c
              /\ skipn index input = c :: skipn (S index) input.
Proof.
  induction index as [|i IH]; intros input H.
  - destruct input as [|c t]; [cbn in H; lia|]. exists c. split; reflexivity.
  - destruct input as [|c t]; [cbn in H; lia|].
    cbn [length] in H. destruct (IH t ltac:(lia)) as (d & H1 & H2).
    exists d. split; [exact H1|exact H2].
Qed.

(** X9. For an index inside the text and a positive context length, the
    three parts of [extractContext] put together are the window of the text
    from [index - contextLength] (or the start) to [index + contextLength]
    (or the end); the part before has at most [contextLength] code units,
    the part at the index one, the part after fewer than [contextLength]. *)
Theorem extractContext_window (input : text) (index k : nat) :
  index < length input ->
  0 < k ->
  fst (fst (extractContext input index k))
  ++ snd (fst (extractContext input index k))
  ++ snd (extractContext input index k)
  = slice input (index - k) (Nat.min (length input) (index + k))
  /\ length (fst (fst (extractContext input index k))) <= k
  /\ length (snd (fst (extractContext input index k))) = 1
  /\ length (snd (extractContext input index k)) < k.
Proof.
  intros Hi Hk. unfold extractContext, slice. cbn [fst snd].
  destruct (skipn_nth index input Hi) as (c & Hc & Hs).
  rewrite Hc.
  set (a := index - k). set (e := Nat.min (length input) (index + k)).
  assert (He : index < e) by (unfold e; lia).
  assert (Ha : a <= index) by (unfold a; lia).
  split.
  - replace (e - a) with ((index - a) + (e - index)) by lia.
    rewrite firstn_plus, skipn_skipn.
    replace (index - a + a) with index by lia.
    rewrite Hs.
    replace (e - index) with (S (e - (index + 1))) by lia.
    cbn [firstn app]. rewrite Nat.add_1_r. reflexivity.
  - repeat split.
    + rewrite length_firstn. unfold a. lia.
    + rewrite length_firstn. unfold e. lia.
Qed.

Lemma extractContext_window_witness :
  2 < length (js "{`a`:}")
  /\ 0 < 20
  /\ extractContext (js "{`a`:}") 2 20 = (js "{`", js "a", js "`:}")
  /\ fst (fst (extractContext (js "{`a`:}") 2 20))
     ++ snd (fst (extractContext (js "{`a`:}") 2 20))
     ++ snd (extractContext (js "{`a`:}") 2 20)
     = slice (js "{`a`:}") (2 - 20) (Nat.min (length (js "{`a`:}")) (2 + 20)).
Proof.
  split; [cbn; lia|]. split; [lia|]. split; [reflexivity|].
  apply (extractContext_window (js "{`a`:}") 2 20); cbn; lia.
Defined.

(** X10. A parse error never comes without advice:
    [generateParseSuggestions] returns at least one suggestion for every
    message and input, and the advice on single quotes whenever the input
    holds a single quote. *)
Theorem generateParseSuggestions_never_empty (toLowerCase : text -> text)
    (errorMessage input : text) :
  generateParseSuggestions toLowerCase errorMessage input <> []
  /\ (includes (js "'") input = false
      \/ In "Replace single quotes with double quotes"%string
            (generateParseSuggestions toLowerCase errorMessage input)).
Proof.
  unfold generateParseSuggestions.
  destruct (includes (js "unexpected token") (toLowerCase errorMessage));
    destruct (includes (js "unexpected end") (toLowerCase errorMessage));
    destruct (includes (js "quote") (toLowerCase errorMessage)
              || includes (js "string") (toLowerCase errorMessage))%bool;
    destruct (includes (js "'") input);
    destruct (includes (js ",}") input || includes (js ",]") input)%bool;
    cbn [app]; (split; [discriminate|]);
    solve [left; reflexivity | right; cbn [In]; auto 10].
Qed.

(* ================================================================== *)
(** ** The parser module *)

Lemma multiple_fold (lines : list text) (acc : MultipleResult) :
  let out := fold_left multiple_step lines acc in
  results out = results acc ++ map safe lines
  /\ successful out
     = successful acc + length (filter sr_success (map safe lines))
  /\ failed out
     = failed acc
       + length (filter (fun r => negb (sr_success r)) (map safe lines)).
Proof.
  revert acc. induction lines as [|line lines IH]; intros acc; cbn zeta.
  - cbn [fold_left map filter length]. rewrite app_nil_r.
    repeat split; lia.
  - cbn [fold_left map filter].
    specialize (IH (multiple_step acc line)). cbn zeta in IH.
    destruct IH as (R & S & F). rewrite R, S, F.
    unfold multiple_step.
    destruct (sr_success (safe line));
      cbn [results successful failed negb length];
      (split; [rewrite <- app_assoc; reflexivity|split; lia]).
Qed.

Lemma filter_partition_length (A : Type) (p : A -> bool) (l : list A) :
  length (filter p l) + length (filter (fun x => negb (p x)) l) = length l.
Proof.
  induction l as [|x l IH]; [reflexivity|].
  cbn [filter]. destruct (p x); cbn [negb length]; lia.
Qed.

(** X11. [Parser.multiple] keeps its counters in step with its results:
    there is one result per non-blank line, in line order, [successful]
    counts the results that parsed, and [successful + failed] is the number
    of results. *)
Theorem multiple_counts (input : text) :
  results (multiple input) = map safe (nonblank_lines input)
  /\ successful (multiple input)
     = length (filter sr_success (results (multiple input)))
  /\ successful (multiple input) + failed (multiple input)
     = length (results (multiple input)).
Proof.
  unfold multiple.
  destruct (multiple_fold (nonblank_lines input) (mkMultiple 0 0 []))
    as (R & S & F).
  cbn [results successful failed app Nat.add] in *.
  rewrite R, S, F. repeat split.
  apply filter_partition_length.
Qed.

Lemma split_on_snoc_sep (sep : char) (s : text) :
  split_on sep (s ++ [sep]) = split_on sep s ++ [[]].
Proof.
  induction s as [|c s IH]; cbn [app split_on].
  - rewrite N.eqb_refl. reflexivity.
  - destruct (N.eqb c sep); [rewrite IH; reflexivity|].
    rewrite IH. destruct (split_on sep s) eqn:E; [|reflexivity].
    exfalso. exact (split_on_nonempty sep s E).
Qed.

(** X12. A newline at the end of the input does not add a result to
    [Parser.multiple]: the empty last line is filtered out with the other
    blank lines. *)
Theorem multiple_trailing_newline (input : text) :
  multiple (input ++ [NL]) = multiple input.
Proof.
  unfold multiple, nonblank_lines.
  rewrite split_on_snoc_sep, filter_app. cbn [filter].
  change (negb (text_eqb (trim []) [])) with false. cbn iota.
  rewrite app_nil_r. reflexivity.
Qed.

(** X13. [Parser.typed] succeeds exactly on the inputs that strict-parse to
    a value the validator accepts, and then returns that value; without a
    validator it is [Parser.safe]. *)
Theorem typed_success_iff (input : text) (accepts : value -> bool) :
  (sr_success (typed input (Some accepts)) = true
   <-> exists v, JSON_parse input = Some v /\ accepts v = true
                 /\ sr_data (typed input (Some accepts)) = Some v)
  /\ (sr_success (typed input (Some accepts)) = false
      <-> sr_data (typed input (Some accepts)) = None)
  /\ typed input None = safe input.
Proof.
  unfold typed, safe.
  destruct (JSON_parse input) as [v|]; cbn [sr_success sr_data negb].
  - destruct (accepts v) eqn:A; cbn [negb sr_success sr_data].
    + repeat split; try discriminate.
      intros _. exists v. repeat split. exact A.
    + repeat split; try discriminate.
      intros (w & [= <-] & Hw & _). congruence.
  - repeat split; try discriminate.
    intros (w & Hw & _). discriminate.
Qed.

(** X14. A successful [Parser.partial] is sound.  Without [isPartial] the
    data is the strict parse of the input.  With [isPartial] the input does
    not strict-parse, the data is the strict parse of [completedString], and
    [completedString] is the trimmed input, extended by at most one closing
    brace, bracket or double quote. *)
Theorem partial_sound (input : text) (v : value) :
  pr_success (partial input) = true ->
  pr_data (partial input) = Some v ->
  (isPartial (partial input) = false /\ JSON_parse input = Some v
   /\ completedString (partial input) = None)
  \/ (isPartial (partial input) = true /\ JSON_parse input = None
      /\ exists c, completedString (partial input) = Some c
                   /\ JSON_parse c = Some v
                   /\ (c = trim input \/ c = trim input ++ js "}"
                       \/ c = trim input ++ js "]"
                       \/ c = trim input ++ js "`")).
Proof.
  unfold partial, safe.
  destruct (JSON_parse input) as [w|] eqn:E;
    cbn [sr_success sr_data sr_error pr_success pr_data isPartial completedString].
  - intros _ [= <-]. left. repeat split.
  - destruct (JSON_parse (complete input)) as [w|] eqn:E2;
      cbn [sr_success sr_data sr_error pr_success pr_data isPartial
           completedString]; [|discriminate].
    intros _ [= <-]. right. repeat split.
    exists (complete input). repeat split; [exact E2|].
    unfold complete.
    destruct (negb _ && _)%bool; [auto|].
    destruct (negb _ && _)%bool; [auto|].
    destruct (negb _ && _ && _)%bool; auto.
Qed.

Lemma partial_sound_witness :
  pr_success (partial (js "{`a`:[1,2]")) = true
  /\ pr_data (partial (js "{`a`:[1,2]"))
     = Some (JObject [(js "a", JArray [num 1; num 2])])
  /\ ((isPartial (partial (js "{`a`:[1,2]")) = false
       /\ JSON_parse (js "{`a`:[1,2]")
          = Some (JObject [(js "a", JArray [num 1; num 2])])
       /\ completedString (partial (js "{`a`:[1,2]")) = None)
      \/ (isPartial (partial (js "{`a`:[1,2]")) = true
          /\ JSON_parse (js "{`a`:[1,2]") = None
          /\ exists c,
               completedString (partial (js "{`a`:[1,2]")) = Some c
               /\ JSON_parse c
                  = Some (JObject [(js "a", JArray [num 1; num 2])])
               /\ (c = trim (js "{`a`:[1,2]")
                   \/ c = trim (js "{`a`:[1,2]") ++ js "}"
                   \/ c = trim (js "{`a`:[1,2]") ++ js "]"
                   \/ c = trim (js "{`a`:[1,2]") ++ js "`"))).
Proof.
  split; [vm_compute; reflexivity|].
  split; [vm_compute; reflexivity|].
  apply (partial_sound (js "{`a`:[1,2]")); vm_compute; reflexivity.
Defined.

(* ================================================================== *)
(** ** [JSONMan.compare] *)

Lemma value_nested_ind (P : value -> Prop) :
  P JNull ->
  (forall b, P (JBool b)) ->
  (forall n, P (JNumber n)) ->
  (forall s, P (JString s)) ->
  (forall l, Forall P l -> P (JArray l)) ->
  (forall es, Forall (fun kv => P (snd kv)) es -> P (JObject es)) ->
  forall v, P v.
Proof.
  intros Hn Hb Hnum Hs Ha Ho.
  fix IH 1. intros [| b | n | s | l | es].
  - exact Hn.
  - apply Hb.
  - apply Hnum.
  - apply Hs.
  - apply Ha. induction l as [|v l IHl]; constructor; [apply IH | exact IHl].
  - apply Ho. induction es as [|[k v] es IHes]; constructor;
      [apply IH | exact IHes].
Qed.

Lemma text_eqb_eq (a b : text) : text_eqb a b = true <-> a = b.
Proof.
  unfold text_eqb. destruct (list_eq_dec N.eq_dec a b); split; congruence.
Qed.

Lemma keys_agree_refl (l : list text) : keys_agree l l = true.
Proof.
  induction l as [|k l IH]; [reflexivity|].
  cbn [keys_agree]. rewrite text_eqb_refl, IH. reflexivity.
Qed.

Lemma keys_agree_eq (l1 l2 : list text) : keys_agree l1 l2 = true <-> l1 = l2.
Proof.
  revert l2. induction l1 as [|k l1 IH]; intros [|k2 l2]; cbn [keys_agree];
    try (split; [discriminate|congruence]); [split; reflexivity|].
  rewrite andb_true_iff, text_eqb_eq, IH. split.
  - intros [-> ->]. reflexivity.
  - intros [= -> ->]. split; reflexivity.
Qed.

Lemma forallb_ext (A : Type) (f g : A -> bool) (l : list A) :
  (forall x, f x = g x) -> forallb f l = forallb g l.
Proof.
  intros H. induction l as [|x l IH]; [reflexivity|].
  cbn [forallb]. rewrite H, IH. reflexivity.
Qed.

Section CompareFacts.

Variable num_eq : jnum -> jnum -> bool.

Lemma compare_object (es1 : list (text * value)) (obj2 : value) :
  (exists l2, obj2 = JArray l2) \/ (exists es2, obj2 = JObject es2) ->
  compare num_eq (JObject es1) obj2 = same_props num_eq (JObject es1) obj2.
Proof.
  intros H. unfold same_props, compare_opt.
  assert (E : forall key,
    (fix at_key (es : list (text * value)) : bool :=
       match es with
       | [] => match get obj2 key with None => true | Some _ => false end
       | (k, val1) :: es' =>
           if text_eqb k key then
             match get obj2 key with
             | Some val2 => compare num_eq val1 val2
             | None => false
             end
           else at_key es'
       end) es1
    = compare_opt num_eq (get (JObject es1) key) (get obj2 key)).
  { intros key. cbn [get]. induction es1 as [|[k v] es1 IH].
    - reflexivity.
    - cbn [get_prop]. destruct (text_eqb k key); [reflexivity|exact IH]. }
  destruct H as [[l2 ->]|[es2 ->]].
  - cbn [compare strict_equal is_null orb].
    destruct (keys_agree _ _); cbn [negb andb]; [|reflexivity].
    apply forallb_ext. exact E.
  - cbn [compare strict_equal is_null orb].
    destruct (keys_agree _ _); cbn [negb andb]; [|reflexivity].
    apply forallb_ext. exact E.
Qed.

Lemma compare_array_object (l1 : list value) (es2 : list (text * value)) :
  compare num_eq (JArray l1) (JObject es2)
  = same_props num_eq (JArray l1) (JObject es2).
Proof.
  unfold same_props, compare_opt.
  assert (E : forall key i l,
    (fix at_index (l : list value) (i : nat) : bool :=
       match l with
       | [] => match get (JObject es2) key with
               | None => true | Some _ => false end
       | val1 :: l' =>
           if text_eqb (dec (N.of_nat i)) key then
             match get (JObject es2) key with
             | Some val2 => compare num_eq val1 val2
             | None => false
             end
           else at_index l' (S i)
       end) l i
    = compare_opt num_eq (get_index l i key) (get (JObject es2) key)).
  { intros key i l. revert i. induction l as [|v l IH]; intros i.
    - reflexivity.
    - cbn [get_index]. destruct (text_eqb _ key); [reflexivity|apply IH]. }
  cbn [compare strict_equal is_null orb].
  destruct (keys_agree _ _); cbn [negb andb]; [|reflexivity].
  apply forallb_ext. intros key. apply E.
Qed.

Lemma compare_arrays (l1 l2 : list value) :
  compare num_eq (JArray l1) (JArray l2)
  = ((length l1 =? length l2) && same_elements num_eq l1 l2)%bool.
Proof.
  cbn [compare strict_equal is_null orb].
  destruct (length l1 =? length l2); cbn [negb andb]; [|reflexivity].
  reflexivity.
Qed.

End CompareFacts.

(** The quantities behind [sort_keys]. *)
Lemma insert_key_In (k x : text) (l : list text) :
  In x (insert_key k l) <-> x = k \/ In x l.
Proof.
  induction l as [|y l IH]; cbn [insert_key].
  - cbn. intuition congruence.
  - destruct (text_ltb k y); cbn [In]; [intuition congruence|].
    rewrite IH. intuition congruence.
Qed.

Lemma sort_keys_In (x : text) (l : list text) :
  In x (sort_keys l) <-> In x l.
Proof.
  induction l as [|k l IH]; [reflexivity|].
  cbn [sort_keys fold_right]. fold (sort_keys l).
  rewrite insert_key_In, IH. cbn [In]. intuition congruence.
Qed.

Lemma get_prop_In (es : list (text * value)) (key : text) :
  In key (map fst es) -> exists v, get_prop es key = Some v /\ In (key, v) es.
Proof.
  induction es as [|[k v] es IH]; [intros []|].
  cbn [map fst In get_prop]. intros H.
  destruct (text_eqb k key) eqn:E.
  - apply text_eqb_eq in E. subst. eexists; split; [reflexivity|left; reflexivity].
  - destruct H as [->|H]; [rewrite text_eqb_refl in E; discriminate|].
    destruct (IH H) as (w & Hw & Hin). exists w. split; [exact Hw|right; exact Hin].
Qed.

Lemma get_index_In (l : list value) (i : nat) (key : text) :
  In key (map (fun j => dec (N.of_nat j)) (seq i (length l))) ->
  exists v, get_index l i key = Some v /\ In v l.
Proof.
  revert i. induction l as [|v l IH]; intros i; [intros []|].
  cbn [length seq map In get_index]. intros H.
  destruct (text_eqb (dec (N.of_nat i)) key) eqn:E.
  - eexists; split; [reflexivity|left; reflexivity].
  - destruct H as [H|H].
    + rewrite H, text_eqb_refl in E. discriminate.
    + destruct (IH (S i) H) as (w & Hw & Hin).
      exists w. split; [exact Hw|right; exact Hin].
Qed.

Lemma compare_refl (num_eq : jnum -> jnum -> bool) :
  (forall n, num_eq n n = true) ->
  forall v, compare num_eq v v = true.
Proof.
  intros Hnum. induction v as [| b | n | s | l IH | es IH] using value_nested_ind.
  - reflexivity.
  - cbn [compare strict_equal]. rewrite Bool.eqb_reflx. reflexivity.
  - cbn [compare strict_equal]. rewrite Hnum. reflexivity.
  - cbn [compare strict_equal]. rewrite text_eqb_refl. reflexivity.
  - rewrite compare_arrays, Nat.eqb_refl. cbn [andb].
    induction IH as [|v l Hv _ IHl]; [reflexivity|].
    cbn [same_elements]. rewrite Hv. exact IHl.
  - rewrite compare_object by (right; eexists; reflexivity).
    unfold same_props. rewrite keys_agree_refl. cbn [andb].
    apply forallb_forall. intros key Hk.
    apply (proj1 (sort_keys_In _ _)) in Hk. cbn [Object_keys] in Hk.
    destruct (get_prop_In es key Hk) as (v & Hv & Hin).
    cbn [get]. rewrite Hv. cbn [compare_opt].
    rewrite Forall_forall in IH. exact (IH (key, v) Hin).
Qed.

(** *** The order of the keys *)

Lemma text_ltb_irrefl (a : text) : text_ltb a a = false.
Proof.
  induction a as [|x a IH]; [reflexivity|].
  cbn [text_ltb]. rewrite N.ltb_irrefl, N.eqb_refl, IH. reflexivity.
Qed.

Lemma text_ltb_trans (a b c : text) :
  text_ltb a b = true -> text_ltb b c = true -> text_ltb a c = true.
Proof.
  revert b c. induction a as [|x a IH]; intros [|y b] [|z c]; cbn [text_ltb];
    try discriminate; try reflexivity.
  rewrite !orb_true_iff, !andb_true_iff, !N.ltb_lt, !N.eqb_eq.
  intros [Hxy|[Hxy Hab]] [Hyz|[Hyz Hbc]].
  - left. lia.
  - left. lia.
  - left. lia.
  - right. split; [lia|]. exact (IH b c Hab Hbc).
Qed.

Lemma text_ltb_total (a b : text) :
  text_ltb a b = false -> text_ltb b a = false -> a = b.
Proof.
  revert b. induction a as [|x a IH]; intros [|y b]; cbn [text_ltb];
    try discriminate; [reflexivity|].
  rewrite !orb_false_iff, !andb_false_iff, !N.ltb_ge, !N.eqb_neq.
  intros [Hxy H1] [Hyx H2].
  assert (x = y) by lia. subst y.
  destruct H1 as [H1|H1]; [congruence|].
  destruct H2 as [H2|H2]; [congruence|].
  rewrite (IH b H1 H2). reflexivity.
Qed.

(** [sorted l]: no key of [l] is above a later one. *)
Lemma insert_key_sorted (k : text) (l : list text) :
  StronglySorted (fun a b => text_ltb b a = false) l ->
  StronglySorted (fun a b => text_ltb b a = false) (insert_key k l).
Proof.
  induction 1 as [|x l Hs IH Hx]; cbn [insert_key].
  - constructor; constructor.
  - destruct (text_ltb k x) eqn:E.
    + constructor; [constructor; assumption|].
      constructor.
      * destruct (text_ltb x k) eqn:E2; [|reflexivity].
        pose proof (text_ltb_trans k x k E E2) as C.
        rewrite text_ltb_irrefl in C. discriminate.
      * rewrite Forall_forall in Hx |- *. intros y Hy.
        destruct (text_ltb y k) eqn:E2; [|reflexivity].
        pose proof (text_ltb_trans y k x E2 E) as C.
        rewrite (Hx y Hy) in C. discriminate.
    + constructor; [exact IH|].
      rewrite Forall_forall in Hx |- *. intros y Hy.
      apply insert_key_In in Hy. destruct Hy as [->|Hy]; [exact E|].
      exact (Hx y Hy).
Qed.

Lemma sort_keys_sorted (l : list text) :
  StronglySorted (fun a b => text_ltb b a = false) (sort_keys l).
Proof.
  induction l as [|k l IH]; [constructor|].
  cbn [sort_keys fold_right]. apply insert_key_sorted. exact IH.
Qed.

Lemma insert_key_perm (k : text) (l : list text) :
  Permutation (k :: l) (insert_key k l).
Proof.
  induction l as [|x l IH]; cbn [insert_key]; [reflexivity|].
  destruct (text_ltb k x); [reflexivity|].
  rewrite perm_swap. constructor. exact IH.
Qed.

Lemma sort_keys_perm (l : list text) : Permutation l (sort_keys l).
Proof.
  induction l as [|k l IH]; [constructor|].
  cbn [sort_keys fold_right]. fold (sort_keys l).
  rewrite <- insert_key_perm. constructor. exact IH.
Qed.

Lemma sorted_perm_eq (l1 l2 : list text) :
  StronglySorted (fun a b => text_ltb b a = false) l1 ->
  StronglySorted (fun a b => text_ltb b a = false) l2 ->
  Permutation l1 l2 -> l1 = l2.
Proof.
  intros H1. revert l2. induction H1 as [|a l1 Hs1 IH Ha]; intros l2 H2 Hp.
  - apply Permutation_nil in Hp. congruence.
  - destruct H2 as [|b l2 Hs2 Hb].
    + apply Permutation_sym, Permutation_nil in Hp. discriminate.
    + assert (a = b) as <-.
      { rewrite Forall_forall in Ha, Hb.
        assert (Hba : In b (a :: l1)).
        { apply (Permutation_in b (Permutation_sym Hp)). left; reflexivity. }
        assert (Hab : In a (b :: l2)).
        { apply (Permutation_in a Hp). left; reflexivity. }
        destruct Hba as [->|Hba]; [reflexivity|].
        destruct Hab as [->|Hab]; [reflexivity|].
        apply text_ltb_total; [exact (Hb a Hab)|exact (Ha b Hba)]. }
      f_equal. apply IH; [exact Hs2|].
      exact (Permutation_cons_inv Hp).
Qed.

Lemma sort_keys_same (l1 l2 : list text) :
  NoDup l1 -> NoDup l2 ->
  (sort_keys l1 = sort_keys l2 <-> forall k, In k l1 <-> In k l2).
Proof.
  intros N1 N2. split.
  - intros E k. rewrite <- (sort_keys_In k l1), <- (sort_keys_In k l2), E.
    reflexivity.
  - intros H. apply sorted_perm_eq; try apply sort_keys_sorted.
    rewrite <- (sort_keys_perm l1), <- (sort_keys_perm l2).
    apply NoDup_Permutation; assumption.
Qed.

Lemma get_prop_None (es : list (text * value)) (key : text) :
  get_prop es key = None <-> ~ In key (map fst es).
Proof.
  induction es as [|[k v] es IH]; cbn [get_prop map fst In]; [tauto|].
  destruct (text_eqb k key) eqn:E.
  - apply text_eqb_eq in E. split; [discriminate|]. intros H. exfalso. tauto.
  - rewrite IH. split; [|tauto].
    intros H [->|H2]; [rewrite text_eqb_refl in E; discriminate|tauto].
Qed.

(** X16. On two objects, [compare] looks at keys and values only, not at the
    order of the members: it answers [true] exactly when the two objects
    have the same keys and, under each key, values that [compare] equal. *)
Theorem compare_objects_iff (num_eq : jnum -> jnum -> bool)
    (es1 es2 : list (text * value)) :
  NoDup (map fst es1) -> NoDup (map fst es2) ->
  (compare num_eq (JObject es1) (JObject es2) = true
   <-> (forall key, In key (map fst es1) <-> In key (map fst es2))
       /\ (forall key v1 v2,
             get_prop es1 key = Some v1 -> get_prop es2 key = Some v2 ->
             compare num_eq v1 v2 = true)).
Proof.
  intros N1 N2.
  rewrite compare_object by (right; eexists; reflexivity).
  unfold same_props. cbn [Object_keys get].
  rewrite andb_true_iff, keys_agree_eq, (sort_keys_same _ _ N1 N2),
    forallb_forall.
  split; intros [Hk Hv]; (split; [exact Hk|]).
  - intros key v1 v2 G1 G2.
    assert (Hin : In key (sort_keys (map fst es1))).
    { apply sort_keys_In. destruct (get_prop es1 key) eqn:G; [|discriminate].
      destruct (in_dec (list_eq_dec N.eq_dec) key (map fst es1)) as [i|n];
        [exact i|].
      apply get_prop_None in n. congruence. }
    specialize (Hv key Hin). rewrite G1, G2 in Hv. exact Hv.
  - intros key Hin. apply (proj1 (sort_keys_In _ _)) in Hin.
    destruct (get_prop_In es1 key Hin) as (v1 & G1 & _).
    destruct (get_prop_In es2 key (proj1 (Hk key) Hin)) as (v2 & G2 & _).
    rewrite G1, G2. cbn [compare_opt]. exact (Hv key v1 v2 G1 G2).
Qed.

(** X15. [compare] answers [true] on a value and itself, at every depth:
    the shortcut [obj1 === obj2] for one reference and the walk agree. *)
Theorem compare_equal_values (num_eq : jnum -> jnum -> bool) (v : value) :
  (forall n, num_eq n n = true) ->
  compare num_eq v v = true.
Proof.
  intros Hnum. exact (compare_refl num_eq Hnum v).
Qed.

Lemma jnum_eqb_refl (n : jnum) : jnum_eqb n n = true.
Proof.
  unfold jnum_eqb. rewrite Bool.eqb_reflx, N.eqb_refl, Z.eqb_refl. reflexivity.
Qed.

Lemma compare_equal_values_witness :
  (forall n, jnum_eqb n n = true)
  /\ compare jnum_eqb
       (JObject [(js "a", JArray [num 1; JNull]); (js "b", JString (js "x"))])
       (JObject [(js "a", JArray [num 1; JNull]); (js "b", JString (js "x"))])
     = true.
Proof.
  split; [exact jnum_eqb_refl|].
  apply (compare_equal_values jnum_eqb). exact jnum_eqb_refl.
Defined.

Lemma compare_objects_iff_witness :
  NoDup (map fst [(js "a", num 1); (js "b", JNull)])
  /\ NoDup (map fst [(js "b", JNull); (js "a", num 1)])
  /\ (compare jnum_eqb (JObject [(js "a", num 1); (js "b", JNull)])
        (JObject [(js "b", JNull); (js "a", num 1)]) = true
      <-> (forall key, In key (map fst [(js "a", num 1); (js "b", JNull)])
                       <-> In key (map fst [(js "b", JNull); (js "a", num 1)]))
          /\ (forall key v1 v2,
                get_prop [(js "a", num 1); (js "b", JNull)] key = Some v1 ->
                get_prop [(js "b", JNull); (js "a", num 1)] key = Some v2 ->
                compare jnum_eqb v1 v2 = true)).
Proof.
  assert (N1 : NoDup (map fst [(js "a", num 1); (js "b", JNull)])).
  { repeat constructor; cbn; intuition discriminate. }
  assert (N2 : NoDup (map fst [(js "b", JNull); (js "a", num 1)])).
  { repeat constructor; cbn; intuition discriminate. }
  split; [exact N1|]. split; [exact N2|].
  exact (compare_objects_iff jnum_eqb _ _ N1 N2).
Defined.

Lemma indexed_from_keys (l : list value) (i : nat) :
  map fst (indexed_from i l)
  = map (fun j => dec (N.of_nat j)) (seq i (length l)).
Proof.
  revert i. induction l as [|v l IH]; intros i; [reflexivity|].
  cbn [indexed_from map fst length seq]. rewrite IH. reflexivity.
Qed.

Lemma indexed_from_get (l : list value) (i : nat) (key : text) :
  get_prop (indexed_from i l) key = get_index l i key.
Proof.
  revert i. induction l as [|v l IH]; intros i; [reflexivity|].
  cbn [indexed_from get_prop get_index].
  destruct (text_eqb _ key); [reflexivity|apply IH].
Qed.

Lemma compare_opt_refl (num_eq : jnum -> jnum -> bool) (o : option value) :
  (forall n, num_eq n n = true) -> compare_opt num_eq o o = true.
Proof.
  intros H. destruct o as [v|]; [|reflexivity]. apply compare_refl, H.
Qed.

(** X17. [compare] does not tell an array from the object that holds its
    elements under the keys 0, 1, ...: both ways round it answers [true].
    In particular the empty array equals the empty object. *)
Theorem compare_array_with_indexed_object (num_eq : jnum -> jnum -> bool)
    (l : list value) :
  (forall n, num_eq n n = true) ->
  compare num_eq (JArray l) (JObject (indexed_from 0 l)) = true
  /\ compare num_eq (JObject (indexed_from 0 l)) (JArray l) = true.
Proof.
  intros Hnum. split.
  - rewrite compare_array_object. unfold same_props.
    cbn [Object_keys get]. rewrite indexed_from_keys. unfold index_keys.
    rewrite keys_agree_refl. cbn [andb].
    apply forallb_forall. intros key _.
    rewrite indexed_from_get. apply compare_opt_refl, Hnum.
  - rewrite compare_object by (left; eexists; reflexivity).
    unfold same_props.
    cbn [Object_keys get]. rewrite indexed_from_keys. unfold index_keys.
    rewrite keys_agree_refl. cbn [andb].
    apply forallb_forall. intros key _.
    rewrite indexed_from_get. apply compare_opt_refl, Hnum.
Qed.

Lemma compare_array_with_indexed_object_witness :
  (forall n, jnum_eqb n n = true)
  /\ compare jnum_eqb (JArray [num 7; JString (js "x")])
       (JObject [(js "0", num 7); (js "1", JString (js "x"))]) = true
  /\ compare jnum_eqb
       (JObject [(js "0", num 7); (js "1", JString (js "x"))])
       (JArray [num 7; JString (js "x")]) = true.
Proof.
  split; [exact jnum_eqb_refl|].
  exact (compare_array_with_indexed_object jnum_eqb
           [num 7; JString (js "x")] jnum_eqb_refl).
Defined.

(** *** Symmetry *)

Lemma text_eqb_sym (a b : text) : text_eqb a b = text_eqb b a.
Proof.
  unfold text_eqb.
  destruct (list_eq_dec N.eq_dec a b), (list_eq_dec N.eq_dec b a);
    congruence.
Qed.

Lemma keys_agree_sym (l1 l2 : list text) : keys_agree l1 l2 = keys_agree l2 l1.
Proof.
  revert l2. induction l1 as [|k l1 IH]; intros [|k2 l2]; try reflexivity.
  cbn [keys_agree]. rewrite text_eqb_sym, IH. reflexivity.
Qed.

Lemma get_prop_Some_In (es : list (text * value)) (key : text) (v : value) :
  get_prop es key = Some v -> In v (map snd es).
Proof.
  induction es as [|[k w] es IH]; [discriminate|].
  cbn [get_prop map snd In]. destruct (text_eqb k key).
  - intros [= ->]. left; reflexivity.
  - intros H. right. exact (IH H).
Qed.

Lemma get_index_Some_In (l : list value) (i : nat) (key : text) (v : value) :
  get_index l i key = Some v -> In v l.
Proof.
  revert i. induction l as [|w l IH]; intros i; [discriminate|].
  cbn [get_index In]. destruct (text_eqb _ key).
  - intros [= ->]. left; reflexivity.
  - intros H. right. exact (IH (S i) H).
Qed.

Lemma same_props_sym (num_eq : jnum -> jnum -> bool) (a b : value) :
  (forall key v, get a key = Some v ->
                 forall x, compare num_eq v x = compare num_eq x v) ->
  same_props num_eq a b = same_props num_eq b a.
Proof.
  intros H. unfold same_props. rewrite (keys_agree_sym _ (sort_keys (Object_keys a))).
  destruct (keys_agree _ _) eqn:E; [|reflexivity].
  apply keys_agree_eq in E. rewrite E. cbn [andb].
  apply forallb_ext. intros key.
  destruct (get a key) as [v|] eqn:G, (get b key) as [w|]; try reflexivity.
  cbn [compare_opt]. exact (H key v G w).
Qed.

Lemma same_elements_sym (num_eq : jnum -> jnum -> bool) (l1 l2 : list value) :
  Forall (fun v => forall x, compare num_eq v x = compare num_eq x v) l1 ->
  same_elements num_eq l1 l2 = same_elements num_eq l2 l1.
Proof.
  intros H. revert l2. induction H as [|v l1 Hv _ IH]; intros [|w l2];
    try reflexivity.
  cbn [same_elements]. rewrite (Hv w), IH. reflexivity.
Qed.

(** X18. [compare] is symmetric: swapping its two arguments never changes
    the answer. *)
Theorem compare_symmetric (num_eq : jnum -> jnum -> bool) (a b : value) :
  (forall x y, num_eq x y = num_eq y x) ->
  compare num_eq a b = compare num_eq b a.
Proof.
  intros Hnum. revert b.
  induction a as [| x | x | x | l IH | es IH] using value_nested_ind;
    intros b.
  - destruct b; reflexivity.
  - destruct b as [| y | | | |]; try reflexivity.
    cbn [compare strict_equal].
    destruct x, y; reflexivity.
  - destruct b as [| | y | | |]; try reflexivity.
    cbn [compare strict_equal is_null orb]. rewrite (Hnum x y). reflexivity.
  - destruct b as [| | | y | |]; try reflexivity.
    cbn [compare strict_equal is_null orb]. rewrite (text_eqb_sym x y).
    reflexivity.
  - destruct b as [| y | y | y | l2 | es2]; try reflexivity.
    + rewrite !compare_arrays, Nat.eqb_sym, (same_elements_sym num_eq l l2 IH).
      reflexivity.
    + rewrite compare_array_object,
        (compare_object num_eq es2 (JArray l)) by (left; eexists; reflexivity).
      apply same_props_sym. intros key v G x. cbn [get] in G.
      apply get_index_Some_In in G. rewrite Forall_forall in IH.
      exact (IH v G x).
  - assert (S : forall b, same_props num_eq (JObject es) b
                          = same_props num_eq b (JObject es)).
    { intros b'. apply same_props_sym. intros key v G x. cbn [get] in G.
      apply get_prop_Some_In in G. apply in_map_iff in G.
      destruct G as ([k w] & <- & Hin). rewrite Forall_forall in IH.
      exact (IH (k, w) Hin x). }
    destruct b as [| y | y | y | l2 | es2]; try reflexivity.
    + rewrite compare_array_object,
        (compare_object num_eq es (JArray l2)) by (left; eexists; reflexivity).
      apply S.
    + rewrite (compare_object num_eq es (JObject es2))
        by (right; eexists; reflexivity).
      rewrite (compare_object num_eq es2 (JObject es))
        by (right; eexists; reflexivity).
      apply S.
Qed.

Lemma jnum_eqb_sym (x y : jnum) : jnum_eqb x y = jnum_eqb y x.
Proof.
  unfold jnum_eqb.
  rewrite (N.eqb_sym (mant x)), (Z.eqb_sym (exp10 x)).
  destruct (neg x), (neg y); reflexivity.
Qed.

Lemma compare_symmetric_witness :
  (forall x y, jnum_eqb x y = jnum_eqb y x)
  /\ compare jnum_eqb (JArray [num 1; num 2]) (JObject [(js "0", num 1)])
     = compare jnum_eqb (JObject [(js "0", num 1)]) (JArray [num 1; num 2]).
Proof.
  split; [exact jnum_eqb_sym|].
  exact (compare_symmetric jnum_eqb _ _ jnum_eqb_sym).
Defined.

(* ================================================================== *)
(** ** [JSONMan.merge] *)

Lemma text_eqb_false (a b : text) : text_eqb a b = false <-> a <> b.
Proof.
  unfold text_eqb. destruct (list_eq_dec N.eq_dec a b); split;
    congruence.
Qed.

Lemma get_replace_prop (es : list (text * value)) (k k' : text) (v : value) :
  get_prop (replace_prop es k v) k'
  = match get_prop es k with
    | Some _ => if text_eqb k k' then Some v else get_prop es k'
    | None => get_prop es k'
    end.
Proof.
  induction es as [|[x w] es IH]; [reflexivity|].
  cbn [replace_prop get_prop].
  destruct (text_eqb x k) eqn:E.
  - apply text_eqb_eq in E. subst x. cbn [get_prop].
    destruct (text_eqb k k'); reflexivity.
  - cbn [get_prop]. rewrite IH.
    destruct (text_eqb x k') eqn:E2; [|reflexivity].
    apply text_eqb_eq in E2. subst x.
    destruct (get_prop es k); [|reflexivity]. rewrite text_eqb_sym, E.
    reflexivity.
Qed.

Lemma get_insert_index (es : list (text * value)) (k k' : text) (v : value) :
  get_prop es k = None ->
  get_prop (insert_index es k v) k'
  = if text_eqb k k' then Some v else get_prop es k'.
Proof.
  induction es as [|[x w] es IH]; intros H; [reflexivity|].
  cbn [get_prop] in H. destruct (text_eqb x k) eqn:E; [discriminate|].
  cbn [insert_index].
  destruct (is_array_index x && (digits_val x <? digits_val k)%N)%bool;
    cbn [get_prop]; [|reflexivity].
  rewrite (IH H). destruct (text_eqb x k') eqn:E2; [|reflexivity].
  apply text_eqb_eq in E2. subst x. rewrite text_eqb_sym, E. reflexivity.
Qed.

Lemma get_prop_app (es es' : list (text * value)) (k : text) :
  get_prop (es ++ es') k
  = match get_prop es k with Some v => Some v | None => get_prop es' k end.
Proof.
  induction es as [|[x w] es IH]; [reflexivity|].
  cbn [app get_prop]. destruct (text_eqb x k); [reflexivity|exact IH].
Qed.

Lemma get_set_prop (es : list (text * value)) (k k' : text) (v : value) :
  get_prop (set_prop es k v) k'
  = if text_eqb k k' then Some v else get_prop es k'.
Proof.
  unfold set_prop. destruct (get_prop es k) eqn:G.
  - rewrite get_replace_prop, G. reflexivity.
  - destruct (is_array_index k).
    + apply get_insert_index, G.
    + rewrite get_prop_app. cbn [get_prop].
      destruct (text_eqb k k') eqn:E.
      * apply text_eqb_eq in E. subst k'. rewrite G. reflexivity.
      * destruct (get_prop es k'); reflexivity.
Qed.

(** What the loop leaves under [key], from what [result] held there. *)
Lemma merge_entries_lookup (rec : value -> value -> option value)
    (es : list (text * value)) :
  NoDup (map fst es) ->
  ~ In (js "__proto__") (map fst es) ->
  forall result res, merge_entries rec es result = Some res ->
  forall key,
    get_prop res key
    = match get_prop es key with
      | Some v2 =>
          match get_prop result key, v2 with
          | Some (JObject o1), JObject _ => rec (JObject o1) v2
          | _, _ => Some v2
          end
      | None => get_prop result key
      end.
Proof.
  induction es as [|[k v] es IH]; intros Hnd Hp result res H key.
  - cbn in H. injection H as <-. reflexivity.
  - cbn [map fst] in Hnd, Hp. inversion Hnd as [|? ? Hk Hnd']; subst.
    assert (Hk' : get_prop es k = None) by (apply get_prop_None; exact Hk).
    assert (Hp' : ~ In (js "__proto__") (map fst es)).
    { intros C. apply Hp. right. exact C. }
    assert (Ek : text_eqb k (js "__proto__") = false).
    { apply text_eqb_false. intros C. apply Hp. left. exact C. }
    assert (step : forall m,
      merge_entries rec es (set_prop result k m) = Some res ->
      get_prop res key
      = if text_eqb k key then Some m
        else match get_prop es key with
             | Some v2 =>
                 match get_prop result key, v2 with
                 | Some (JObject o1), JObject _ => rec (JObject o1) v2
                 | _, _ => Some v2
                 end
             | None => get_prop result key
             end).
    { intros m Hm. rewrite (IH Hnd' Hp' _ _ Hm key), !get_set_prop.
      destruct (text_eqb k key) eqn:E; [|reflexivity].
      apply text_eqb_eq in E. subst key. rewrite Hk'. reflexivity. }
    cbn [merge_entries] in H. cbn [get_prop].
    destruct (get_prop result k) as [old|] eqn:G.
    + destruct v as [| b | n | s | l | o2];
        try (rewrite (step _ H); destruct (text_eqb k key) eqn:E;
             [apply text_eqb_eq in E; subst key; rewrite G;
              destruct old; reflexivity
             |reflexivity]).
      destruct old as [| b | n | s | l | o1];
        try (rewrite (step _ H); destruct (text_eqb k key) eqn:E;
             [apply text_eqb_eq in E; subst key; rewrite G; reflexivity
             |reflexivity]).
      destruct (rec (JObject o1) (JObject o2)) as [m|] eqn:R; [|discriminate].
      rewrite (step _ H). destruct (text_eqb k key) eqn:E; [|reflexivity].
      apply text_eqb_eq in E. subst key. rewrite G, R. reflexivity.
    + rewrite Ek in H. rewrite (step _ H).
      destruct (text_eqb k key) eqn:E; [|reflexivity].
      apply text_eqb_eq in E. subst key. rewrite G.
      destruct v; reflexivity.
Qed.

Lemma merge_entries_some (rec : value -> value -> option value)
    (es : list (text * value)) :
  Forall (fun kv => text_eqb (fst kv) (js "__proto__") = false
                    /\ forall old, exists m, rec old (snd kv) = Some m) es ->
  forall result, exists res, merge_entries rec es result = Some res.
Proof.
  induction 1 as [|[k v] es [Hk Hv] _ IH]; intros result.
  - eexists; reflexivity.
  - cbn [merge_entries fst snd] in *.
    destruct (get_prop result k) as [old|].
    + destruct v; try apply IH.
      destruct old; try apply IH.
      destruct (Hv (JObject l0)) as (m & ->). apply IH.
    + rewrite Hk. apply IH.
Qed.

Lemma merge_total (obj2 : value) :
  proto_free obj2 = true -> forall obj1, exists r, merge obj1 obj2 = Some r.
Proof.
  induction obj2 as [| b | n | s | l IH | es IH] using value_nested_ind;
    intros Hp obj1; try (destruct obj1; eexists; reflexivity).
  destruct obj1 as [| b | n | s | l | es1]; try (eexists; reflexivity).
  cbn [merge].
  destruct (merge_entries_some (fun old v => merge old v) es) with (result := es1)
    as (res & ->); [|eexists; reflexivity].
  cbn [proto_free] in Hp. rewrite forallb_forall in Hp.
  rewrite Forall_forall in IH |- *. intros [k v] Hin.
  specialize (Hp _ Hin). cbn [fst snd] in *.
  apply andb_true_iff in Hp. destruct Hp as [Hk Hv].
  split; [destruct (text_eqb k _); [discriminate|reflexivity]|].
  intros old. exact (IH (k, v) Hin Hv old).
Qed.

Lemma proto_free_keys (es : list (text * value)) :
  proto_free (JObject es) = true -> ~ In (js "__proto__") (map fst es).
Proof.
  cbn [proto_free]. rewrite forallb_forall. intros H C.
  apply in_map_iff in C. destruct C as ([k v] & E & Hin). cbn [fst] in E.
  subst k. specialize (H _ Hin). cbn [fst] in H.
  rewrite text_eqb_refl in H. discriminate.
Qed.

(** X19. [merge] of two objects is a deep, right-biased union.  When no
    object walked in [obj2] has the key [__proto__], [merge] returns an
    object that holds, under each key of [obj2], the value of [obj2], or
    the [merge] of the two values when both are objects (arrays excluded);
    and, under every other key, what [obj1] holds there. *)
Theorem merge_objects_lookup (es1 es2 : list (text * value)) :
  NoDup (map fst es2) ->
  proto_free (JObject es2) = true ->
  exists res,
    merge (JObject es1) (JObject es2) = Some (JObject res)
    /\ forall key,
         get_prop res key
         = match get_prop es2 key with
           | Some v2 => merged_value (get_prop es1 key) v2
           | None => get_prop es1 key
           end.
Proof.
  intros Hnd Hp.
  destruct (merge_total (JObject es2) Hp (JObject es1)) as (r & Hr).
  cbn [merge] in Hr.
  destruct (merge_entries (fun old v => merge old v) es2 es1) as [res|] eqn:E;
    [|discriminate].
  exists res. split; [cbn [merge]; rewrite E; reflexivity|].
  intros key.
  rewrite (merge_entries_lookup _ es2 Hnd (proto_free_keys es2 Hp) es1 res E key).
  unfold merged_value. reflexivity.
Qed.

Lemma merge_objects_lookup_witness :
  NoDup (map fst [(js "a", JObject [(js "y", num 2)]); (js "c", num 3)])
  /\ proto_free (JObject [(js "a", JObject [(js "y", num 2)]); (js "c", num 3)])
     = true
  /\ exists res,
       merge (JObject [(js "a", JObject [(js "x", num 1)]); (js "b", JNull)])
         (JObject [(js "a", JObject [(js "y", num 2)]); (js "c", num 3)])
       = Some (JObject res)
       /\ forall key,
            get_prop res key
            = match get_prop [(js "a", JObject [(js "y", num 2)]);
                              (js "c", num 3)] key with
              | Some v2 =>
                  merged_value
                    (get_prop [(js "a", JObject [(js "x", num 1)]);
                               (js "b", JNull)] key) v2
              | None =>
                  get_prop [(js "a", JObject [(js "x", num 1)]);
                            (js "b", JNull)] key
              end.
Proof.
  assert (N : NoDup (map fst [(js "a", JObject [(js "y", num 2)]);
                              (js "c", num 3)])).
  { repeat constructor; cbn; intuition discriminate. }
  split; [exact N|]. split; [reflexivity|].
  apply (merge_objects_lookup _ _ N). reflexivity.
Defined.

(* ================================================================== *)
(** ** [JSONMan.search] *)

Lemma search_items_Forall (P : Match -> Prop)
    (walk : value -> text -> list Match) (path : text) (l : list value) :
  Forall (fun item => forall p, Forall P (walk item p)) l ->
  forall index, Forall P (search_items walk path l index).
Proof.
  induction 1 as [|item l Hi _ IH]; intros index; cbn [search_items].
  - constructor.
  - apply Forall_app. split; [apply Hi|apply IH].
Qed.

Lemma search_entries_Forall (P : Match -> Prop)
    (walk : value -> text -> list Match) (query path : text)
    (es : list (text * value)) :
  (forall key v, hit query key v = true ->
                 P (mkMatch (new_path path key) key v)) ->
  Forall (fun kv => forall p, Forall P (walk (snd kv) p)) es ->
  Forall P (search_entries walk query path es).
Proof.
  intros Hhit. induction 1 as [|[key v] es Hv _ IH]; cbn [search_entries].
  - constructor.
  - apply Forall_app. split.
    + destruct (hit query key v) eqn:E; constructor; [|constructor].
      apply Hhit, E.
    + apply Forall_app. split; [apply Hv|exact IH].
Qed.

(** X20. Every match that [search] reports is a hit: its key, or its value
    when that is a string, contains the query; its path is its key, or ends
    with a dot and its key; and [totalFound] counts the matches. *)
Theorem search_matches_sound (data : value) (query : text) :
  Forall (fun m => hit query (m_key m) (m_value m) = true
                   /\ (m_path m = m_key m
                       \/ exists p, m_path m = p ++ js "." ++ m_key m))
    (fst (search_ data query))
  /\ snd (search_ data query) = length (fst (search_ data query)).
Proof.
  split; [|reflexivity]. unfold search_. cbn [fst].
  generalize (@nil char) as path. fold text.
  induction data as [| b | n | s | l IH | es IH] using value_nested_ind;
    intros path; try constructor.
  - cbn [search_walk]. apply search_items_Forall. exact IH.
  - cbn [search_walk]. apply search_entries_Forall; [|exact IH].
    intros key v Hh. cbn [m_key m_value m_path]. split; [exact Hh|].
    destruct path as [|c path]; [left; reflexivity|].
    right. exists (c :: path). reflexivity.
Qed.

(** X21. [search] reports members of objects only: in a value that holds no
    object, whatever strings its arrays hold, it finds nothing. *)
Theorem search_finds_nothing_without_objects (data : value) (query : text) :
  object_free data = true ->
  search_ data query = ([], 0).
Proof.
  intros H. unfold search_.
  assert (E : forall path, search_walk query data path = []).
  { revert H.
    induction data as [| b | n | s | l IH | es IH] using value_nested_ind;
      intros H path; try reflexivity; [|discriminate].
    cbn [search_walk object_free] in *.
    rewrite forallb_forall in H. rewrite Forall_forall in IH.
    generalize 0 as index.
    induction l as [|item l IHl]; intros index; [reflexivity|].
    cbn [search_items].
    rewrite (IH item (or_introl eq_refl) (H item (or_introl eq_refl))).
    apply IHl.
    - intros x Hx. apply IH. right. exact Hx.
    - intros x Hx. apply H. right. exact Hx. }
  rewrite E. reflexivity.
Qed.

Lemma search_finds_nothing_without_objects_witness :
  object_free (JArray [JString (js "needle"); JArray [JString (js "needle")]])
  = true
  /\ search_ (JArray [JString (js "needle"); JArray [JString (js "needle")]])
       (js "needle") = ([], 0).
Proof.
  split; [reflexivity|].
  apply search_finds_nothing_without_objects. reflexivity.
Defined.

(* ================================================================== *)
(** ** Running the passes again on a repaired text

    The patterns of the passes are read against the automaton of the plain
    JSON texts: the reading is sound for the matcher, and it finds that no
    pattern matches in a text of the class, two patterns apart whose
    matches are put back as they are. *)

Lemma wprog_eqb_eq (a b : wprog) : wprog_eqb a b = true -> a = b.
Proof.
  destruct a, b; cbn [wprog_eqb]; try discriminate; try reflexivity.
  - unfold text_eqb. destruct (list_eq_dec N.eq_dec p p0); [congruence|discriminate].
  - intros H. apply Nat.eqb_eq in H. congruence.
Qed.

Lemma state_eqb_eq (a b : shape_state) : state_eqb a b = true -> a = b.
Proof.
  destruct a, b; cbn [state_eqb]; try discriminate; try reflexivity; intros H;
    repeat (apply andb_prop in H; destruct H as [H ?]);
    repeat match goal with
           | E : Bool.eqb _ _ = true |- _ => apply eqb_prop in E; subst
           | E : Nat.eqb _ _ = true |- _ => apply Nat.eqb_eq in E; subst
           | E : wprog_eqb _ _ = true |- _ => apply wprog_eqb_eq in E; subst
           end; try reflexivity.
  destruct r, r0; try discriminate; reflexivity.
Qed.

Lemma astate_eqb_eq (a b : astate) : astate_eqb a b = true -> a = b.
Proof.
  destruct a as [q w g c n], b as [q' w' g' c' n']. unfold astate_eqb.
  cbn [aq aw ag aacc anext]. intros H.
  repeat (apply andb_prop in H; destruct H as [H ?]).
  apply state_eqb_eq in H.
  repeat match goal with
         | E : Bool.eqb _ _ = true |- _ => apply eqb_prop in E; subst
         end.
  subst. f_equal.
  destruct n as [[|]|], n' as [[|]|]; try discriminate; reflexivity.
Qed.

Lemma amem_In (a : astate) (l : list astate) : amem a l = true -> In a l.
Proof.
  unfold amem. intros H. apply existsb_exists in H.
  destruct H as [b [Hb E]]. apply astate_eqb_eq in E. subst. exact Hb.
Qed.

Lemma In_aadd (a b : astate) (l : list astate) :
  In b (aadd a l) <-> a = b \/ In b l.
Proof.
  unfold aadd. destruct (amem a l) eqn:E; cbn [In].
  - split; [auto|]. intros [<-|H]; [apply amem_In, E|exact H].
  - tauto.
Qed.

Lemma In_aunion (b : astate) (l1 l2 : list astate) :
  In b (aunion l1 l2) <-> In b l1 \/ In b l2.
Proof.
  unfold aunion. induction l1 as [|a l1 IH]; cbn [fold_right In].
  - tauto.
  - rewrite In_aadd, IH. tauto.
Qed.

Lemma asubset_In (l1 l2 : list astate) :
  asubset l1 l2 = true -> forall a, In a l1 -> In a l2.
Proof.
  unfold asubset. intros H a Ha.
  apply amem_In. exact (proj1 (forallb_forall _ _) H a Ha).
Qed.

Lemma abind_In (l : list astate) (f : astate -> option (list astate))
    (t : list astate) :
  abind l f = Some t ->
  forall a, In a l -> exists u, f a = Some u /\ forall b, In b u -> In b t.
Proof.
  revert t. induction l as [|a0 l IH]; intros t H a Ha; [destruct Ha|].
  cbn [abind] in H.
  destruct (f a0) as [t1|] eqn:F; [|discriminate].
  destruct (abind l f) as [t2|] eqn:B; [|discriminate].
  injection H as <-.
  destruct Ha as [<-|Ha].
  - exists t1. split; [exact F|]. intros b Hb. apply In_aunion. auto.
  - destruct (IH t2 eq_refl a Ha) as [u [Fu Hu]].
    exists u. split; [exact Fu|]. intros b Hb. apply In_aunion. auto.
Qed.

Lemma mem_In (c : char) (l : text) : mem c l = true -> In c l.
Proof.
  unfold mem. intros H. apply existsb_exists in H.
  destruct H as [x [Hx E]]. apply N.eqb_eq in E. subst. exact Hx.
Qed.

Lemma delta_sigma (q q' : shape_state) (c : char) :
  delta q c = Some q' -> In c sigma.
Proof.
  unfold delta. destruct (mem c sigma) eqn:E; [|discriminate].
  intros _. apply mem_In, E.
Qed.

Lemma accepted_cons (q : shape_state) (c : char) (t : text) :
  accepted_from q (c :: t) = true ->
  exists q', delta q c = Some q' /\ accepted_from q' t = true.
Proof.
  unfold accepted_from. cbn [run].
  destruct (delta q c) as [q'|]; [|discriminate].
  intros H. exists q'. split; [reflexivity|exact H].
Qed.

Lemma accepted_nil (q : shape_state) :
  accepted_from q [] = true -> final q = true.
Proof. intros H. exact H. Qed.

Lemma In_atom_step (mk p : char -> bool) (a : astate) (c : char)
    (q' : shape_state) :
  In c sigma -> p c = true -> next_ok (anext a) c = true ->
  delta (aq a) c = Some q' ->
  In (AS q' (is_word c) (ag a) (aacc a || mk c) None) (atom_step mk p a).
Proof.
  unfold atom_step. intros Hc Hp Hn Hd.
  induction sigma as [|c0 l IH]; [destruct Hc|].
  cbn [fold_right]. destruct Hc as [->|Hc].
  - rewrite Hp, Hn, Hd. cbn [andb]. apply In_aadd. left. reflexivity.
  - specialize (IH Hc).
    destruct (p c0 && next_ok (anext a) c0)%bool; [|exact IH].
    destruct (delta (aq a) c0); [|exact IH].
    apply In_aadd. right. exact IH.
Qed.

Section Sound.
Variable n0 : nat.
Variable mk : char -> bool.

Lemma atom_sound (p : char -> bool) : sound n0 mk (atom p) (aatom mk p).
Proof.
  intros s t Hs x0 x a k z Ha R Hm.
  unfold atom in Hm.
  destruct (rest x) as [|c tl] eqn:Er; [discriminate|].
  destruct (p c) eqn:Ep; [|discriminate].
  destruct R as [Rw Rq [p0 [Rx Ra]] Rg Rn].
  rewrite Er in Rq, Rx, Rn.
  destruct (accepted_cons _ _ _ Rq) as [q' [Hd Hq']].
  destruct (abind_In _ _ _ Hs a Ha) as [u [Hu Hin]].
  injection Hu as <-.
  exists (MState (Some c) tl (caps x)),
         (AS q' (is_word c) (ag a) (aacc a || mk c) None).
  split; [|split; [|exact Hm]].
  - apply Hin, In_atom_step; try assumption.
    + exact (delta_sigma _ _ _ Hd).
    + unfold next_ok. destruct (anext a) as [b|] eqn:En; [|reflexivity].
      rewrite <- (Rn b eq_refl). cbn [hd_error is_word_opt].
      apply eqb_reflx.
  - constructor; cbn [prev rest caps aq aw ag aacc anext is_word_opt].
    + reflexivity.
    + exact Hq'.
    + exists (p0 ++ [c]). split.
      * rewrite Rx, <- app_assoc. reflexivity.
      * rewrite existsb_app, Ra. cbn [existsb]. rewrite orb_false_r. reflexivity.
    + exact Rg.
    + discriminate.
Qed.

Lemma find_filter_fst (n k : nat) (cs : list (nat * text)) :
  n <> k ->
  find (fun p => Nat.eqb (fst p) k)
       (filter (fun p => negb (Nat.eqb (fst p) n)) cs)
  = find (fun p => Nat.eqb (fst p) k) cs.
Proof.
  intros Hn. induction cs as [|[i v] cs IH]; [reflexivity|].
  cbn [filter find fst].
  destruct (Nat.eqb_spec i n) as [->|Hi]; cbn [negb].
  - destruct (Nat.eqb_spec n k) as [E|_]; [contradiction|exact IH].
  - cbn [find fst]. rewrite IH. reflexivity.
Qed.

Lemma cap_of_set_other (n : nat) (v : text) (y : mstate) :
  n <> n0 -> cap_of n0 (caps (set_cap n v y)) = cap_of n0 (caps y).
Proof.
  intros Hn. unfold cap_of, set_cap. cbn [caps find fst].
  destruct (Nat.eqb_spec n n0) as [E|_]; [contradiction|].
  rewrite (find_filter_fst n n0 (caps y) Hn). reflexivity.
Qed.

Lemma cap_of_set_same (v : text) (y : mstate) :
  cap_of n0 (caps (set_cap n0 v y)) = v.
Proof.
  unfold cap_of, set_cap. cbn [caps find fst]. rewrite Nat.eqb_refl. reflexivity.
Qed.

Lemma find_filter_groups (gs : list nat) (cs : list (nat * text)) :
  existsb (Nat.eqb n0) gs = false ->
  find (fun p => Nat.eqb (fst p) n0)
       (filter (fun p => negb (existsb (Nat.eqb (fst p)) gs)) cs)
  = find (fun p => Nat.eqb (fst p) n0) cs.
Proof.
  intros Hg. induction cs as [|[i v] cs IH]; [reflexivity|].
  cbn [filter find fst].
  destruct (existsb (Nat.eqb i) gs) eqn:E; cbn [negb].
  - destruct (Nat.eqb_spec i n0) as [->|_]; [congruence|exact IH].
  - cbn [find fst]. rewrite IH. reflexivity.
Qed.

Lemma rel_clear_caps (gs : list nat) (x0 : text) (x : mstate) (a : astate) :
  existsb (Nat.eqb n0) gs = false ->
  rel n0 mk x0 x a -> rel n0 mk x0 (clear_caps gs x) a.
Proof.
  intros Hg [Rw Rq Ra Rg Rn].
  constructor; cbn [clear_caps prev rest caps]; try assumption.
  unfold cap_of in *. rewrite (find_filter_groups gs (caps x) Hg). exact Rg.
Qed.

Lemma rel_set_other (n : nat) (v : text) (x0 : text) (y : mstate) (b : astate) :
  n <> n0 -> rel n0 mk x0 y b -> rel n0 mk x0 (set_cap n v y) b.
Proof.
  intros Hn [Rw Rq Ra Rg Rn].
  constructor; try assumption.
  rewrite (cap_of_set_other n v y Hn). exact Rg.
Qed.

Lemma consumed_app (x y : mstate) (p : text) :
  rest x = p ++ rest y -> consumed x y = p.
Proof.
  intros E. unfold consumed. rewrite E, length_app.
  replace (length p + length (rest y) - length (rest y)) with (length p) by lia.
  rewrite firstn_app, firstn_all, Nat.sub_diag. cbn [firstn].
  apply app_nil_r.
Qed.

Section Rep.
Variable r1 : re.
Variable f : list astate -> option (list astate).
Hypothesis IH : sound n0 mk (m r1) f.
Variable gs : list nat.
Hypothesis Hgs : existsb (Nat.eqb n0) gs = false.
Variable greedy : bool.

Lemma rep_bounded_sound (n : nat) :
  forall fuel min s t,
    abounded f n min s = Some t ->
    forall x0 x a k z,
      In a s -> rel n0 mk x0 x a ->
      rep (m r1) gs greedy k fuel min (Some n) x = Some z ->
      exists y b, In b t /\ rel n0 mk x0 y b /\ k y = Some z.
Proof.
  induction n as [|n IHn]; intros fuel min s t Ht x0 x a k z Ha R Hm;
    (destruct fuel as [|fuel]; [discriminate|]); cbn [abounded] in Ht.
  - injection Ht as <-. cbn [rep max_is_zero] in Hm.
    exists x, a. auto.
  - destruct (f s) as [t1|] eqn:F; [|discriminate].
    destruct (abounded f n (pred min) t1) as [u|] eqn:B; [|discriminate].
    injection Ht as <-.
    cbn [rep max_is_zero pred_max pred] in Hm.
    assert (Step : forall d0 : mstate -> bool,
               m r1 (clear_caps gs x)
                 (fun y => if d0 y then None
                           else rep (m r1) gs greedy k fuel (pred min) (Some n) y)
               = Some z ->
               exists y b, In b u /\ rel n0 mk x0 y b /\ k y = Some z).
    { intros d0 Hd.
      destruct (IH s t1 F x0 _ a _ z Ha (rel_clear_caps gs x0 x a Hgs R) Hd)
        as [y [b [Hb [Rb Hk]]]].
      destruct (d0 y); [discriminate|].
      exact (IHn fuel (pred min) t1 u B x0 y b k z Hb Rb Hk). }
    destruct (Nat.eqb min 0) eqn:Emin; cbn [negb andb] in Hm.
    + assert (Both : m r1 (clear_caps gs x)
                       (fun y => if Nat.eqb (length (rest y)) (length (rest x))
                                 then None
                                 else rep (m r1) gs greedy k fuel (pred min) (Some n) y)
                     = Some z \/ k x = Some z).
      { destruct greedy; unfold or_else in Hm.
        - destruct (m r1 (clear_caps gs x) _) eqn:E1; [left; exact Hm|right; exact Hm].
        - destruct (k x) eqn:E2; [right; exact Hm|left; exact Hm]. }
      destruct Both as [H1|H2].
      * destruct (Step _ H1) as [y [b [Hb HR]]].
        exists y, b. split; [apply In_aunion; auto|exact HR].
      * exists x, a. split; [apply In_aunion; auto|split; assumption].
    + exact (Step (fun _ => false) Hm).
Qed.

Lemma closure_spec (fuel : nat) :
  forall s c, closure f fuel s = Some c ->
    (forall a, In a s -> In a c)
    /\ exists t1, f c = Some t1 /\ forall b, In b t1 -> In b c.
Proof.
  induction fuel as [|fuel IHf]; intros s c H; [discriminate|].
  cbn [closure] in H.
  destruct (f s) as [t|] eqn:F; [|discriminate].
  destruct (asubset t s) eqn:E.
  - injection H as <-. split; [auto|].
    exists t. split; [exact F|exact (asubset_In t s E)].
  - destruct (IHf _ _ H) as [H1 H2]. split; [|exact H2].
    intros a Ha. apply H1, In_aunion. auto.
Qed.

Lemma rep_closure_sound (c t1 t : list astate) :
  f c = Some t1 ->
  (forall b, In b t1 -> In b c /\ In b t) ->
  forall fuel min max x0 x a k z,
    In a c -> rel n0 mk x0 x a ->
    In a t \/ (Nat.eqb min 0 = false /\ max_is_zero max = false) ->
    rep (m r1) gs greedy k fuel min max x = Some z ->
    exists y b, In b t /\ rel n0 mk x0 y b /\ k y = Some z.
Proof.
  intros F Ht1.
  induction fuel as [|fuel IHf]; intros min max x0 x a k z Ha R D Hm;
    [discriminate|].
  cbn [rep] in Hm.
  destruct (max_is_zero max) eqn:Emax.
  - destruct D as [D|[_ D]]; [|discriminate]. exists x, a. auto.
  - assert (Step : forall d0 : mstate -> bool,
               m r1 (clear_caps gs x)
                 (fun y => if d0 y then None
                           else rep (m r1) gs greedy k fuel (pred min) (pred_max max) y)
               = Some z ->
               exists y b, In b t /\ rel n0 mk x0 y b /\ k y = Some z).
    { intros d0 Hd.
      destruct (IH c t1 F x0 _ a _ z Ha (rel_clear_caps gs x0 x a Hgs R) Hd)
        as [y [b [Hb [Rb Hk]]]].
      destruct (d0 y); [discriminate|].
      destruct (Ht1 b Hb) as [Hc Hbt].
      exact (IHf (pred min) (pred_max max) x0 y b k z Hc Rb (or_introl Hbt) Hk). }
    destruct (Nat.eqb min 0) eqn:Emin; cbn [negb andb] in Hm.
    + destruct D as [D|[D _]]; [|discriminate].
      assert (Both : m r1 (clear_caps gs x)
                       (fun y => if Nat.eqb (length (rest y)) (length (rest x))
                                 then None
                                 else rep (m r1) gs greedy k fuel (pred min)
                                        (pred_max max) y)
                     = Some z \/ k x = Some z).
      { destruct greedy; unfold or_else in Hm.
        - destruct (m r1 (clear_caps gs x) _) eqn:E1; [left; exact Hm|right; exact Hm].
        - destruct (k x) eqn:E2; [right; exact Hm|left; exact Hm]. }
      destruct Both as [H1|H2]; [exact (Step _ H1)|].
      exists x, a. auto.
    + exact (Step (fun _ => false) Hm).
Qed.

End Rep.

Lemma areach_sound (r : re) : sound n0 mk (m r) (areach n0 mk r).
Proof.
  induction r as [|c| |neg items|r1 IH1 r2 IH2|r1 IH1 r2 IH2
                 |min max greedy r1 IH1|n r1 IH1|r1 IH1| |];
    intros s t Hs x0 x a k z Ha R Hm; cbn [areach m] in *.
  - injection Hs as <-. exists x, a. auto.
  - exact (atom_sound _ s t Hs x0 x a k z Ha R Hm).
  - exact (atom_sound _ s t Hs x0 x a k z Ha R Hm).
  - exact (atom_sound _ s t Hs x0 x a k z Ha R Hm).
  - destruct (areach n0 mk r1 s) as [t1|] eqn:E1; [|discriminate].
    destruct (IH1 s t1 E1 x0 x a _ z Ha R Hm) as [y [b [Hb [Rb Hk]]]].
    exact (IH2 t1 t Hs x0 y b k z Hb Rb Hk).
  - destruct (areach n0 mk r1 s) as [t1|] eqn:E1; [|discriminate].
    destruct (areach n0 mk r2 s) as [t2|] eqn:E2; [|discriminate].
    injection Hs as <-. unfold or_else in Hm.
    destruct (m r1 x k) eqn:M1.
    + destruct (IH1 s t1 E1 x0 x a k z Ha R) as [y [b [Hb HR]]];
        [rewrite M1; exact Hm|].
      exists y, b. split; [apply In_aunion; auto|exact HR].
    + destruct (IH2 s t2 E2 x0 x a k z Ha R Hm) as [y [b [Hb HR]]].
      exists y, b. split; [apply In_aunion; auto|exact HR].
  - destruct (existsb (Nat.eqb n0) (groups r1)) eqn:Hg; [discriminate|].
    destruct max as [n|].
    + exact (rep_bounded_sound r1 _ IH1 (groups r1) Hg greedy n _ min s t Hs
               x0 x a k z Ha R Hm).
    + destruct (closure (areach n0 mk r1) 400 s) as [c|] eqn:C; [|discriminate].
      destruct (closure_spec _ _ _ _ C) as [Hsc [t1 [F Ht1]]].
      destruct (Nat.eqb min 0) eqn:Emin.
      * injection Hs as <-.
        refine (rep_closure_sound r1 _ IH1 (groups r1) Hg greedy c t1 c F _
                  _ min None x0 x a k z (Hsc a Ha) R (or_introl (Hsc a Ha)) Hm).
        intros b Hb. split; apply Ht1, Hb.
      * rewrite F in Hs. injection Hs as <-.
        refine (rep_closure_sound r1 _ IH1 (groups r1) Hg greedy c t1 t1 F _
                  _ min None x0 x a k z (Hsc a Ha) R (or_intror (conj Emin eq_refl)) Hm).
        intros b Hb. split; [apply Ht1, Hb|exact Hb].
  - destruct (Nat.eqb_spec n n0) as [->|Hn].
    + destruct (abind_In _ _ _ Hs a Ha) as [u [Hu Hin]].
      destruct (areach n0 mk r1 [AS (aq a) (aw a) (ag a) false (anext a)])
        as [ta|] eqn:E1; [|discriminate].
      injection Hu as <-.
      destruct R as [Rw Rq [p0 [Rx Ra]] Rg Rn].
      assert (R0 : rel n0 mk (rest x) x (AS (aq a) (aw a) (ag a) false (anext a))).
      { constructor; cbn [aq aw ag aacc anext]; try assumption.
        exists []. split; reflexivity. }
      destruct (IH1 _ ta E1 (rest x) x _ _ z (or_introl eq_refl) R0 Hm)
        as [y [b [Hb [[Bw Bq [p1 [Bx Ba]] Bg Bn] Hk]]]].
      exists (set_cap n0 (consumed x y) y),
             (AS (aq b) (aw b) (aacc b) (aacc a || aacc b) (anext b)).
      split; [|split; [|exact Hk]].
      * apply Hin, in_map_iff. exists b. split; [reflexivity|exact Hb].
      * constructor; cbn [aq aw ag aacc anext set_cap prev rest]; try assumption.
        -- exists (p0 ++ p1). split.
           ++ rewrite Rx, Bx, app_assoc. reflexivity.
           ++ rewrite existsb_app, Ra, Ba. reflexivity.
        -- rewrite cap_of_set_same, (consumed_app x y p1 Bx). exact Ba.
    + destruct (IH1 s t Hs x0 x a _ z Ha R Hm) as [y [b [Hb [Rb Hk]]]].
      exists (set_cap n (consumed x y) y), b.
      split; [exact Hb|split; [|exact Hk]].
      apply rel_set_other; assumption.
  - destruct (m r1 x (fun y => Some y)) as [y0|] eqn:M1; [|discriminate].
    destruct (abind_In _ _ _ Hs a Ha) as [u [Hu Hin]].
    destruct (areach n0 mk r1 [a]) as [ta|] eqn:E1; [|discriminate].
    injection Hu as <-.
    destruct (IH1 _ ta E1 x0 x a _ y0 (or_introl eq_refl) R M1)
      as [y [b [Hb [[Bw Bq Bacc Bg Bn] Hk]]]].
    injection Hk as ->.
    destruct R as [Rw Rq Ra Rg Rn].
    exists (MState (prev x) (rest x) (caps y0)),
           (AS (aq a) (aw a) (ag b) (aacc a) (anext a)).
    split; [|split; [|exact Hm]].
    + apply Hin, in_map_iff. exists b. split; [reflexivity|exact Hb].
    + constructor; cbn [aq aw ag aacc anext prev rest caps]; assumption.
  - destruct (xorb (is_word_opt (prev x)) (is_word_opt (hd_error (rest x))))
      eqn:X; [|discriminate].
    destruct (abind_In _ _ _ Hs a Ha) as [u [Hu Hin]].
    injection Hu as <-.
    destruct R as [Rw Rq Ra Rg Rn].
    rewrite Rw in X.
    assert (Hh : is_word_opt (hd_error (rest x)) = negb (aw a))
      by (destruct (aw a), (is_word_opt (hd_error (rest x)));
          try discriminate; reflexivity).
    exists x, (AS (aq a) (aw a) (ag a) (aacc a) (Some (negb (aw a)))).
    split; [|split; [|exact Hm]].
    + apply Hin. unfold wordb_step.
      replace (match anext a with
               | Some b' => Bool.eqb b' (negb (aw a))
               | None => true
               end) with true.
      2:{ destruct (anext a) as [b'|] eqn:En; [|reflexivity].
          rewrite <- (Rn b' eq_refl), Hh. symmetry. apply eqb_reflx. }
      cbn [andb].
      replace (existsb _ sigma || final (aq a) && negb (negb (aw a)))%bool
        with true; [left; reflexivity|].
      symmetry. destruct (rest x) as [|c tl] eqn:Er.
      * cbn [hd_error is_word_opt] in Hh.
        rewrite (accepted_nil _ Rq), <- Hh. apply orb_true_r.
      * destruct (accepted_cons _ _ _ Rq) as [q' [Hd _]].
        apply orb_true_iff. left. apply existsb_exists.
        exists c. split; [exact (delta_sigma _ _ _ Hd)|].
        rewrite Hd. cbn [hd_error is_word_opt] in Hh. rewrite Hh.
        apply eqb_reflx.
    + constructor; cbn [aq aw ag aacc anext]; try assumption.
      intros b [= <-]. exact Hh.
  - destruct (rest x) as [|c tl] eqn:Er; [|discriminate].
    destruct R as [Rw Rq Ra Rg Rn]. rewrite Er in Rq, Rn.
    exists x, a. split; [|split; [|exact Hm]].
    + injection Hs as <-. apply filter_In. split; [exact Ha|].
      unfold end_ok. rewrite (accepted_nil _ Rq). cbn [andb].
      destruct (anext a) as [[|]|] eqn:En; try reflexivity.
      specialize (Rn true eq_refl). discriminate Rn.
    + constructor; try assumption; rewrite Er; assumption.
Qed.

End Sound.

(** *** Positions of a text of the class *)

Lemma positions_start : In (AS QStart false false false None) positions.
Proof. apply amem_In. vm_compute. reflexivity. Qed.

Lemma positions_closed :
  forallb (fun a =>
    forallb (fun c =>
      match delta (aq a) c with
      | Some q' => amem (AS q' (is_word c) false false None) positions
      | None => true
      end) sigma) positions = true.
Proof. vm_compute. reflexivity. Qed.

Lemma at_pos_start (d : text) : plain_json d = true -> at_pos QStart None d.
Proof. intros H. split; [exact positions_start|exact H]. Qed.

Lemma at_pos_step (q : shape_state) (p : option char) (c : char) (s : text) :
  at_pos q p (c :: s) ->
  exists q', delta q c = Some q' /\ at_pos q' (Some c) s.
Proof.
  intros [Hp Ha].
  destruct (accepted_cons _ _ _ Ha) as [q' [Hd Hq']].
  exists q'. split; [exact Hd|]. split; [|exact Hq'].
  pose proof (proj1 (forallb_forall _ _) positions_closed _ Hp) as H1.
  pose proof (proj1 (forallb_forall _ _) H1 c (delta_sigma _ _ _ Hd)) as H2.
  cbv beta in H2. cbn [aq] in H2.
  rewrite Hd in H2. apply amem_In. exact H2.
Qed.

Lemma at_pos_app (a : text) :
  forall q p s, at_pos q p (a ++ s) ->
    exists q' p', at_pos q' p' s.
Proof.
  induction a as [|c a IH]; intros q p s H.
  - exists q, p. exact H.
  - destruct (at_pos_step _ _ _ _ H) as [q' [_ H']]. exact (IH _ _ _ H').
Qed.

Lemma match_at_sound (n0 : nat) (mk : char -> bool) (r : re) (t : list astate) :
  areach n0 mk r positions = Some t ->
  forall q p s y, at_pos q p s -> match_at r p s = Some y ->
    exists b, In b t /\ rel n0 mk s y b.
Proof.
  intros Ht q p s y [Hp Ha] Hm. unfold match_at in Hm.
  assert (R : rel n0 mk s (MState p s []) (AS q (is_word_opt p) false false None)).
  { constructor; cbn [prev rest caps aq aw ag aacc anext]; try reflexivity.
    - exact Ha.
    - exists []. split; reflexivity.
    - discriminate. }
  destruct (areach_sound n0 mk r positions t Ht s _ _ _ y Hp R Hm)
    as [y' [b [Hb [Rb Hk]]]].
  injection Hk as ->. exists b. split; assumption.
Qed.

Section Never.
Variable r : re.
Hypothesis Hr : never r = true.

Lemma match_at_never (q : shape_state) (p : option char) (s : text) :
  at_pos q p s -> match_at r p s = None.
Proof.
  intros H. destruct (match_at r p s) as [y|] eqn:E; [|reflexivity].
  unfold never in Hr.
  destruct (areach 0 (fun _ => false) r positions) as [[|a l]|] eqn:A;
    try discriminate.
  destruct (match_at_sound _ _ r [] A q p s y H E) as [b [[] _]].
Qed.

Lemma search_from_never (s : text) :
  forall q b, at_pos q (last_of b) s -> search_from r b s = None.
Proof.
  induction s as [|c s IH]; intros q b H; cbn [search_from];
    rewrite (match_at_never _ _ _ H); [reflexivity|].
  destruct (at_pos_step _ _ _ _ H) as [q' [_ H']].
  exact (IH q' (c :: b) H').
Qed.

Lemma test_never (s : text) : plain_json s = true -> test r s = false.
Proof.
  intros H. unfold test, search.
  rewrite (search_from_never s QStart [] (at_pos_start s H)). reflexivity.
Qed.

Lemma match_all_from_never (s : text) :
  forall q b skip, at_pos q (last_of b) s -> match_all_from r b skip s = [].
Proof.
  induction s as [|c s IH]; intros q b skip H; destruct skip as [|n];
    cbn [match_all_from]; rewrite ?(match_at_never _ _ _ H); try reflexivity;
    destruct (at_pos_step _ _ _ _ H) as [q' [_ H']];
    exact (IH q' (c :: b) _ H').
Qed.

Lemma match_all_never (s : text) : plain_json s = true -> match_all r s = [].
Proof. intros H. exact (match_all_from_never s QStart [] 0 (at_pos_start s H)). Qed.

Lemma replace_from_never (f : rmatch -> text) (s : text) :
  forall q b, at_pos q (last_of b) s -> replace_from r f b 0 s = s.
Proof.
  induction s as [|c s IH]; intros q b H; cbn [replace_from];
    rewrite (match_at_never _ _ _ H); [reflexivity|].
  destruct (at_pos_step _ _ _ _ H) as [q' [_ H']].
  rewrite (IH q' (c :: b) H'). reflexivity.
Qed.

Lemma replace_fn_never (f : rmatch -> text) (s : text) :
  plain_json s = true -> replace_fn r f s = s.
Proof. intros H. exact (replace_from_never f s QStart [] (at_pos_start s H)). Qed.

Lemma replace_all_never (tpl s : text) :
  plain_json s = true -> replace_all r tpl s = s.
Proof. apply replace_fn_never. Qed.

Lemma replace_first_never (tpl s : text) :
  plain_json s = true -> replace_first r tpl s = s.
Proof.
  intros H. unfold replace_first, search.
  rewrite (search_from_never s QStart [] (at_pos_start s H)). reflexivity.
Qed.

End Never.

Lemma apply_rules_never (rules : list (re * text)) (t : text) :
  forallb (fun pr => never (fst pr)) rules = true ->
  plain_json t = true -> apply_rules rules t = t.
Proof.
  intros Hr Ht. unfold apply_rules.
  induction rules as [|pr rules IH]; [reflexivity|].
  cbn [forallb] in Hr. apply andb_prop in Hr. destruct Hr as [H1 H2].
  cbn [fold_left]. rewrite (replace_all_never (fst pr) H1 (snd pr) t Ht).
  apply IH, H2.
Qed.

(** Matches that are put back as they are. *)
Lemma firstn_length_eq (n k : nat) (l : text) :
  length (firstn n l) = k -> firstn n l = firstn k l.
Proof.
  intros H. rewrite length_firstn in H.
  destruct (Nat.le_ge_cases n (length l)) as [L|L].
  - rewrite Nat.min_l in H by exact L. subst. reflexivity.
  - rewrite Nat.min_r in H by exact L. subst.
    rewrite firstn_all. apply firstn_all2, L.
Qed.

Section Harmless.
Variable r : re.
Variable f : rmatch -> text.
Variable g : rmatch -> bool.
Hypothesis Hf :
  forall q b s y, at_pos q (last_of b) s -> match_at r (last_of b) s = Some y ->
    f (mk_match b s y) = m_text (mk_match b s y) /\ g (mk_match b s y) = false.

Lemma replace_from_harmless (s : text) :
  forall q b skip, at_pos q (last_of b) s -> replace_from r f b skip s = skipn skip s.
Proof.
  induction s as [|c s IH]; intros q b skip H; destruct skip as [|n];
    cbn [replace_from skipn].
  - destruct (match_at r (last_of b) []) as [y|] eqn:E; [|reflexivity].
    rewrite (proj1 (Hf q b [] y H E)). cbn [mk_match m_text length Nat.sub firstn].
    reflexivity.
  - reflexivity.
  - destruct (at_pos_step _ _ _ _ H) as [q' [_ H']].
    destruct (match_at r (last_of b) (c :: s)) as [y|] eqn:E.
    + rewrite (proj1 (Hf q b _ y H E)).
      destruct (length (m_text (mk_match b (c :: s) y))) as [|n] eqn:L.
      * apply length_zero_iff_nil in L. rewrite L.
        rewrite (IH q' (c :: b) 0 H'). reflexivity.
      * rewrite (IH q' (c :: b) n H').
        cbn [mk_match m_text] in *.
        rewrite (firstn_length_eq _ _ _ L). cbn [firstn].
        cbn [app]. f_equal. apply firstn_skipn.
    + rewrite (IH q' (c :: b) 0 H'). reflexivity.
  - destruct (at_pos_step _ _ _ _ H) as [q' [_ H']].
    exact (IH q' (c :: b) n H').
Qed.

Lemma replace_fn_harmless (s : text) :
  plain_json s = true -> replace_fn r f s = s.
Proof.
  intros H. exact (replace_from_harmless s QStart [] 0 (at_pos_start s H)).
Qed.

Lemma match_all_from_harmless (s : text) :
  forall q b skip, at_pos q (last_of b) s ->
    existsb g (match_all_from r b skip s) = false.
Proof.
  induction s as [|c s IH]; intros q b skip H; destruct skip as [|n];
    cbn [match_all_from].
  - destruct (match_at r (last_of b) []) as [y|] eqn:E; [|reflexivity].
    cbn [existsb]. rewrite (proj2 (Hf q b [] y H E)). reflexivity.
  - reflexivity.
  - destruct (at_pos_step _ _ _ _ H) as [q' [_ H']].
    destruct (match_at r (last_of b) (c :: s)) as [y|] eqn:E.
    + cbn [existsb]. rewrite (proj2 (Hf q b _ y H E)).
      exact (IH q' (c :: b) _ H').
    + exact (IH q' (c :: b) 0 H').
  - destruct (at_pos_step _ _ _ _ H) as [q' [_ H']].
    exact (IH q' (c :: b) n H').
Qed.

Lemma match_all_harmless (s : text) :
  plain_json s = true -> existsb g (match_all r s) = false.
Proof.
  intros H. exact (match_all_from_harmless s QStart [] 0 (at_pos_start s H)).
Qed.

End Harmless.

Lemma always_sound (n0 : nat) (mk : char -> bool) (want : bool) (r : re) :
  always n0 mk want r = true ->
  forall q p s y, at_pos q p s -> match_at r p s = Some y ->
    existsb mk (cap_of n0 (caps y)) = want.
Proof.
  unfold always. intros H q p s y Hp Hm.
  destruct (areach n0 mk r positions) as [t|] eqn:A; [|discriminate].
  destruct (match_at_sound n0 mk r t A q p s y Hp Hm) as [b [Hb [_ _ _ Rg _]]].
  rewrite Rg. apply eqb_prop.
  exact (proj1 (forallb_forall _ _) H b Hb).
Qed.

(** *** The pattern-driven passes on a text of the class *)

Ltac never_tac := vm_compute; reflexivity.

Lemma starts_with_head (k : char) (p s : text) :
  starts_with (k :: p) s = true -> existsb (N.eqb k) s = true.
Proof.
  destruct s as [|c s]; cbn [starts_with existsb]; [discriminate|].
  intros H. apply andb_prop in H. destruct H as [H _]. rewrite H. reflexivity.
Qed.

Lemma includes_head (k : char) (p s : text) :
  includes (k :: p) s = true -> existsb (N.eqb k) s = true.
Proof.
  induction s as [|c s IH]; cbn [includes].
  - rewrite orb_false_r. apply starts_with_head.
  - intros H. apply orb_prop in H. destruct H as [H|H].
    + exact (starts_with_head k p (c :: s) H).
    + cbn [existsb]. rewrite (IH H). apply orb_true_r.
Qed.

Lemma includes_single (k : char) (s : text) :
  existsb (N.eqb k) s = true -> includes [k] s = true.
Proof.
  induction s as [|c s IH]; cbn [existsb includes starts_with]; [discriminate|].
  intros H. apply orb_prop in H. destruct H as [H|H].
  - rewrite H. reflexivity.
  - rewrite (IH H). apply orb_true_r.
Qed.

Lemma existsb_ext_char (f g : char -> bool) (s : text) :
  (forall c, f c = g c) -> existsb f s = existsb g s.
Proof.
  intros H. induction s as [|c s IH]; [reflexivity|].
  cbn [existsb]. rewrite H, IH. reflexivity.
Qed.

Lemma marker_includes (s : text) :
  existsb marker s = true ->
  (negb (includes (js ":") s) && negb (includes (js "{") s)
   && negb (includes (js "[") s))%bool = false.
Proof.
  intros H.
  assert (E : (existsb (N.eqb (code ":")) s || existsb (N.eqb (code "{")) s
               || existsb (N.eqb (code "[")) s)%bool = true).
  { induction s as [|c s IH]; [discriminate|].
    cbn [existsb] in *. apply orb_prop in H. destruct H as [H|H].
    - unfold marker, isc in H. rewrite !(N.eqb_sym _ c).
      apply orb_prop in H. destruct H as [H|H].
      + apply orb_prop in H. destruct H as [H|H]; rewrite H;
          rewrite ?orb_true_r; reflexivity.
      + rewrite H, ?orb_true_r. reflexivity.
    - specialize (IH H). apply orb_prop in IH. destruct IH as [IH|IH].
      + apply orb_prop in IH. destruct IH as [IH|IH]; rewrite IH;
          rewrite ?orb_true_r; reflexivity.
      + rewrite IH, ?orb_true_r. reflexivity. }
  apply orb_prop in E. destruct E as [E|E].
  - apply orb_prop in E. destruct E as [E|E].
    + change (js ":") with [code ":"]. rewrite (includes_single _ _ E). reflexivity.
    + change (js "{") with [code "{"]. rewrite (includes_single _ _ E).
      cbn [negb]. rewrite ?andb_false_r. reflexivity.
  - change (js "[") with [code "["]. rewrite (includes_single _ _ E).
    cbn [negb]. rewrite ?andb_false_r. reflexivity.
Qed.

Section PlainPatterns.
Variable t : text.
Variable fixes : list FixReport.
Hypothesis Ht : plain_json t = true.

Lemma convertLiterals_plain : convertLiterals t fixes = (t, fixes).
Proof.
  unfold convertLiterals, literalReplacements. cbn [fold_left fst snd].
  rewrite !test_never by (never_tac || exact Ht). reflexivity.
Qed.

Lemma convertHexNumbers_plain : convertHexNumbers t fixes = (t, fixes).
Proof.
  unfold convertHexNumbers.
  rewrite test_never, replace_fn_never by (never_tac || exact Ht). reflexivity.
Qed.

Lemma fixDuplicateDelimiters_plain : fixDuplicateDelimiters t fixes = (t, fixes).
Proof.
  unfold fixDuplicateDelimiters.
  rewrite apply_rules_never by (never_tac || exact Ht).
  rewrite text_eqb_refl. reflexivity.
Qed.

Lemma problematicQuote_harmless (q : shape_state) (b s : text) (y : mstate) :
  at_pos q (last_of b) s ->
  match_at problematicQuotePattern (last_of b) s = Some y ->
  (if middle_is_quoted_text (mk_match b s y)
   then js "`" ++ cap (mk_match b s y) 1 ++ cap (mk_match b s y) 2 ++ js "\`"
        ++ cap (mk_match b s y) 3 ++ js "\`" ++ cap (mk_match b s y) 4
        ++ cap (mk_match b s y) 5 ++ js "`"
   else m_text (mk_match b s y)) = m_text (mk_match b s y)
  /\ middle_is_quoted_text (mk_match b s y) = false.
Proof.
  intros Hp Hm.
  assert (A : always 3 marker true problematicQuotePattern = true) by never_tac.
  pose proof (always_sound 3 marker true _ A q _ s y Hp Hm) as Hc.
  assert (M : middle_is_quoted_text (mk_match b s y) = false).
  { unfold middle_is_quoted_text. cbv zeta.
    change (cap (mk_match b s y) 3) with (cap_of 3 (caps y)).
    destruct (Nat.ltb 0 (length (trim (cap_of 3 (caps y))))); cbn [andb];
      [exact (marker_includes _ Hc)|reflexivity]. }
  rewrite M. split; reflexivity.
Qed.

Lemma fixUnescapedQuotes_plain : fixUnescapedQuotes t fixes = (t, fixes).
Proof.
  unfold fixUnescapedQuotes.
  rewrite (replace_fn_harmless problematicQuotePattern
             (fun mt =>
                if middle_is_quoted_text mt
                then js "`" ++ cap mt 1 ++ cap mt 2 ++ js "\`" ++ cap mt 3
                     ++ js "\`" ++ cap mt 4 ++ cap mt 5 ++ js "`"
                else m_text mt)
             middle_is_quoted_text problematicQuote_harmless t Ht).
  rewrite (match_all_harmless problematicQuotePattern
             (fun mt =>
                if middle_is_quoted_text mt
                then js "`" ++ cap mt 1 ++ cap mt 2 ++ js "\`" ++ cap mt 3
                     ++ js "\`" ++ cap mt 4 ++ cap mt 5 ++ js "`"
                else m_text mt)
             middle_is_quoted_text problematicQuote_harmless t Ht).
  reflexivity.
Qed.

Lemma fixEscapeSequences_plain : fixEscapeSequences t fixes = (t, fixes).
Proof.
  unfold fixEscapeSequences.
  rewrite (replace_all_never hexEscape) by (never_tac || exact Ht).
  rewrite replace_fn_never by (never_tac || exact Ht).
  rewrite text_eqb_refl. reflexivity.
Qed.

Lemma quoteUnquotedKeys_plain : quoteUnquotedKeys t fixes = (t, fixes).
Proof.
  unfold quoteUnquotedKeys.
  rewrite replace_all_never by (never_tac || exact Ht).
  rewrite text_eqb_refl. reflexivity.
Qed.

Lemma fixMissingCommas_plain : fixMissingCommas t fixes = (t, fixes).
Proof.
  unfold fixMissingCommas.
  rewrite apply_rules_never by (never_tac || exact Ht).
  rewrite text_eqb_refl. reflexivity.
Qed.

Lemma fixDoubleCommas_plain : fixDoubleCommas t fixes = (t, fixes).
Proof.
  unfold fixDoubleCommas.
  rewrite apply_rules_never by (never_tac || exact Ht).
  rewrite text_eqb_refl. reflexivity.
Qed.

Lemma fixTrailingCommas_plain : fixTrailingCommas t fixes = (t, fixes).
Proof.
  unfold fixTrailingCommas.
  rewrite apply_rules_never by (never_tac || exact Ht).
  rewrite text_eqb_refl. reflexivity.
Qed.

Lemma removeDanglingArtifacts_plain : removeDanglingArtifacts t fixes = (t, fixes).
Proof.
  unfold removeDanglingArtifacts.
  rewrite (replace_first_never danglingColon) by (never_tac || exact Ht).
  rewrite replace_first_never by (never_tac || exact Ht).
  rewrite text_eqb_refl. reflexivity.
Qed.

Lemma stringPattern_harmless (q : shape_state) (b s : text) (y : mstate) :
  at_pos q (last_of b) s ->
  match_at stringPattern (last_of b) s = Some y ->
  match unescape_candidate (mk_match b s y) with
  | Some u => u
  | None => m_text (mk_match b s y)
  end = m_text (mk_match b s y)
  /\ is_some (unescape_candidate (mk_match b s y)) = false.
Proof.
  intros Hp Hm.
  assert (A : always 1 (fun c => isc c "\") false stringPattern = true) by never_tac.
  pose proof (always_sound 1 _ false _ A q _ s y Hp Hm) as Hc.
  assert (M : unescape_candidate (mk_match b s y) = None).
  { unfold unescape_candidate.
    change (cap (mk_match b s y) 1) with (cap_of 1 (caps y)).
    destruct (includes (js "\`") (cap_of 1 (caps y))) eqn:I; [|reflexivity].
    apply includes_head in I.
    rewrite (existsb_ext_char _ (fun c => isc c "\")) in I
      by (intros c; apply N.eqb_sym).
    congruence. }
  rewrite M. split; reflexivity.
Qed.

Lemma unescapeStringifiedJSON_plain : unescapeStringifiedJSON t fixes = (t, fixes).
Proof.
  unfold unescapeStringifiedJSON. cbn [unescape_loop].
  rewrite (replace_fn_harmless stringPattern
             (fun mt => match unescape_candidate mt with
                        | Some u => u
                        | None => m_text mt
                        end)
             (fun mt => is_some (unescape_candidate mt))
             stringPattern_harmless t Ht).
  rewrite (match_all_harmless stringPattern
             (fun mt => match unescape_candidate mt with
                        | Some u => u
                        | None => m_text mt
                        end)
             (fun mt => is_some (unescape_candidate mt))
             stringPattern_harmless t Ht).
  reflexivity.
Qed.

End PlainPatterns.

(* ================================================================== *)
(** ** The bracket scans on a text that parses *)

Lemma neutral_spec (c : char) :
  neutral c = true ->
  isc c "`" = false /\ isc c "\" = false /\ isc c "{" = false
  /\ isc c "}" = false /\ isc c "[" = false /\ isc c "]" = false.
Proof.
  unfold neutral. intros H. apply negb_true_iff in H.
  repeat (apply orb_false_iff in H; destruct H as [H ?]).
  repeat split; assumption.
Qed.

Lemma json_ws_neutral (c : char) : json_ws c = true -> neutral c = true.
Proof.
  unfold json_ws. intros H.
  repeat (apply orb_prop in H; destruct H as [H|H]);
    apply N.eqb_eq in H; subst; reflexivity.
Qed.

Lemma number_char_neutral (c : char) : number_char c = true -> neutral c = true.
Proof.
  unfold number_char. intros H.
  repeat (apply orb_prop in H; destruct H as [H|H]);
    try (apply N.eqb_eq in H; subst; reflexivity).
  unfold is_digit, in_range in H. apply andb_prop in H. destruct H as [H1 H2].
  apply N.leb_le in H1, H2.
  unfold neutral, isc.
  repeat match goal with
         | |- context [N.eqb c ?k] =>
             destruct (N.eqb_spec c k) as [->|_]; [cbn in *; lia|]
         end.
  reflexivity.
Qed.

Lemma forallb_impl_char (f g : char -> bool) (l : text) :
  (forall c, f c = true -> g c = true) ->
  forallb f l = true -> forallb g l = true.
Proof.
  intros H Hl. apply forallb_forall. intros c Hc.
  apply H. exact (proj1 (forallb_forall _ _) Hl c Hc).
Qed.

Lemma hex_val_plain (h : char) (u : N) :
  hex_val h = Some u -> isc h "`" = false /\ isc h "\" = false.
Proof.
  unfold hex_val, is_digit, in_range, isc.
  destruct (N.eqb_spec h (code "`")) as [->|_]; [discriminate|].
  destruct (N.eqb_spec h (code "\")) as [->|_]; [discriminate|].
  intros _. split; reflexivity.
Qed.

Lemma hex4_plain (a b c d : char) (u : N) (t : text) :
  hex4 a b c d = Some u ->
  string_body (a :: b :: c :: d :: t) = string_body t.
Proof.
  unfold hex4.
  destruct (hex_val a) as [x|] eqn:A; [|discriminate].
  destruct (hex_val b) as [y|] eqn:B; [|discriminate].
  destruct (hex_val c) as [z|] eqn:C; [|discriminate].
  destruct (hex_val d) as [w|] eqn:D; [|discriminate].
  intros _. cbn [string_body].
  destruct (hex_val_plain a x A) as [-> ->].
  destruct (hex_val_plain b y B) as [-> ->].
  destruct (hex_val_plain c z C) as [-> ->].
  destruct (hex_val_plain d w D) as [-> ->].
  reflexivity.
Qed.

Lemma string_body_cons_plain (c : char) (t : text) :
  isc c "`" = false -> isc c "\" = false ->
  string_body (c :: t) = string_body t.
Proof. intros H1 H2. cbn [string_body]. rewrite H1, H2. reflexivity. Qed.

Lemma consr_some (c : char) (k : nat) (r : option (text * nat))
    (v : text) (n : nat) :
  consr c k r = Some (v, n) ->
  exists v' n', r = Some (v', n') /\ n = k + n'.
Proof.
  destruct r as [[v' n']|]; [|discriminate].
  cbn [consr]. intros [= <- <-]. exists v', n'. split; reflexivity.
Qed.

(** A string literal that lexes: its body up to the closing quote. *)
Lemma lex_string_shape (k : nat) :
  forall t v n, length t <= k -> lex_string t = Some (v, n) ->
    exists body rest_,
      t = body ++ DQ :: rest_ /\ n = S (length body) /\ string_body body = true.
Proof.
  induction k as [|k IH]; intros t v n Hk H.
  - destruct t; [discriminate|cbn in Hk; lia].
  - destruct t as [|c t]; [discriminate|].
    cbn [length] in Hk. cbn [lex_string] in H.
    destruct (isc c "`") eqn:Q.
    { injection H as <- <-. apply N.eqb_eq in Q. subst c.
      exists [], t. repeat split. }
    destruct (isc c "\") eqn:B.
    + destruct t as [|e t']; [discriminate|].
      cbn [length] in Hk.
      destruct (isc e "u").
      * destruct t' as [|h1 [|h2 [|h3 [|h4 t'']]]]; try discriminate.
        destruct (hex4 h1 h2 h3 h4) as [u|] eqn:Hx; [|discriminate].
        destruct (consr_some _ _ _ _ _ H) as [v' [n' [L ->]]].
        cbn [length] in Hk.
        destruct (IH t'' v' n' ltac:(lia) L) as [body [r [-> [-> Hb]]]].
        exists (c :: e :: h1 :: h2 :: h3 :: h4 :: body), r.
        split; [reflexivity|]. split; [cbn [length]; lia|].
        change (string_body (c :: e :: h1 :: h2 :: h3 :: h4 :: body))
          with (if isc c "`" then false
                else if isc c "\" then string_body (h1 :: h2 :: h3 :: h4 :: body)
                     else string_body (e :: h1 :: h2 :: h3 :: h4 :: body)).
        rewrite Q, B, (hex4_plain _ _ _ _ _ body Hx). exact Hb.
      * destruct (simple_escape e) as [u|]; [|discriminate].
        destruct (consr_some _ _ _ _ _ H) as [v' [n' [L ->]]].
        destruct (IH t' v' n' ltac:(lia) L) as [body [r [-> [-> Hb]]]].
        exists (c :: e :: body), r.
        split; [reflexivity|]. split; [cbn [length]; lia|].
        cbn [string_body]. rewrite Q, B. exact Hb.
    + destruct (N.ltb c 32); [discriminate|].
      destruct (consr_some _ _ _ _ _ H) as [v' [n' [L ->]]].
      destruct (IH t v' n' ltac:(lia) L) as [body [r [-> [-> Hb]]]].
      exists (c :: body), r.
      split; [reflexivity|]. split; [cbn [length]; lia|].
      cbn [string_body]. rewrite Q, B. exact Hb.
Qed.

Lemma reads_length (s s' : text) : reads s s' -> length s' <= length s.
Proof. intros [p [-> _]]. rewrite length_app. lia. Qed.

Lemma lex_int_length (s ip s' : text) :
  lex_int s = (ip, s') -> ip <> [] -> length s' < length s.
Proof.
  destruct s as [|c t]; cbn [lex_int].
  - intros [= <- <-] H. contradiction.
  - destruct (isc c "0").
    + intros [= <- <-] _. cbn [length]. lia.
    + intros H Hip.
      destruct (span_digits_spec (c :: t)) as [E _].
      rewrite H in E. cbn [fst snd] in E. rewrite E, length_app.
      destruct ip; [contradiction|cbn [length]; lia].
Qed.

Lemma lex_number_length (s : text) (v : jnum) (n : nat) :
  lex_number s = Some (v, n) -> 1 <= n <= length s.
Proof.
  unfold lex_number.
  pose proof (reads_length _ _ (lex_sign_reads s)) as H1.
  destruct (lex_sign s) as [ng s1]. cbn [snd] in H1.
  pose proof (lex_int_length s1) as H2.
  destruct (lex_int s1) as [ip s2].
  destruct ip as [|i ip]; [discriminate|].
  specialize (H2 _ _ eq_refl ltac:(discriminate)).
  pose proof (reads_length _ _ (lex_frac_reads s2)) as H3.
  destruct (lex_frac s2) as [fp s3]. cbn [snd] in H3.
  pose proof (reads_length _ _ (lex_exp_reads s3)) as H4.
  destruct (lex_exp s3) as [ev s4]. cbn [snd] in H4.
  intros [= _ <-]. lia.
Qed.

Lemma starts_with_split (p s : text) :
  starts_with p s = true -> s = p ++ skipn (length p) s.
Proof.
  intros H. pose proof (firstn_skipn (length p) s) as E.
  rewrite (starts_with_firstn p s H) in E. symmetry. exact E.
Qed.

(** The token at the head of a text: its code units and the text after. *)
Lemma lex1_shape (c : char) (t : text) (tok : token) (n : nat) :
  lex1 (c :: t) = Some (tok, n) ->
  exists l s', t = l ++ s' /\ pred n = length l /\ token_shape tok (c :: l).
Proof.
  cbn [lex1].
  destruct (isc c "{") eqn:E1.
  { intros [= <- <-]. apply N.eqb_eq in E1. subst. exists [], t. repeat split. }
  destruct (isc c "}") eqn:E2.
  { intros [= <- <-]. apply N.eqb_eq in E2. subst. exists [], t. repeat split. }
  destruct (isc c "[") eqn:E3.
  { intros [= <- <-]. apply N.eqb_eq in E3. subst. exists [], t. repeat split. }
  destruct (isc c "]") eqn:E4.
  { intros [= <- <-]. apply N.eqb_eq in E4. subst. exists [], t. repeat split. }
  destruct (isc c ":") eqn:E5.
  { intros [= <- <-]. apply N.eqb_eq in E5. subst. exists [], t. repeat split. }
  destruct (isc c ",") eqn:E6.
  { intros [= <- <-]. apply N.eqb_eq in E6. subst. exists [], t. repeat split. }
  destruct (isc c "`") eqn:E7.
  { destruct (lex_string t) as [[v k]|] eqn:L; [|discriminate].
    intros [= <- <-].
    destruct (lex_string_shape (length t) t v k (Nat.le_refl _) L)
      as [body [r [-> [-> Hb]]]].
    apply N.eqb_eq in E7. subst c.
    exists (body ++ [DQ]), r. split; [rewrite <- app_assoc; reflexivity|].
    split; [rewrite length_app; cbn [length pred]; lia|].
    exists body. split; [reflexivity|exact Hb]. }
  assert (Word : forall w : text,
             starts_with w (c :: t) = true -> w <> [] ->
             forallb neutral w = true ->
             exists l s', t = l ++ s' /\ pred (length w) = length l
                          /\ forallb neutral (c :: l) = true).
  { intros w Hw Hn Hf. pose proof (starts_with_split w _ Hw) as S.
    destruct w as [|a w]; [contradiction|].
    cbn [app] in S. injection S as -> S.
    exists w, (skipn (length (a :: w)) (a :: t)).
    split; [exact S|]. split; [reflexivity|exact Hf]. }
  destruct (starts_with (js "true") (c :: t)) eqn:T1.
  { intros [= <- <-].
    destruct (Word _ T1 ltac:(discriminate) eq_refl) as [l [s' [H1 [H2 H3]]]].
    exists l, s'. repeat split; assumption. }
  destruct (starts_with (js "false") (c :: t)) eqn:T2.
  { intros [= <- <-].
    destruct (Word _ T2 ltac:(discriminate) eq_refl) as [l [s' [H1 [H2 H3]]]].
    exists l, s'. repeat split; assumption. }
  destruct (starts_with (js "null") (c :: t)) eqn:T3.
  { intros [= <- <-].
    destruct (Word _ T3 ltac:(discriminate) eq_refl) as [l [s' [H1 [H2 H3]]]].
    exists l, s'. repeat split; assumption. }
  destruct (lex_number (c :: t)) as [[v k]|] eqn:L; [|discriminate].
  intros [= <- <-].
  pose proof (lex_number_length _ _ _ L) as [K1 K2].
  pose proof (lex_number_reads _ _ _ L) as R.
  destruct k as [|k]; [lia|]. cbn [length] in K2. cbn [firstn] in R.
  exists (firstn k t), (skipn k t).
  split; [symmetry; apply firstn_skipn|].
  split; [cbn [pred]; rewrite length_firstn; lia|].
  cbn [token_shape].
  exact (forallb_impl_char _ _ _ number_char_neutral R).
Qed.

Lemma tokens_skip (l s : text) : tokens (length l) (l ++ s) = tokens 0 s.
Proof.
  induction l as [|c l IH]; [reflexivity|].
  cbn [length app tokens]. exact IH.
Qed.

Lemma tokens_lexes (k : nat) :
  forall s ts, length s <= k -> tokens 0 s = Some ts -> lexes s ts.
Proof.
  induction k as [|k IH]; intros s ts Hk H.
  - destruct s; [|cbn in Hk; lia]. injection H as <-. constructor.
  - destruct s as [|c t]; [injection H as <-; constructor|].
    cbn [length] in Hk. cbn [tokens] in H.
    destruct (json_ws c) eqn:W.
    + apply lexes_ws; [exact W|]. apply IH; [lia|exact H].
    + destruct (lex1 (c :: t)) as [[tok n]|] eqn:L; [|discriminate].
      destruct (lex1_shape c t tok n L) as [l [s' [-> [Hn Hs]]]].
      rewrite Hn, tokens_skip in H.
      destruct (tokens 0 s') as [ts'|] eqn:T; [|discriminate].
      injection H as <-.
      change (c :: l ++ s') with ((c :: l) ++ s').
      apply lexes_tok; [exact Hs|].
      apply IH; [rewrite length_app in Hk; lia|exact T].
Qed.

(** *** The scan for missing closers *)

Lemma open_step_neutral (st : list char) (c : char) :
  neutral c = true -> open_step (OS st false false) c = OS st false false.
Proof.
  intros H. destruct (neutral_spec c H) as (H1 & H2 & H3 & H4 & H5 & H6).
  unfold open_step. cbn [escapeNext stringMode openStack].
  rewrite H1, H2, H3, H4, H5, H6. reflexivity.
Qed.

Lemma open_scan_neutral (st : list char) (l : text) :
  forallb neutral l = true -> open_scan (OS st false false) l = OS st false false.
Proof.
  unfold open_scan. induction l as [|c l IH]; [reflexivity|].
  cbn [forallb fold_left]. intros H. apply andb_prop in H. destruct H as [H1 H2].
  rewrite (open_step_neutral st c H1). exact (IH H2).
Qed.

Lemma open_scan_quoted (st : list char) (body : text) :
  string_body body = true ->
  open_scan (OS st false false) (DQ :: body ++ [DQ]) = OS st false false.
Proof.
  intros Hb. change (DQ :: body ++ [DQ]) with ([DQ] ++ body ++ [DQ]).
  rewrite !open_scan_app.
  change (open_scan (OS st false false) [DQ]) with (OS st true false).
  rewrite (open_scan_string_body (length body) body st (Nat.le_refl _) Hb).
  reflexivity.
Qed.

Ltac pstep_cases Hp :=
  match type of Hp with
  | pstep (?st, ?md) ?tok = Some _ =>
      destruct md; try destruct st as [|[?|? ?] ?];
      cbn in Hp; try discriminate Hp;
      try (injection Hp as <- <-)
  end.

Lemma open_scan_token (tok : token) (l : text) (st st' : list frame)
    (md md' : mode) :
  token_shape tok l -> pstep (st, md) tok = Some (st', md') ->
  open_scan (OS (closers st) false false) l = OS (closers st') false false.
Proof.
  intros Hs Hp.
  destruct tok; cbn [token_shape] in Hs.
  1-6: subst l; pstep_cases Hp; reflexivity.
  - destruct Hs as [body [-> Hb]]. rewrite (open_scan_quoted _ body Hb).
    pstep_cases Hp; reflexivity.
  - rewrite (open_scan_neutral _ l Hs). pstep_cases Hp; reflexivity.
  - rewrite (open_scan_neutral _ l Hs). pstep_cases Hp; reflexivity.
  - rewrite (open_scan_neutral _ l Hs). pstep_cases Hp; reflexivity.
  - rewrite (open_scan_neutral _ l Hs). pstep_cases Hp; reflexivity.
Qed.

Lemma open_scan_lexes (s : text) (ts : list token) :
  lexes s ts ->
  forall st md st' md', prun (st, md) ts = Some (st', md') ->
    open_scan (OS (closers st) false false) s = OS (closers st') false false.
Proof.
  induction 1 as [|c s ts W _ IH|tok l s ts Hs _ IH]; intros st md st' md' Hp.
  - injection Hp as <- <-. reflexivity.
  - change (c :: s) with ([c] ++ s). rewrite open_scan_app.
    rewrite (open_scan_neutral _ [c]) by (cbn [forallb]; rewrite (json_ws_neutral c W); reflexivity).
    exact (IH _ _ _ _ Hp).
  - cbn [prun] in Hp.
    destruct (pstep (st, md) tok) as [[st1 md1]|] eqn:P; [|discriminate].
    rewrite open_scan_app, (open_scan_token tok l st st1 md md1 Hs P).
    exact (IH _ _ _ _ Hp).
Qed.

Lemma JSON_parse_lexes (d : text) (v : value) :
  JSON_parse d = Some v ->
  exists ts, lexes d ts /\ prun ([], MValue) ts = Some ([], MAfter v).
Proof.
  unfold JSON_parse.
  destruct (tokens 0 d) as [ts|] eqn:T; [|discriminate].
  destruct (prun ([], MValue) ts) as [[[|f st] [| | | | |v']]|] eqn:P;
    try discriminate.
  intros [= <-]. exists ts.
  split; [exact (tokens_lexes (length d) d ts (Nat.le_refl _) T)|exact P].
Qed.

(** On a text that parses, no closer is missing. *)
Lemma open_scan_valid (d : text) (v : value) :
  JSON_parse d = Some v -> open_scan (OS [] false false) d = OS [] false false.
Proof.
  intros H. destruct (JSON_parse_lexes d v H) as [ts [L P]].
  exact (open_scan_lexes d ts L [] MValue [] (MAfter v) P).
Qed.

(** *** The scan for mismatched closers *)

Lemma mismatch_step_neutral (stk : list (char * nat)) (i : nat) (c : char) :
  neutral c = true ->
  mismatch_step (MS stk false false []) i c = MS stk false false [].
Proof.
  intros H. destruct (neutral_spec c H) as (H1 & H2 & H3 & H4 & H5 & H6).
  unfold mismatch_step. cbn [ms_escaped ms_inString ms_stack ms_corrections].
  rewrite H1, H2, H3, H4, H5, H6. reflexivity.
Qed.

Lemma mismatch_scan_neutral (stk : list (char * nat)) (l : text) :
  forall i, forallb neutral l = true ->
    mismatch_scan (MS stk false false []) i l = MS stk false false [].
Proof.
  induction l as [|c l IH]; intros i H; [reflexivity|].
  cbn [forallb] in H. apply andb_prop in H. destruct H as [H1 H2].
  cbn [mismatch_scan]. rewrite (mismatch_step_neutral stk i c H1).
  exact (IH _ H2).
Qed.

Lemma mismatch_scan_quoted (stk : list (char * nat)) (i : nat) (body : text) :
  string_body body = true ->
  mismatch_scan (MS stk false false []) i (DQ :: body ++ [DQ])
  = MS stk false false [].
Proof.
  intros Hb. cbn [mismatch_scan].
  change (mismatch_step (MS stk false false []) i DQ) with (MS stk true false []).
  rewrite mismatch_scan_app.
  rewrite (mismatch_scan_string_body (length body) body stk [] (S i)
             (Nat.le_refl _) Hb).
  reflexivity.
Qed.

Lemma mismatch_scan_token (tok : token) (l : text) (st st' : list frame)
    (md md' : mode) (stk : list (char * nat)) (i : nat) :
  token_shape tok l -> pstep (st, md) tok = Some (st', md') ->
  map fst stk = closers st ->
  exists stk',
    mismatch_scan (MS stk false false []) i l = MS stk' false false []
    /\ map fst stk' = closers st'.
Proof.
  intros Hs Hp Hk.
  assert (Same : closers st' = closers st ->
                 exists stk',
                   MS stk false false [] = MS stk' false false []
                   /\ map fst stk' = closers st').
  { intros E. exists stk. split; [reflexivity|congruence]. }
  destruct tok; cbn [token_shape] in Hs.
  - subst l. pstep_cases Hp;
      (eexists; split; [reflexivity|cbn in *; congruence]).
  - subst l. pstep_cases Hp;
      (destruct stk as [|[e p] stk]; [discriminate Hk|];
       cbn in Hk; injection Hk as -> Hk;
       eexists; split; [reflexivity|exact Hk]).
  - subst l. pstep_cases Hp;
      (eexists; split; [reflexivity|cbn in *; congruence]).
  - subst l. pstep_cases Hp;
      (destruct stk as [|[e p] stk]; [discriminate Hk|];
       cbn in Hk; injection Hk as -> Hk;
       eexists; split; [reflexivity|exact Hk]).
  - subst l. apply Same. pstep_cases Hp; reflexivity.
  - subst l. apply Same. pstep_cases Hp; reflexivity.
  - destruct Hs as [body [-> Hb]]. rewrite (mismatch_scan_quoted _ _ body Hb).
    apply Same. pstep_cases Hp; reflexivity.
  - rewrite (mismatch_scan_neutral _ l _ Hs). apply Same. pstep_cases Hp; reflexivity.
  - rewrite (mismatch_scan_neutral _ l _ Hs). apply Same. pstep_cases Hp; reflexivity.
  - rewrite (mismatch_scan_neutral _ l _ Hs). apply Same. pstep_cases Hp; reflexivity.
  - rewrite (mismatch_scan_neutral _ l _ Hs). apply Same. pstep_cases Hp; reflexivity.
Qed.

Lemma mismatch_scan_lexes (s : text) (ts : list token) :
  lexes s ts ->
  forall st md st' md' stk i,
    prun (st, md) ts = Some (st', md') ->
    map fst stk = closers st ->
    exists stk',
      mismatch_scan (MS stk false false []) i s = MS stk' false false []
      /\ map fst stk' = closers st'.
Proof.
  induction 1 as [|c s ts W _ IH|tok l s ts Hs _ IH];
    intros st md st' md' stk i Hp Hk.
  - injection Hp as <- <-. exists stk. split; [reflexivity|exact Hk].
  - cbn [mismatch_scan].
    rewrite (mismatch_step_neutral stk i c (json_ws_neutral c W)).
    exact (IH _ _ _ _ _ _ Hp Hk).
  - cbn [prun] in Hp.
    destruct (pstep (st, md) tok) as [[st1 md1]|] eqn:P; [|discriminate].
    destruct (mismatch_scan_token tok l st st1 md md1 stk i Hs P Hk)
      as [stk1 [E1 K1]].
    rewrite mismatch_scan_app, E1.
    exact (IH _ _ _ _ _ _ Hp K1).
Qed.

(** On a text that parses, no closer is the wrong one. *)
Lemma mismatch_scan_valid (d : text) (v : value) :
  JSON_parse d = Some v ->
  ms_corrections (mismatch_scan (MS [] false false []) 0 d) = [].
Proof.
  intros H. destruct (JSON_parse_lexes d v H) as [ts [L P]].
  destruct (mismatch_scan_lexes d ts L [] MValue [] (MAfter v) [] 0 P eq_refl)
    as [stk' [E _]].
  rewrite E. reflexivity.
Qed.

(** *** The scan for root objects *)

Lemma roots_step_neutral (bc : Z) (a : nat) (secs : list (nat * nat))
    (i : nat) (c : char) :
  neutral c = true ->
  roots_step (RS bc a false false secs) i c = RS bc a false false secs.
Proof.
  intros H. destruct (neutral_spec c H) as (H1 & H2 & H3 & H4 & H5 & H6).
  unfold roots_step. cbn [rs_escaped rs_inString braceCount start objectSections].
  rewrite H1, H2, H3, H4. reflexivity.
Qed.

Lemma roots_scan_neutral (bc : Z) (a : nat) (secs : list (nat * nat)) (l : text) :
  forall i, forallb neutral l = true ->
    roots_scan (RS bc a false false secs) i l = RS bc a false false secs.
Proof.
  induction l as [|c l IH]; intros i H; [reflexivity|].
  cbn [forallb] in H. apply andb_prop in H. destruct H as [H1 H2].
  cbn [roots_scan]. rewrite (roots_step_neutral bc a secs i c H1).
  exact (IH _ H2).
Qed.

Lemma roots_scan_quoted (bc : Z) (a : nat) (secs : list (nat * nat))
    (i : nat) (body : text) :
  string_body body = true ->
  roots_scan (RS bc a false false secs) i (DQ :: body ++ [DQ])
  = RS bc a false false secs.
Proof.
  intros Hb. cbn [roots_scan].
  change (roots_step (RS bc a false false secs) i DQ)
    with (RS bc a true false secs).
  rewrite roots_scan_app.
  rewrite (roots_scan_string_body (length body) body bc a secs (S i)
             (Nat.le_refl _) Hb).
  reflexivity.
Qed.

Lemma rooted_cons (f g : frame) (st : list frame) :
  rooted (f :: g :: st) = rooted (g :: st).
Proof. reflexivity. Qed.

Lemma rooted_nobj (st : list frame) : rooted st = true -> 1 <= nobj st.
Proof.
  unfold rooted, nobj.
  induction st as [|f st IH]; [discriminate|].
  destruct st as [|g st].
  - cbn [last]. intros H. cbn [filter]. rewrite H. cbn [length]. lia.
  - intros H. specialize (IH H). cbn [filter] in *.
    destruct (is_obj_frame f); cbn [length]; lia.
Qed.

Lemma roots_same (st st' : list frame) (md' : mode) (a : nat)
    (secs : list (nat * nat)) :
  rooted st = true -> rooted st' = rooted st -> nobj st' = nobj st ->
  exists a' secs',
    RS (Z.of_nat (nobj st)) a false false secs
    = RS (Z.of_nat (nobj st')) a' false false secs'
    /\ roots_after st' md' a' secs secs'.
Proof.
  intros R E N. exists a, secs. rewrite N. split; [reflexivity|].
  left. split; [congruence|reflexivity].
Qed.

Lemma roots_open (st : list frame) (f : frame) (md' : mode) (a i : nat)
    (secs : list (nat * nat)) :
  rooted st = true ->
  exists a' secs',
    roots_scan (RS (Z.of_nat (nobj st)) a false false secs) i
      [if is_obj_frame f then code "{" else code "["]
    = RS (Z.of_nat (nobj (f :: st))) a' false false secs'
    /\ roots_after (f :: st) md' a' secs secs'.
Proof.
  intros R. pose proof (rooted_nobj st R) as N.
  assert (R' : rooted (f :: st) = true)
    by (destruct st as [|g st]; [discriminate R|exact R]).
  destruct f as [acc|acc k]; cbn [is_obj_frame].
  - exists a, secs. split; [reflexivity|]. left. split; [exact R'|reflexivity].
  - eexists _, secs. split; [|left; split; [exact R'|reflexivity]].
    cbn [roots_scan]. unfold roots_step.
    cbn [rs_escaped rs_inString braceCount start objectSections].
    change (isc (code "{") "\") with false.
    change (isc (code "{") "`") with false.
    change (isc (code "{") "{") with true. cbv iota.
    unfold nobj. cbn [filter is_obj_frame length].
    rewrite Nat2Z.inj_succ, <- Z.add_1_r. reflexivity.
Qed.

Lemma roots_close (st : list frame) (f : frame) (v : value) (a i : nat)
    (secs : list (nat * nat)) :
  rooted (f :: st) = true ->
  exists a' secs',
    roots_scan (RS (Z.of_nat (nobj (f :: st))) a false false secs) i
      [if is_obj_frame f then code "}" else code "]"]
    = RS (Z.of_nat (nobj st)) a' false false secs'
    /\ roots_after st (MAfter v) a' secs secs'.
Proof.
  intros R.
  destruct f as [acc|acc k]; cbn [is_obj_frame].
  - exists a, secs. split; [reflexivity|]. left. split; [|reflexivity].
    destruct st as [|g st]; [discriminate R|exact R].
  - cbn [roots_scan]. unfold roots_step.
    cbn [rs_escaped rs_inString braceCount start objectSections].
    change (isc (code "}") "\") with false.
    change (isc (code "}") "`") with false.
    change (isc (code "}") "{") with false.
    change (isc (code "}") "}") with true. cbv iota.
    replace (Z.of_nat (nobj (FObj acc k :: st)) - 1)%Z with (Z.of_nat (nobj st))
      by (unfold nobj; cbn [filter is_obj_frame length]; lia).
    destruct st as [|g st].
    + eexists _, _. split; [reflexivity|]. right.
      split; [reflexivity|]. split; [exists v; reflexivity|reflexivity].
    + assert (R' : rooted (g :: st) = true) by exact R.
      pose proof (rooted_nobj _ R') as N.
      destruct (Z.eqb_spec (Z.of_nat (nobj (g :: st))) 0) as [E|_]; [lia|].
      eexists _, _. split; [reflexivity|]. left. split; [exact R'|reflexivity].
Qed.

Ltac roots_fin R :=
  first
    [ discriminate R
    | apply roots_same;
      [ exact R
      | try reflexivity;
        match goal with
        | |- rooted (_ :: ?x) = _ => destruct x; reflexivity
        end
      | reflexivity ] ].

Lemma roots_scan_token (tok : token) (l : text) (st st' : list frame)
    (md md' : mode) (a i : nat) (secs : list (nat * nat)) :
  token_shape tok l -> pstep (st, md) tok = Some (st', md') ->
  rooted st = true ->
  exists a' secs',
    roots_scan (RS (Z.of_nat (nobj st)) a false false secs) i l
    = RS (Z.of_nat (nobj st')) a' false false secs'
    /\ roots_after st' md' a' secs secs'.
Proof.
  intros Hs Hp R.
  destruct tok; cbn [token_shape] in Hs.
  - subst l. pstep_cases Hp; try discriminate R;
      exact (roots_open _ (FObj [] []) _ a i secs R).
  - subst l. pstep_cases Hp; try discriminate R;
      exact (roots_close _ (FObj _ _) _ a i secs R).
  - subst l. pstep_cases Hp; try discriminate R;
      exact (roots_open _ (FArr []) _ a i secs R).
  - subst l. pstep_cases Hp; try discriminate R;
      exact (roots_close _ (FArr _) _ a i secs R).
  - subst l. pstep_cases Hp; roots_fin R.
  - subst l. pstep_cases Hp; roots_fin R.
  - destruct Hs as [body [-> Hb]]. rewrite (roots_scan_quoted _ _ _ _ body Hb).
    pstep_cases Hp; roots_fin R.
  - rewrite (roots_scan_neutral _ _ _ l _ Hs). pstep_cases Hp; roots_fin R.
  - rewrite (roots_scan_neutral _ _ _ l _ Hs). pstep_cases Hp; roots_fin R.
  - rewrite (roots_scan_neutral _ _ _ l _ Hs). pstep_cases Hp; roots_fin R.
  - rewrite (roots_scan_neutral _ _ _ l _ Hs). pstep_cases Hp; roots_fin R.
Qed.

Lemma lexes_blank (s : text) (ts : list token) :
  lexes s ts -> ts = [] -> forallb neutral s = true.
Proof.
  induction 1 as [|c s ts W _ IH|tok l s ts Hs _ IH]; intros E;
    [reflexivity| |discriminate].
  cbn [forallb]. rewrite (json_ws_neutral c W). exact (IH E).
Qed.

Lemma roots_scan_lexes (s : text) (ts : list token) :
  lexes s ts ->
  forall st md st' md' a secs i,
    prun (st, md) ts = Some (st', md') ->
    rooted st = true ->
    exists a' secs',
      roots_scan (RS (Z.of_nat (nobj st)) a false false secs) i s
      = RS (Z.of_nat (nobj st')) a' false false secs'
      /\ roots_after st' md' a' secs secs'.
Proof.
  induction 1 as [|c s ts W _ IH|tok l s ts Hs Hl IH];
    intros st md st' md' a secs i Hp R.
  - injection Hp as <- <-. exists a, secs. split; [reflexivity|].
    left. split; [exact R|reflexivity].
  - cbn [roots_scan].
    rewrite (roots_step_neutral _ a secs i c (json_ws_neutral c W)).
    exact (IH _ _ _ _ _ _ _ Hp R).
  - cbn [prun] in Hp.
    destruct (pstep (st, md) tok) as [[st1 md1]|] eqn:P; [|discriminate].
    destruct (roots_scan_token tok l st st1 md md1 a i secs Hs P R)
      as [a1 [secs1 [E1 [[R1 ->]|[-> [[v ->] L1]]]]]];
      rewrite roots_scan_app, E1.
    + exact (IH _ _ _ _ _ _ _ Hp R1).
    + destruct ts as [|t1 ts]; [|discriminate Hp].
      injection Hp as <- <-.
      rewrite (roots_scan_neutral _ _ _ s _ (lexes_blank s [] Hl eq_refl)).
      exists a1, secs1. split; [reflexivity|].
      right. split; [reflexivity|]. split; [exists v; reflexivity|exact L1].
Qed.

(** A text that parses and starts with a brace is one object for the scan
    of [handleMultipleRoots]. *)
Lemma roots_scan_root_object (t : text) (v : value) :
  JSON_parse (code "{" :: t) = Some v ->
  length (objectSections
            (roots_scan (RS 0 0 false false []) 0 (code "{" :: t))) = 1.
Proof.
  intros H. unfold JSON_parse in H.
  change (tokens 0 (code "{" :: t))
    with (match tokens 0 t with Some ts => Some (TLBrace :: ts) | None => None end)
    in H.
  destruct (tokens 0 t) as [ts|] eqn:T; [|discriminate].
  cbn [prun pstep expect_value] in H.
  destruct (prun ([FObj [] []], MKeyOrClose) ts) as [[[|f st] md]|] eqn:P;
    try discriminate.
  pose proof (tokens_lexes (length t) t ts (Nat.le_refl _) T) as L.
  destruct (roots_scan_lexes t ts L [FObj [] []] MKeyOrClose [] md 0 [] 1 P eq_refl)
    as [a' [secs' [E [[R _]|[_ [_ Len]]]]]]; [discriminate R|].
  change (roots_scan (RS 0 0 false false []) 0 (code "{" :: t))
    with (roots_scan (RS (Z.of_nat (nobj [FObj [] []])) 0 false false []) 1 t).
  rewrite E. exact Len.
Qed.

(** The scan finds no more objects than the text has opening braces. *)

Lemma roots_step_count (st : roots_state) (i : nat) (c : char) :
  length (objectSections (roots_step st i c))
  + open_brace (braceCount (roots_step st i c))
  <= length (objectSections st) + open_brace (braceCount st)
     + (if isc c "{" then 1 else 0).
Proof.
  unfold roots_step, open_brace.
  destruct (rs_escaped st); [cbn [objectSections braceCount]; lia|].
  destruct (isc c "\"); [cbn [objectSections braceCount]; lia|].
  destruct (isc c "`"); [cbn [objectSections braceCount]; lia|].
  destruct (rs_inString st); [lia|].
  destruct (isc c "{").
  - cbn [objectSections braceCount].
    destruct (Z.ltb_spec 0 (braceCount st + 1)), (Z.ltb_spec 0 (braceCount st)); lia.
  - destruct (isc c "}"); [|lia].
    cbn [objectSections braceCount].
    destruct (Z.eqb_spec (braceCount st - 1) 0);
      destruct (Z.ltb_spec 0 (braceCount st - 1)), (Z.ltb_spec 0 (braceCount st));
      cbn [length]; lia.
Qed.

Lemma roots_scan_count (t : text) :
  forall st i,
    length (objectSections (roots_scan st i t))
    + open_brace (braceCount (roots_scan st i t))
    <= length (objectSections st) + open_brace (braceCount st)
       + length (filter (fun c => isc c "{") t).
Proof.
  induction t as [|c t IH]; intros st i; cbn [roots_scan filter]; [lia|].
  specialize (IH (roots_step st i c) (S i)).
  pose proof (roots_step_count st i c) as S1.
  destruct (isc c "{"); cbn [length]; lia.
Qed.

Lemma roots_scan_one_root (d : text) (v : value) :
  JSON_parse d = Some v -> one_root d = true ->
  length (objectSections (roots_scan (RS 0 0 false false []) 0 d)) <= 1.
Proof.
  intros Hv Hr. unfold one_root in Hr. apply orb_prop in Hr.
  destruct Hr as [Hr|Hr].
  - destruct d as [|c t]; [discriminate|].
    cbn [starts_with js] in Hr. apply andb_prop in Hr. destruct Hr as [Hr _].
    apply N.eqb_eq in Hr. subst c.
    change (N_of_ascii "{") with (code "{") in *.
    rewrite (roots_scan_root_object t v Hv). lia.
  - apply Nat.leb_le in Hr.
    pose proof (roots_scan_count d (RS 0 0 false false []) 0) as C.
    cbn [objectSections braceCount length] in C.
    unfold open_brace at 2 in C. cbn in C. lia.
Qed.

(** *** Texts of the class and the string methods *)

Lemma run_app (a b : text) :
  forall q, run q (a ++ b)
            = match run q a with Some q' => run q' b | None => None end.
Proof.
  induction a as [|c a IH]; intros q; cbn [app run]; [reflexivity|].
  destruct (delta q c); [apply IH|reflexivity].
Qed.

Lemma includes_split (p t : text) :
  includes p t = true -> exists a b, t = a ++ p ++ b.
Proof.
  induction t as [|c t IH]; cbn [includes]; intros H.
  - rewrite orb_false_r in H. exists [], (skipn (length p) []).
    exact (starts_with_split p [] H).
  - apply orb_prop in H. destruct H as [H|H].
    + exists [], (skipn (length p) (c :: t)). exact (starts_with_split p _ H).
    + destruct (IH H) as [a [b ->]]. exists (c :: a), b. reflexivity.
Qed.

Lemma ends_with_split (p t : text) :
  ends_with p t = true -> exists a, t = a ++ p.
Proof.
  unfold ends_with. intros H.
  pose proof (starts_with_split _ _ H) as E.
  remember (skipn (length (rev p)) (rev t)) as x eqn:X. clear X.
  exists (rev x).
  apply (f_equal (@rev char)) in E.
  rewrite rev_involutive, rev_app_distr, rev_involutive in E. exact E.
Qed.

(** No text of the class holds [p], when the automaton cannot read [p]
    from any of its states. *)
Lemma includes_plain (p t : text) :
  forallb (fun a => match run (aq a) p with Some _ => false | None => true end)
          positions = true ->
  plain_json t = true -> includes p t = false.
Proof.
  intros Hp Ht. destruct (includes p t) eqn:I; [|reflexivity].
  destruct (includes_split p t I) as [a [b ->]].
  destruct (at_pos_app a _ _ _ (at_pos_start _ Ht)) as [q [c [Hq Ha]]].
  pose proof (proj1 (forallb_forall _ _) Hp _ Hq) as F. cbn [aq] in F.
  unfold accepted_from in Ha. rewrite run_app in Ha.
  destruct (run q p); discriminate.
Qed.

(** No text of the class ends with [p], when the automaton accepts [p]
    from none of its states. *)
Lemma ends_with_plain (p t : text) :
  forallb (fun a => negb (accepted_from (aq a) p)) positions = true ->
  plain_json t = true -> ends_with p t = false.
Proof.
  intros Hp Ht. destruct (ends_with p t) eqn:I; [|reflexivity].
  destruct (ends_with_split p t I) as [a ->].
  destruct (at_pos_app a _ _ _ (at_pos_start _ Ht)) as [q [c [Hq Ha]]].
  pose proof (proj1 (forallb_forall _ _) Hp _ Hq) as F. cbn [aq] in F.
  rewrite Ha in F. discriminate.
Qed.

Lemma accepted_chars (t : text) :
  forall q, accepted_from q t = true -> forallb (fun c => mem c sigma) t = true.
Proof.
  induction t as [|c t IH]; intros q H; [reflexivity|].
  destruct (accepted_cons _ _ _ H) as [q' [Hd Hq']].
  cbn [forallb]. rewrite (IH q' Hq'), andb_true_r.
  unfold delta in Hd. destruct (mem c sigma); [reflexivity|discriminate].
Qed.

(** The code unit [k] occurs in no text of the class. *)
Lemma plain_free (k : char) (t : text) :
  mem k sigma = false -> plain_json t = true ->
  forallb (fun c => negb (N.eqb c k)) t = true.
Proof.
  intros Hk Ht.
  refine (forallb_impl_char _ _ t _ (accepted_chars t QStart Ht)).
  intros c Hc. destruct (N.eqb_spec c k) as [->|_]; [congruence|reflexivity].
Qed.

(** *** The loops over code units on a text of the class *)

Lemma line_comment_at_free (line : text) :
  forallb (fun c => negb (N.eqb c (code "/"))) line = true ->
  forall inString escaped i, line_comment_at inString escaped i line = None.
Proof.
  induction line as [|c line IH]; intros H inS esc i; [reflexivity|].
  destruct line as [|c2 line]; [reflexivity|].
  rewrite line_comment_at_step.
  cbn [forallb] in H. apply andb_prop in H. destruct H as [H1 H2].
  apply negb_true_iff in H1. unfold isc at 3. rewrite H1.
  rewrite andb_false_r. cbn [andb]. cbv zeta.
  destruct esc; [apply IH, H2|].
  destruct (isc c "\"); apply IH, H2.
Qed.

Lemma split_on_forall (P : char -> bool) (s : text) :
  forallb P s = true ->
  Forall (fun l => forallb P l = true) (split_on NL s).
Proof.
  induction s as [|c s IH]; intros H; cbn [split_on].
  - constructor; [reflexivity|constructor].
  - cbn [forallb] in H. apply andb_prop in H. destruct H as [H1 H2].
    specialize (IH H2).
    destruct (N.eqb c NL); [constructor; [reflexivity|exact IH]|].
    destruct (split_on NL s) as [|l ls]; [constructor; [|constructor]|].
    + cbn [forallb]. rewrite H1. reflexivity.
    + inversion IH as [|? ? Hl Hls]; subst.
      constructor; [|exact Hls]. cbn [forallb]. rewrite H1. exact Hl.
Qed.

Lemma join_split_on (s : text) : join [NL] (split_on NL s) = s.
Proof.
  induction s as [|c s IH]; [reflexivity|].
  cbn [split_on].
  pose proof (split_on_nonempty NL s) as N.
  destruct (N.eqb_spec c NL) as [->|_].
  - destruct (split_on NL s) as [|l ls]; [contradiction|].
    cbn [join app] in *. rewrite IH. reflexivity.
  - destruct (split_on NL s) as [|l ls]; [contradiction|].
    destruct ls as [|l2 ls]; cbn [join app] in *; rewrite <- IH; reflexivity.
Qed.

Lemma strip_lines_free (s : text) :
  forallb (fun c => negb (N.eqb c (code "/"))) s = true ->
  join [NL] (map strip_line_comment (split_on NL s)) = s.
Proof.
  intros H. rewrite <- (join_split_on s) at 2. f_equal.
  pose proof (split_on_forall _ s H) as F.
  induction F as [|l ls Hl _ IH]; [reflexivity|].
  cbn [map]. rewrite IH. f_equal.
  unfold strip_line_comment. rewrite (line_comment_at_free l Hl). reflexivity.
Qed.

Lemma single_quotes_loop_free (t : text) :
  forallb (fun c => negb (N.eqb c (code "'"))) t = true ->
  single_quotes_loop 0 t = (t, false).
Proof.
  induction t as [|c t IH]; intros H; [reflexivity|].
  cbn [forallb] in H. apply andb_prop in H. destruct H as [H1 H2].
  apply negb_true_iff in H1.
  cbn [single_quotes_loop]. unfold isc. rewrite H1, (IH H2). reflexivity.
Qed.

(** *** The scanning passes on a text of the class that parses *)

Section PlainScans.
Variable t : text.
Variable v : value.
Variable fixes : list FixReport.
Hypothesis Ht : plain_json t = true.
Hypothesis Hv : JSON_parse t = Some v.
Hypothesis Hr : one_root t = true.
Hypothesis Hm : trimmed t = true.

Lemma removeComments_plain : removeComments t fixes = (t, fixes).
Proof.
  unfold removeComments.
  rewrite test_never by (never_tac || exact Ht).
  rewrite (strip_lines_free t (plain_free (code "/") t eq_refl Ht)).
  rewrite text_eqb_refl. reflexivity.
Qed.

Lemma fixSingleQuotes_plain : fixSingleQuotes t fixes = (t, fixes).
Proof.
  unfold fixSingleQuotes.
  rewrite (single_quotes_loop_free t (plain_free (code "'") t eq_refl Ht)).
  reflexivity.
Qed.

Lemma balanceBrackets_plain : balanceBrackets t fixes = (t, fixes).
Proof.
  assert (E1 : ends_with (js ":") t = false)
    by (apply ends_with_plain; [never_tac|exact Ht]).
  assert (E2 : test danglingAssignment t = false)
    by (apply test_never; [never_tac|exact Ht]).
  assert (E3 : ends_with (js ",") t = false)
    by (apply ends_with_plain; [never_tac|exact Ht]).
  assert (E4 : test trailingComma t = false)
    by (apply test_never; [never_tac|exact Ht]).
  unfold balanceBrackets.
  rewrite E1, E2, (mismatch_scan_valid t v Hv). cbn [fold_left].
  destruct (includes (js "[") t && includes (js "}") t)%bool; cbv beta iota;
    rewrite E3, E4; cbn [orb]; rewrite (open_scan_valid t v Hv); reflexivity.
Qed.

Lemma handleMultipleRoots_plain : handleMultipleRoots t fixes = (t, fixes).
Proof.
  unfold handleMultipleRoots. cbv zeta.
  rewrite (trim_trimmed t Hm), length_rev.
  pose proof (roots_scan_one_root t v Hv Hr) as L.
  replace (Nat.ltb 1 (length (objectSections
                                (roots_scan (RS 0 0 false false []) 0 t))))
    with false by (symmetry; apply Nat.ltb_ge; exact L).
  cbn [andb].
  rewrite (includes_plain (code "}" :: NL :: js "{") t) by (never_tac || exact Ht).
  rewrite (includes_plain (js "}," ++ NL :: js "{") t) by (never_tac || exact Ht).
  reflexivity.
Qed.

End PlainScans.

(** No pass changes a text of the class that parses, is trimmed and has
    one root, or records a fix for it. *)
Lemma run_passes_plain (t : text) (v : value) (fixes : list FixReport) :
  plain_json t = true -> JSON_parse t = Some v -> one_root t = true ->
  trimmed t = true ->
  run_passes passes t fixes = (t, fixes).
Proof.
  intros Ht Hv Hr Hm. apply run_passes_fixed. unfold passes.
  repeat apply Forall_cons; try apply Forall_nil; intros fx.
  - apply removeBOM_trimmed, Hm.
  - apply removeComments_plain, Ht.
  - apply convertLiterals_plain, Ht.
  - apply convertHexNumbers_plain, Ht.
  - apply fixDuplicateDelimiters_plain, Ht.
  - apply fixSingleQuotes_plain, Ht.
  - apply fixUnescapedQuotes_plain, Ht.
  - apply fixEscapeSequences_plain, Ht.
  - apply quoteUnquotedKeys_plain, Ht.
  - apply fixMissingCommas_plain, Ht.
  - apply fixDoubleCommas_plain, Ht.
  - apply fixTrailingCommas_plain, Ht.
  - exact (balanceBrackets_plain t v fx Ht Hv).
  - exact (handleMultipleRoots_plain t v fx Ht Hv Hr Hm).
  - apply removeDanglingArtifacts_plain, Ht.
  - apply unescapeStringifiedJSON_plain, Ht.
Qed.

Lemma fix_output_parses (s : text) (r : FixResult) (d : text) :
  fix_ s = Normal r -> success r = true -> data r = Some d ->
  exists v, JSON_parse d = Some v.
Proof.
  unfold fix_.
  destruct (fix_try s) as [r'|e] eqn:E; cbn [try_catch].
  - intros [= <-] Hs Hd.
    destruct (fix_try_success_parses s r' E Hs) as [d' [v [Hd' [Hv _]]]].
    exists v. congruence.
  - intros [= <-]. discriminate.
Qed.

(** C4, amended.  For every input on which [fix] succeeds: running the
    passes again on the repaired text never records a BOM fix; and when the
    repaired text is a plain JSON text ([plain_json]) that is an object or
    holds at most one opening brace ([one_root]), the whole pipeline
    returns it unchanged and records no fix. *)
Theorem pipeline_rerun_on_output (s : text) (r : FixResult) (d : text) :
  fix_ s = Normal r ->
  success r = true ->
  data r = Some d ->
  removeBOM d [] = (d, [])
  /\ (plain_json d = true -> one_root d = true -> pipeline d = (d, [])).
Proof.
  intros Hf Hs Hd.
  pose proof (fix_output_trimmed s r d Hf Hd) as Hm.
  split; [apply removeBOM_trimmed, Hm|].
  intros Ht Hr.
  destruct (fix_output_parses s r d Hf Hs Hd) as [v Hv].
  unfold pipeline.
  rewrite (run_passes_plain d v [] Ht Hv Hr Hm), (trim_trimmed d Hm).
  reflexivity.
Qed.

(** Texts of the class, and texts outside it. *)
Lemma plain_json_examples :
  map (fun s => plain_json (js s))
    ["{`a`:1}"; "[1,2]"; "[true, false, null]"; "{`a`: -1.5e+10, `b`: []}";
     "{`name`: `Ada Lovelace`, `tags`: [`x`, 1], `n`: {`k`: null} }";
     "[ [1], [2] ]"; "`abc`"; "12"]%string
  = [true; true; true; true; true; true; true; true]
  /\ map (fun s => plain_json (js s))
       ["[[1]]"; "{`a`:{`b`:1}}"; "[`a`,`b`]"; "{`a`:`None`}"; "{`a b`:1}";
        "{`a`:`x:y`}"; "{`a`:1,}"; "{`a`:`it's`}"]%string
     = [false; false; false; false; false; false; false; false].
Proof. split; vm_compute; reflexivity. Qed.

Lemma pipeline_rerun_on_output_witness :
  fix_ (js "{a:1}")
  = Normal (mkResult true (Some (js "{`a`:1}")) None
              [mkFix quote "Quoted unquoted keys" (0, 7)
                 (js "{a:1}") (js "{`a`:1}")])
  /\ plain_json (js "{`a`:1}") = true
  /\ one_root (js "{`a`:1}") = true
  /\ removeBOM (js "{`a`:1}") [] = (js "{`a`:1}", [])
  /\ pipeline (js "{`a`:1}") = (js "{`a`:1}", []).
Proof.
  split; [vm_compute; reflexivity|].
  split; [vm_compute; reflexivity|].
  split; [vm_compute; reflexivity|].
  destruct (pipeline_rerun_on_output (js "{a:1}")
              (mkResult true (Some (js "{`a`:1}")) None
                 [mkFix quote "Quoted unquoted keys" (0, 7)
                    (js "{a:1}") (js "{`a`:1}")])
              (js "{`a`:1}")) as [H1 H2];
    [vm_compute; reflexivity|reflexivity|reflexivity|].
  split; [exact H1|].
  apply H2; vm_compute; reflexivity.
Defined.

(** C4, as stated, fails.  [fix] succeeds on [{a:{b:[1,2,3,{c:]; on its
    repaired text, which ends in doubled braces, the passes record two
    fixes again: the duplicate-delimiter pass drops a brace and bracket
    balancing puts it back.  It fails on other repaired texts too: on an
    array of two objects the multiple-roots pass records its conversion
    again, and a unicode escape that [fixEscapeSequences] decodes without a
    record leaves a text on which an earlier pass now fires: a word that
    [convertLiterals] rewrites, a comma between two string literals, single
    quotes. *)
Lemma pipeline_not_idempotent :
  ((exists fx,
      fix_ (js "{a:{b:[1,2,3,{c:")
      = Normal (mkResult true (Some (js "{`a`:{`b`:[1,2,3,{`c`:null}]}}")) None fx))
   /\ map description (snd (pipeline (js "{`a`:{`b`:[1,2,3,{`c`:null}]}}")))
      = ["Fixed duplicate delimiters"%string;
         "Balanced brackets and completed incomplete structures"%string]
   /\ snd (pipeline (js "{`a`:{`b`:[1,2,3,{`c`:null}]}}")) <> [])
  /\ ((exists fx,
         fix_ (js "[{`a`:1},{`b`:2}]")
         = Normal (mkResult true (Some (js "[{`a`:1},{`b`:2}]")) None fx))
      /\ map description (snd (pipeline (js "[{`a`:1},{`b`:2}]")))
         = ["Converted multiple root objects to array"%string])
  /\ (fix_ (js "[`\u004eone`]")
      = Normal (mkResult true (Some (js "[`None`]")) None [])
      /\ map description (snd (pipeline (js "[`None`]")))
         = ["Converted literals to JSON format"%string])
  /\ (fix_ (js "[`a`\u002c`b`]")
      = Normal (mkResult true (Some (js "[`a`,`b`]")) None [])
      /\ map description (snd (pipeline (js "[`a`,`b`]")))
         = ["Fixed unescaped quotes in string values"%string])
  /\ (fix_ (js "[`x\u0027y\u0027`]")
      = Normal (mkResult true (Some (js "[`x'y'`]")) None [])
      /\ map description (snd (pipeline (js "[`x'y'`]")))
         = ["Converted single quotes to double quotes"%string;
            "Fixed unescaped quotes in string values"%string]).
Proof.
  split.
  { split; [eexists; vm_compute; reflexivity|].
    split; [vm_compute; reflexivity|].
    vm_compute. discriminate. }
  split; [split; [eexists; vm_compute; reflexivity|vm_compute; reflexivity]|].
  repeat split; vm_compute; reflexivity.
Qed.
